(** * automaker: request handlers, path middleware and the session engine

    A shallow embedding of the server-side request handlers of the
    automaker repository (worktree diffs, title generation, prompt
    enhancement, path-parameter validation) together with the
    orchestration engine (scheduler, transcripts, worktree coordinator)
    that the specification describes. *)

From Stdlib Require Import ZArith Ascii String.
From stdpp Require Import base option list gmap strings.

Local Open Scope string_scope.

(** ** JavaScript values, as they reach an express handler *)

Module JS.

(** A parsed JSON body (or query string) value.  Numbers are kept as
    integers: no handler below does arithmetic on them. *)
#[warnings="-register-all"]
Inductive Value :=
| Undefined
| Null
| Bool (b : bool)
| Num (n : Z)
| Str (s : string)
| Arr (items : list Value)
| Obj (fields : list (string * Value)).

(** [if (v)], [!v], [v && ...] *)
Definition truthy (v : Value) : bool :=
  match v with
  | Undefined | Null => false
  | Bool b => b
  | Num n => negb (n =? 0)%Z
  | Str s => negb (String.eqb s "")
  | Arr _ | Obj _ => true
  end.

(** [typeof v === 'string'] *)
Definition is_string (v : Value) : bool :=
  match v with Str _ => true | _ => false end.

(** Property read [o[k]] on a plain object: a missing key reads as
    [undefined]. *)
Definition get (o : gmap string Value) (k : string) : Value :=
  default Undefined (o !! k).

(** The names every object inherits from [Object.prototype]. *)
Definition prototype_members : list string :=
  ["constructor"; "hasOwnProperty"; "isPrototypeOf"; "propertyIsEnumerable";
   "toLocaleString"; "toString"; "valueOf"; "__proto__";
   "__defineGetter__"; "__defineSetter__"; "__lookupGetter__"; "__lookupSetter__"].

(** Property read [o[k]] under a name the caller chooses, on an object
    made by the body or the query parser: an own property if there is one,
    else what [k] names on [Object.prototype].  An inherited member is a
    function (the prototype object itself for [__proto__]); it reads here
    as an object without fields, which is all its readers ask of it: it is
    not [undefined], not a string and not an array. *)
Definition member (o : gmap string Value) (k : string) : Value :=
  match o !! k with
  | Some v => v
  | None => if existsb (String.eqb k) prototype_members then Obj [] else Undefined
  end.

(** [s.endsWith(suffix)] *)
Definition endsWith (s suffix : string) : bool :=
  let n := String.length s in
  let m := String.length suffix in
  (m <=? n)%nat && String.eqb (substring (n - m) m s) suffix.

(** [s.slice(0, -k)] *)
Definition slice_end (k : nat) (s : string) : string :=
  substring 0 (String.length s - k) s.

(** A string is kept as the bytes of its UTF-8 encoding.  The white space
    and line terminators that [String.prototype.trim] removes are, as
    bytes: one byte for U+0009..U+000D and U+0020; two for U+00A0; three
    for U+1680, U+2000..U+200A, U+2028, U+2029, U+202F, U+205F, U+3000 and
    U+FEFF. *)
Definition is_space (c : ascii) : bool :=
  let n := nat_of_ascii c in
  (n =? 32)%nat || ((9 <=? n)%nat && (n <=? 13)%nat).

(** U+00A0 is [C2 A0]. *)
Definition is_space2 (c1 c2 : ascii) : bool :=
  (nat_of_ascii c1 =? 194)%nat && (nat_of_ascii c2 =? 160)%nat.

(** U+1680 is [E1 9A 80]; U+2000..U+200A are [E2 80 80] to [E2 80 8A];
    U+2028, U+2029 and U+202F are [E2 80 A8], [E2 80 A9] and [E2 80 AF];
    U+205F is [E2 81 9F]; U+3000 is [E3 80 80]; U+FEFF is [EF BB BF]. *)
Definition is_space3 (c1 c2 c3 : ascii) : bool :=
  let n1 := nat_of_ascii c1 in
  let n2 := nat_of_ascii c2 in
  let n3 := nat_of_ascii c3 in
  ((n1 =? 225) && (n2 =? 154) && (n3 =? 128))%nat
  || ((n1 =? 226) && (n2 =? 128)
      && (((128 <=? n3) && (n3 <=? 138)) || (n3 =? 168) || (n3 =? 169) || (n3 =? 175)))%nat
  || ((n1 =? 226) && (n2 =? 129) && (n3 =? 159))%nat
  || ((n1 =? 227) && (n2 =? 128) && (n3 =? 128))%nat
  || ((n1 =? 239) && (n2 =? 187) && (n3 =? 191))%nat.

(** White space is dropped from the front of [s].  With [backwards], [s]
    is a string read from its end, and so is every character in it. *)
Fixpoint drop_spaces (backwards : bool) (s : string) : string :=
  match s with
  | EmptyString => EmptyString
  | String c1 r1 =>
      if is_space c1 then drop_spaces backwards r1
      else
        match r1 with
        | String c2 r2 =>
            if (if backwards then is_space2 c2 c1 else is_space2 c1 c2) then
              drop_spaces backwards r2
            else
              match r2 with
              | String c3 r3 =>
                  if (if backwards then is_space3 c3 c2 c1 else is_space3 c1 c2 c3) then
                    drop_spaces backwards r3
                  else s
              | EmptyString => s
              end
        | EmptyString => s
        end
  end.

Definition trim_start (s : string) : string := drop_spaces false s.

Fixpoint rev_string (acc s : string) : string :=
  match s with
  | EmptyString => acc
  | String c r => rev_string (String c acc) r
  end.

Definition trim_end (s : string) : string :=
  rev_string "" (drop_spaces true (rev_string "" s)).

(** [s.trim()] *)
Definition trim (s : string) : string := trim_end (trim_start s).

(** [c] lowered when it is one of A..Z *)
Definition lower_ascii (c : ascii) : ascii :=
  let n := nat_of_ascii c in
  if (65 <=? n)%nat && (n <=? 90)%nat then ascii_of_nat (n + 32) else c.

(** [s.toLowerCase()] on the ASCII range; other code units are kept. *)
Fixpoint toLowerCase (s : string) : string :=
  match s with
  | EmptyString => EmptyString
  | String c r => String (lower_ascii c) (toLowerCase r)
  end.

End JS.

(** ** Exceptions and the express response object *)

(** What a [throw] carries, as far as the handlers tell errors apart. *)
Inductive Exn :=
| PathNotAllowedError (message : string)
| TypeError (message : string)
| Error (message : string)
| NonError.

(** A computation that returns or throws. *)
Inductive Result (A : Type) :=
| Ok (a : A)
| Throw (e : Exn).
Arguments Ok {A} a.
Arguments Throw {A} e.

Definition bind {A B} (m : Result A) (k : A → Result B) : Result B :=
  match m with
  | Ok a => k a
  | Throw e => Throw e
  end.

Notation "m ;;; k" := (bind m (fun _ => k))
  (at level 100, k at level 200, right associativity).

(** [error instanceof Error ? error.message : fallback] *)
Definition message_or (fallback : string) (e : Exn) : string :=
  match e with
  | PathNotAllowedError m | TypeError m | Error m => m
  | NonError => fallback
  end.

(** What was sent with [res.status(code).json(payload)]; a bare
    [res.json(payload)] sends status 200. *)
Record Response := mkResponse {
  status : Z;
  payload : list (string * JS.Value)
}.

Definition json (payload : list (string * JS.Value)) : Response :=
  mkResponse 200 payload.

(** [req.body] and [req.query]; either may be missing. *)
Record Request := mkRequest {
  body : option (gmap string JS.Value);
  query : option (gmap string JS.Value)
}.

(** ** Path-parameter validation middleware *)

Module ValidatePaths.

(** What the middleware did with the request. *)
Inductive Outcome :=
| CallsNext
| Responds (r : Response)
| Rethrows (e : Exn).

(** [req.query && req.query[paramName] !== undefined ? req.query[paramName]
    : undefined] *)
Definition query_value (req : Request) (paramName : string) : JS.Value :=
  match query req with
  | Some q => JS.member q paramName
  | None => JS.Undefined
  end.

(** Helper to get parameter value from request (body first, then query). *)
Definition getParamValue (req : Request) (paramName : string) : JS.Value :=
  match body req with
  | Some b =>
      match JS.member b paramName with
      | JS.Undefined => query_value req paramName
      | v => v
      end
  | None => query_value req paramName
  end.

Section Middleware.

(** [validatePath] of the platform package: returns, or throws. *)
Variable validatePath : string → Result unit.

(** [if (value && typeof value === 'string') validatePath(value)] *)
Definition validate_scalar (value : JS.Value) : Result unit :=
  match value with
  | JS.Str s => if JS.truthy value then validatePath s else Ok tt
  | _ => Ok tt
  end.

(** [for (const value of values) if (typeof value === 'string') validatePath(value)] *)
Fixpoint validate_elements (values : list JS.Value) : Result unit :=
  match values with
  | [] => Ok tt
  | JS.Str s :: rest => validatePath s ;;; validate_elements rest
  | _ :: rest => validate_elements rest
  end.

(** One iteration of the loop over [paramNames]. *)
Definition validate_param (req : Request) (paramName : string) : Result unit :=
  if JS.endsWith paramName "?" then
    validate_scalar (getParamValue req (JS.slice_end 1 paramName))
  else if JS.endsWith paramName "[]" then
    match getParamValue req (JS.slice_end 2 paramName) with
    | JS.Arr values => validate_elements values
    | _ => Ok tt
    end
  else
    validate_scalar (getParamValue req paramName).

Fixpoint validate_all (req : Request) (paramNames : list string) : Result unit :=
  match paramNames with
  | [] => Ok tt
  | p :: rest => validate_param req p ;;; validate_all req rest
  end.

(** The middleware returned by [validatePathParams(...paramNames)]. *)
Definition validatePathParams (paramNames : list string) (req : Request) : Outcome :=
  match validate_all req paramNames with
  | Ok _ => CallsNext
  | Throw (PathNotAllowedError m) =>
      Responds (mkResponse 403
        [("success", JS.Bool false); ("error", JS.Str m)])
  | Throw e => Rethrows e
  end.

(** The strings of the request that reach [validatePath], in order,
    were no call to throw. *)
Definition checked_scalar (value : JS.Value) : list string :=
  match value with
  | JS.Str s => if String.eqb s "" then [] else [s]
  | _ => []
  end.

Fixpoint string_elements (values : list JS.Value) : list string :=
  match values with
  | [] => []
  | JS.Str s :: rest => s :: string_elements rest
  | _ :: rest => string_elements rest
  end.

Definition checked_param (req : Request) (paramName : string) : list string :=
  if JS.endsWith paramName "?" then
    checked_scalar (getParamValue req (JS.slice_end 1 paramName))
  else if JS.endsWith paramName "[]" then
    match getParamValue req (JS.slice_end 2 paramName) with
    | JS.Arr values => string_elements values
    | _ => []
    end
  else
    checked_scalar (getParamValue req paramName).

Definition checked_values (req : Request) (paramNames : list string) : list string :=
  flat_map (checked_param req) paramNames.

(** [validatePath] on each string in turn, stopping at the first throw. *)
Fixpoint validate_strings (vs : list string) : Result unit :=
  match vs with
  | [] => Ok tt
  | v :: rest => validatePath v ;;; validate_strings rest
  end.

End Middleware.

End ValidatePaths.


(** ** Handlers: effects, logged in call order *)

(** Options object handed to [simpleQuery]; a field left out of the
    object literal is [None]. *)
Record SimpleQueryOptions := mkSimpleQueryOptions {
  prompt : string;
  model : string;
  cwd : string;
  maxTurns : option Z;
  allowedTools : option (list string);
  thinkingLevel : option JS.Value;
  readOnly : option bool
}.

Record SimpleQueryResult := mkSimpleQueryResult {
  text : string
}.

(** Result of [getGitRepositoryDiffs]. *)
Record DiffResult := mkDiffResult {
  diff : string;
  files : list JS.Value;
  hasChanges : bool
}.

(** The calls a handler makes outside itself.  Logging is left out: it
    does not change what a handler answers. *)
Inductive Call :=
| FsAccess (path : string)
| GetGitRepositoryDiffs (path : string)
| GetPromptCustomization
| SimpleQuery (options : SimpleQueryOptions).

(** A handler body: it appends to the log of calls made so far, and returns
    or throws. *)
Definition Eff (A : Type) : Type := list Call → list Call * Result A.

Definition ret {A} (a : A) : Eff A := λ log, (log, Ok a).

Definition raise {A} (e : Exn) : Eff A := λ log, (log, Throw e).

Definition ebind {A B} (m : Eff A) (k : A → Eff B) : Eff B :=
  λ log,
    match m log with
    | (log', Ok a) => k a log'
    | (log', Throw e) => (log', Throw e)
    end.

(** [try { m } catch (e) { h e }] *)
Definition attempt {A} (m : Eff A) (h : Exn → Eff A) : Eff A :=
  λ log,
    match m log with
    | (log', Throw e) => h e log'
    | done => done
    end.

(** An outside call [c] whose answer is [answer]. *)
Definition call {A} (c : Call) (answer : Result A) : Eff A :=
  λ log, ((log ++ [c])%list, answer).

Notation "'do' x <- m ; k" := (ebind m (fun x => k))
  (at level 10, x name, m at level 100, k at level 200).

(** A whole handler: every path of it ends in a response. *)
Record Handled := mkHandled {
  calls : list Call;
  response : Response
}.

(** The handlers' outermost [catch (error)] answers what is still thrown;
    [on_error] builds that answer. *)
Definition handle (m : Eff Response) (on_error : Exn → Response) : Handled :=
  match m [] with
  | (log, Ok r) => mkHandled log r
  | (log, Throw e) => mkHandled log (on_error e)
  end.

(** [const { ... } = req.body]: destructuring [undefined] throws. *)
Definition destructure_body (req : Request) : Eff (gmap string JS.Value) :=
  match body req with
  | Some b => ret b
  | None => raise (TypeError "Cannot destructure property of req.body as it is undefined.")
  end.

(** [getErrorMessage(error)] *)
Definition getErrorMessage (e : Exn) : string := message_or "Unknown error" e.

Definition failure (code : Z) (message : string) : Response :=
  mkResponse code [("success", JS.Bool false); ("error", JS.Str message)].

(** ** POST /diffs for a feature's worktree *)

Module WorktreeDiffs.

Record Env := mkEnv {
  (** [path.join] on string segments *)
  path_join : list string → string;
  (** [fs.access(path)]: returns, or throws when the path is inaccessible *)
  fs_access : string → Result unit;
  getGitRepositoryDiffs : string → Result DiffResult
}.

(** Where a feature's worktree is looked for. *)
Definition worktreePath (env : Env) (projectPath featureId : string) : string :=
  path_join env [projectPath; ".automaker"; "worktrees"; featureId].

(** The main worktree is the project root. *)
Definition mainWorktreePath (projectPath : string) : string := projectPath.

Definition diff_payload (r : DiffResult) : list (string * JS.Value) :=
  [("success", JS.Bool true); ("diff", JS.Str (diff r));
   ("files", JS.Arr (files r)); ("hasChanges", JS.Bool (hasChanges r))].

Definition empty_payload : list (string * JS.Value) :=
  [("success", JS.Bool true); ("diff", JS.Str "");
   ("files", JS.Arr []); ("hasChanges", JS.Bool false)].

Definition diffs_of (env : Env) (path : string) : Eff Response :=
  do result <- call (GetGitRepositoryDiffs path) (getGitRepositoryDiffs env path);
  ret (json (diff_payload result)).

(** The body of the handler's outer [try].  [path.join] throws a
    [TypeError] on a segment that is not a string. *)
Definition handler_body (env : Env) (req : Request) : Eff Response :=
  do b <- destructure_body req;
  let projectPath := JS.get b "projectPath" in
  let featureId := JS.get b "featureId" in
  if negb (JS.truthy projectPath) || negb (JS.truthy featureId) then
    ret (failure 400 "projectPath and featureId required")
  else
    match projectPath, featureId with
    | JS.Str projectPath, JS.Str featureId =>
        let worktreePath := worktreePath env projectPath featureId in
        attempt
          (do _ <- call (FsAccess worktreePath) (fs_access env worktreePath);
           diffs_of env worktreePath)
          (λ innerError,
            attempt
              (diffs_of env (mainWorktreePath projectPath))
              (λ fallbackError, ret (json empty_payload)))
    | _, _ => raise (TypeError "The path argument must be of type string")
    end.

Definition createDiffsHandler (env : Env) (req : Request) : Handled :=
  handle (handler_body env req) (λ error, failure 500 (getErrorMessage error)).

End WorktreeDiffs.

(** ** One-shot queries: title generation and prompt enhancement *)

Definition nl : string := String (ascii_of_nat 10) EmptyString.
Definition dquote : string := String (ascii_of_nat 34) EmptyString.

(** What the one-shot handlers read from outside the request. *)
Record QueryEnv := mkQueryEnv {
  (** [process.cwd()] *)
  process_cwd : string;
  (** [CLAUDE_MODEL_MAP.haiku] and [CLAUDE_MODEL_MAP.sonnet] *)
  haiku : string;
  sonnet : string;
  (** [simpleQuery(options)]: the text the provider produced, or a throw *)
  simpleQuery : SimpleQueryOptions → Result SimpleQueryResult
}.

Module GenerateTitle.

Definition SYSTEM_PROMPT : string :=
  "You are a title generator. Your task is to create a concise, descriptive title (5-10 words max) for a software feature based on its description."
  ++ nl ++ nl ++ "Rules:" ++ nl
  ++ "- Output ONLY the title, nothing else" ++ nl
  ++ "- Keep it short and action-oriented (e.g., " ++ dquote ++ "Add dark mode toggle"
  ++ dquote ++ ", " ++ dquote ++ "Fix login validation" ++ dquote ++ ")" ++ nl
  ++ "- Start with a verb when possible (Add, Fix, Update, Implement, Create, etc.)" ++ nl
  ++ "- No quotes, periods, or extra formatting" ++ nl
  ++ "- Capture the essence of the feature in a scannable way".

(** The options object of the handler's [simpleQuery] call. *)
Definition query_options (env : QueryEnv) (trimmedDescription : string)
  : SimpleQueryOptions :=
  let userPrompt :=
    "Generate a concise title for this feature:" ++ nl ++ nl ++ trimmedDescription in
  {| prompt := SYSTEM_PROMPT ++ nl ++ nl ++ userPrompt;
     model := haiku env;
     cwd := process_cwd env;
     maxTurns := Some 1%Z;
     allowedTools := Some [];
     thinkingLevel := None;
     readOnly := None |}.

Definition handler_body (env : QueryEnv) (req : Request) : Eff Response :=
  do b <- destructure_body req;
  match JS.get b "description" with
  | JS.Str description =>
      if negb (JS.truthy (JS.Str description)) then
        ret (failure 400 "description is required and must be a string")
      else
        let trimmedDescription := JS.trim description in
        if (String.length trimmedDescription =? 0)%nat then
          ret (failure 400 "description cannot be empty")
        else
          let options := query_options env trimmedDescription in
          do result <- call (SimpleQuery options) (simpleQuery env options);
          let title := text result in
          if negb (JS.truthy (JS.Str title))
             || (String.length (JS.trim title) =? 0)%nat then
            ret (failure 500 "Failed to generate title - empty response")
          else
            ret (json [("success", JS.Bool true); ("title", JS.Str (JS.trim title))])
  | _ => ret (failure 400 "description is required and must be a string")
  end.

Definition createGenerateTitleHandler (env : QueryEnv) (req : Request) : Handled :=
  handle (handler_body env req)
         (λ error, failure 500 (message_or "Unknown error occurred" error)).

End GenerateTitle.

Module Enhance.

(** The members of the [EnhancementMode] type, as the keys of the handler's
    [systemPromptMap] list them. *)
Inductive EnhancementMode :=
| improve | technical | simplify | acceptance | ux_reviewer.

Definition mode_name (m : EnhancementMode) : string :=
  match m with
  | improve => "improve"
  | technical => "technical"
  | simplify => "simplify"
  | acceptance => "acceptance"
  | ux_reviewer => "ux-reviewer"
  end.

Definition all_modes : list EnhancementMode :=
  [improve; technical; simplify; acceptance; ux_reviewer].

(** The mode a string names, if any. *)
Definition mode_of_string (s : string) : option EnhancementMode :=
  List.find (λ m, String.eqb (mode_name m) s) all_modes.

(** Modelled from the spec: [isValidEnhancementMode] of
    lib/enhancement-prompts.js is not among the sources.  It is the type
    guard of [EnhancementMode], whose members are the keys that the
    handler's [systemPromptMap: Record<EnhancementMode, string>] has to
    list: true exactly on improve, technical, simplify, acceptance and
    ux-reviewer. *)
Definition isValidEnhancementMode (s : string) : bool :=
  match mode_of_string s with Some _ => true | None => false end.

(** [prompts.enhancement] of the merged prompt customization. *)
Record EnhancementPrompts := mkEnhancementPrompts {
  improveSystemPrompt : string;
  technicalSystemPrompt : string;
  simplifySystemPrompt : string;
  acceptanceSystemPrompt : string;
  uxReviewerSystemPrompt : string
}.

Record Env := mkEnv {
  base : QueryEnv;
  (** [getPromptCustomization(settingsService, '[EnhancePrompt]')] *)
  getPromptCustomization : Result EnhancementPrompts;
  (** [buildUserPrompt(mode, text, includeExamples)] *)
  buildUserPrompt : EnhancementMode → string → bool → string;
  (** [resolveModelString(model, defaultModel)] *)
  resolveModelString : JS.Value → string → string
}.

(** [systemPromptMap[validMode]] *)
Definition systemPromptMap (p : EnhancementPrompts) (m : EnhancementMode) : string :=
  match m with
  | improve => improveSystemPrompt p
  | technical => technicalSystemPrompt p
  | simplify => simplifySystemPrompt p
  | acceptance => acceptanceSystemPrompt p
  | ux_reviewer => uxReviewerSystemPrompt p
  end.

(** [isValidEnhancementMode(normalizedMode) ? normalizedMode : 'improve'] *)
Definition validMode (enhancementMode : string) : EnhancementMode :=
  let normalizedMode := JS.toLowerCase enhancementMode in
  if isValidEnhancementMode normalizedMode then
    default improve (mode_of_string normalizedMode)
  else improve.

(** The options object of the handler's [simpleQuery] call. *)
Definition query_options (env : Env) (systemPrompt userPrompt : string)
    (model thinkingLevel : JS.Value) : SimpleQueryOptions :=
  {| prompt := systemPrompt ++ nl ++ nl ++ userPrompt;
     model := resolveModelString env model (sonnet (base env));
     cwd := process_cwd (base env);
     maxTurns := Some 1%Z;
     allowedTools := Some [];
     thinkingLevel := Some thinkingLevel;
     readOnly := Some true |}.

(** The handler from the normalisation of the mode on. *)
Definition enhance_with (env : Env) (mode : EnhancementMode) (trimmedText : string)
    (model thinkingLevel : JS.Value) : Eff Response :=
  do prompts <- call GetPromptCustomization (getPromptCustomization env);
  let systemPrompt := systemPromptMap prompts mode in
  let userPrompt := buildUserPrompt env mode trimmedText true in
  let options := query_options env systemPrompt userPrompt model thinkingLevel in
  do result <- call (SimpleQuery options) (simpleQuery (base env) options);
  let enhancedText := text result in
  if negb (JS.truthy (JS.Str enhancedText))
     || (String.length (JS.trim enhancedText) =? 0)%nat then
    ret (failure 500 "Failed to generate enhanced text - empty response")
  else
    ret (json [("success", JS.Bool true);
               ("enhancedText", JS.Str (JS.trim enhancedText))]).

Definition handler_body (env : Env) (req : Request) : Eff Response :=
  do b <- destructure_body req;
  let originalText := JS.get b "originalText" in
  let enhancementMode := JS.get b "enhancementMode" in
  let model := JS.get b "model" in
  let thinkingLevel := JS.get b "thinkingLevel" in
  match originalText with
  | JS.Str originalText =>
      if negb (JS.truthy (JS.Str originalText)) then
        ret (failure 400 "originalText is required and must be a string")
      else
        match enhancementMode with
        | JS.Str enhancementMode =>
            if negb (JS.truthy (JS.Str enhancementMode)) then
              ret (failure 400 "enhancementMode is required and must be a string")
            else
              let trimmedText := JS.trim originalText in
              if (String.length trimmedText =? 0)%nat then
                ret (failure 400 "originalText cannot be empty")
              else
                enhance_with env (validMode enhancementMode) trimmedText
                             model thinkingLevel
        | _ => ret (failure 400 "enhancementMode is required and must be a string")
        end
  | _ => ret (failure 400 "originalText is required and must be a string")
  end.

Definition createEnhanceHandler (env : Env) (req : Request) : Handled :=
  handle (handler_body env req)
         (λ error, failure 500 (message_or "Unknown error occurred" error)).

End Enhance.

(** ** The orchestration engine: sessions, scheduler, transcripts *)

Module Engine.

Local Open Scope list_scope.
Local Open Scope nat_scope.

Inductive ErrorKind :=
| ProviderNotInstalled | ProviderAuthRequired | RateLimited | Timeout
| ProcessCrashed | ToolPermissionDenied | WorktreeLockTimeout | WorktreeBusy
| CancelledKind | Unknown.

(** [Queued → Spawning → Running → Completed | Failed | Cancelled] *)
Inductive SessionState :=
| Queued | Spawning | Running | Completed | Failed (kind : ErrorKind) | Cancelled.

Definition terminal (st : SessionState) : bool :=
  match st with
  | Completed | Failed _ | Cancelled => true
  | _ => false
  end.

(** A Session holds a concurrency slot from its admission until it reaches
    a terminal state. *)
Definition holds_slot (st : SessionState) : bool :=
  match st with
  | Spawning | Running => true
  | _ => false
  end.

Definition is_running (st : SessionState) : bool :=
  match st with Running => true | _ => false end.

Definition is_queued (st : SessionState) : bool :=
  match st with Queued => true | _ => false end.

Inductive Provider := Claude | Cursor | Opencode.

Inductive Role := user | agent | tool | system.

Inductive ContentBlock :=
| TextBlock (text : string)
| ToolInvocation (name input : string)
| ToolResult (output : string).

Record Message := mkMessage {
  role : Role;
  content : list ContentBlock;
  sequence : nat
}.

Record Session := mkSession {
  featureId : string;
  projectId : string;
  providerId : Provider;
  state : SessionState;
  transcript : list Message
}.

Definition with_state (st : SessionState) (x : Session) : Session :=
  {| featureId := featureId x; projectId := projectId x;
     providerId := providerId x; state := st; transcript := transcript x |}.

(** Appending is the only way a transcript is written: the new Message
    takes the next sequence number. *)
Definition append_message (r : Role) (c : list ContentBlock) (x : Session) : Session :=
  {| featureId := featureId x; projectId := projectId x;
     providerId := providerId x; state := state x;
     transcript := transcript x ++ [mkMessage r c (length (transcript x))] |}.

(** ConcurrencyPool of one project. *)
Record Pool := mkPool {
  maxConcurrency : nat;
  pending : list nat
}.

Definition default_pool : Pool := mkPool 3 [].

(** Events pushed to the consumers. *)
Inductive OutEvent :=
| MessageEvent (sessionId : nat) (seq : nat) (m : Message)
| TerminalEvent (sessionId : nat) (st : SessionState).

(** Modelled from the spec: the Scheduler and the Session state machine
    (sections 3, 4.3, 4.4 and 6) are not among the sources.  Sessions are
    kept in submission order and a Session handle is its position; a
    terminal Session stays, as its transcript.  The count of the admission
    rule is the per-project concurrency counter: the Sessions that hold a
    slot, admitted and not yet terminal. *)
Record Scheduler := mkScheduler {
  sessions : list Session;
  pools : gmap string Pool;
  outbox : list OutEvent
}.

Definition init : Scheduler := mkScheduler [] ∅ [].

Definition pool (s : Scheduler) (p : string) : Pool :=
  default default_pool (pools s !! p).

Fixpoint count {A} (f : A → bool) (l : list A) : nat :=
  match l with
  | [] => 0
  | x :: r => (if f x then 1 else 0) + count f r
  end.

Definition in_project (p : string) (x : Session) : bool :=
  String.eqb (projectId x) p.

(** Sessions of project [p] that hold a slot. *)
Definition active_count (p : string) (s : Scheduler) : nat :=
  count (λ x, in_project p x && holds_slot (state x)) (sessions s).

(** Sessions of project [p] in state [Running]. *)
Definition running_count (p : string) (s : Scheduler) : nat :=
  count (λ x, in_project p x && is_running (state x)) (sessions s).

(** Handles of the [Queued] Sessions of project [p], oldest first; [i] is
    the handle of the first Session of [l]. *)
Fixpoint queued_from (p : string) (i : nat) (l : list Session) : list nat :=
  match l with
  | [] => []
  | x :: r =>
      (if in_project p x && is_queued (state x) then [i] else [])
      ++ queued_from p (S i) r
  end.

Definition queued_handles (p : string) (s : Scheduler) : list nat :=
  queued_from p 0 (sessions s).

Definition state_of (s : Scheduler) (h : nat) : option SessionState :=
  state <$> sessions s !! h.

Record SessionSpec := mkSessionSpec {
  spec_featureId : string;
  spec_providerId : Provider
}.

Definition new_session (p : string) (spec : SessionSpec) (st : SessionState) : Session :=
  mkSession (spec_featureId spec) p (spec_providerId spec) st [].

Definition set_pending (p : string) (q : list nat) (s : Scheduler) : gmap string Pool :=
  <[p := mkPool (maxConcurrency (pool s p)) q]> (pools s).

(** [submit(projectId, sessionSpec)]: admit when the count is below the
    project's [maxConcurrency], otherwise enqueue FIFO. *)
Definition submit (p : string) (spec : SessionSpec) (s : Scheduler) : Scheduler * nat :=
  let h := length (sessions s) in
  if active_count p s <? maxConcurrency (pool s p) then
    (mkScheduler (sessions s ++ [new_session p spec Spawning]) (pools s) (outbox s), h)
  else
    (mkScheduler (sessions s ++ [new_session p spec Queued])
                 (set_pending p (pending (pool s p) ++ [h]) s) (outbox s), h).

(** Dequeue the next [Queued] Session of [p] and admit it, under the
    admission rule. *)
Definition admit_next (p : string) (s : Scheduler) : Scheduler :=
  match pending (pool s p) with
  | h :: rest =>
      if active_count p s <? maxConcurrency (pool s p) then
        mkScheduler (alter (with_state Spawning) h (sessions s))
                    (set_pending p rest s) (outbox s)
      else s
  | [] => s
  end.

(** Session [h], of project [p], reaches the terminal state [st]. *)
Definition finish (h : nat) (p : string) (st : SessionState) (s : Scheduler) : Scheduler :=
  admit_next p
    (mkScheduler (alter (with_state st) h (sessions s)) (pools s)
                 (outbox s ++ [TerminalEvent h st])).

(** A Message is written to the transcript of [h] and pushed. *)
Definition emit (h : nat) (r : Role) (c : list ContentBlock) (s : Scheduler) : Scheduler :=
  match sessions s !! h with
  | Some x =>
      let m := mkMessage r c (length (transcript x)) in
      mkScheduler (alter (append_message r c) h (sessions s)) (pools s)
                  (outbox s ++ [MessageEvent h (sequence m) m])
  | None => s
  end.

(** [cancel(sessionId)] *)
Definition cancel (h : nat) (s : Scheduler) : Scheduler :=
  match sessions s !! h with
  | Some x =>
      let p := projectId x in
      match state x with
      | Queued =>
          finish h p Cancelled
            (mkScheduler (sessions s)
               (set_pending p (List.filter (λ k, negb (k =? h)) (pending (pool s p))) s)
               (outbox s))
      | Spawning => finish h p Cancelled s
      | Running =>
          finish h p Cancelled (emit h system [TextBlock "Session cancelled"] s)
      | _ => s
      end
  | None => s
  end.

(** [setMaxConcurrency(projectId, n)]: only the configured value changes. *)
Definition setMaxConcurrency (p : string) (n : nat) (s : Scheduler) : Scheduler :=
  mkScheduler (sessions s) (<[p := mkPool n (pending (pool s p))]> (pools s)) (outbox s).

(** What happens to the Scheduler. *)
Inductive Event :=
| Submit (p : string) (spec : SessionSpec)
| Spawned (h : nat)
| SpawnFailed (h : nat) (kind : ErrorKind)
| Received (h : nat) (r : Role) (c : list ContentBlock)
| Finished (h : nat)
| Crashed (h : nat) (kind : ErrorKind)
| Cancel (h : nat)
| SetMaxConcurrency (p : string) (n : nat).

(** [k x s] when Session [h] exists in state [st], [s] otherwise. *)
Definition when_in (st : SessionState) (h : nat) (s : Scheduler)
    (k : Session → Scheduler) : Scheduler :=
  match sessions s !! h with
  | Some x =>
      match st, state x with
      | Spawning, Spawning | Running, Running => k x
      | _, _ => s
      end
  | None => s
  end.

Definition step (s : Scheduler) (e : Event) : Scheduler :=
  match e with
  | Submit p spec => fst (submit p spec s)
  | Spawned h =>
      when_in Spawning h s (λ _,
        mkScheduler (alter (with_state Running) h (sessions s)) (pools s) (outbox s))
  | SpawnFailed h kind =>
      when_in Spawning h s (λ x, finish h (projectId x) (Failed kind) s)
  | Received h r c => when_in Running h s (λ _, emit h r c s)
  | Finished h => when_in Running h s (λ x, finish h (projectId x) Completed s)
  | Crashed h kind =>
      when_in Running h s (λ x, finish h (projectId x) (Failed kind) s)
  | Cancel h => cancel h s
  | SetMaxConcurrency p n => setMaxConcurrency p n s
  end.

Definition run (s : Scheduler) (evs : list Event) : Scheduler :=
  fold_left step evs s.



(** What a consumer of the push stream sees of Session [h]. *)
Fixpoint observed (h : nat) (out : list OutEvent) : list (nat * Message) :=
  match out with
  | [] => []
  | MessageEvent k n m :: rest =>
      if k =? h then (n, m) :: observed h rest else observed h rest
  | TerminalEvent _ _ :: rest => observed h rest
  end.

(** Is [x] a Queued session of project [p]? *)
Definition queued_in (p : string) (x : Session) : bool :=
  in_project p x && is_queued (state x).

(** What a session of project [p] in state [st] adds to the count of [p]. *)
Definition share (p : string) (st : SessionState) (x : Session) : nat :=
  if in_project p x && holds_slot st then 1 else 0.

End Engine.

(** Modelled from the spec: the other readings of section 4.4.  [Engine]
    counts the Sessions that hold a slot and admits on a terminal state
    only under the admission rule.  Section 4.4 speaks of the count of
    Sessions in state Running and of admitting the next Queued Session on
    any terminal state.  Here both are parameters: [counted] tells which
    states the admission rule counts, and without [guarded] the dequeue on
    a terminal state admits whatever the count.  [counted := is_running]
    without [guarded] is section 4.4 word by word; [counted := holds_slot]
    with [guarded] is [Engine]. *)
Module Reading.

Import Engine.

Local Open Scope list_scope.
Local Open Scope nat_scope.

Section Policy.

Variable counted : SessionState → bool.
Variable guarded : bool.

Definition occupancy (p : string) (s : Scheduler) : nat :=
  count (λ x, in_project p x && counted (state x)) (sessions s).

Definition submit (p : string) (spec : SessionSpec) (s : Scheduler) : Scheduler * nat :=
  let h := length (sessions s) in
  if occupancy p s <? maxConcurrency (pool s p) then
    (mkScheduler (sessions s ++ [new_session p spec Spawning]) (pools s) (outbox s), h)
  else
    (mkScheduler (sessions s ++ [new_session p spec Queued])
                 (set_pending p (pending (pool s p) ++ [h]) s) (outbox s), h).

Definition admit_next (p : string) (s : Scheduler) : Scheduler :=
  match pending (pool s p) with
  | h :: rest =>
      if (if guarded then occupancy p s <? maxConcurrency (pool s p) else true) then
        mkScheduler (alter (with_state Spawning) h (sessions s))
                    (set_pending p rest s) (outbox s)
      else s
  | [] => s
  end.

Definition finish (h : nat) (p : string) (st : SessionState) (s : Scheduler) : Scheduler :=
  admit_next p
    (mkScheduler (alter (with_state st) h (sessions s)) (pools s)
                 (outbox s ++ [TerminalEvent h st])).

Definition cancel (h : nat) (s : Scheduler) : Scheduler :=
  match sessions s !! h with
  | Some x =>
      let p := projectId x in
      match state x with
      | Queued =>
          finish h p Cancelled
            (mkScheduler (sessions s)
               (set_pending p (List.filter (λ k, negb (k =? h)) (pending (pool s p))) s)
               (outbox s))
      | Spawning => finish h p Cancelled s
      | Running =>
          finish h p Cancelled (emit h system [TextBlock "Session cancelled"] s)
      | _ => s
      end
  | None => s
  end.

Definition step (s : Scheduler) (e : Event) : Scheduler :=
  match e with
  | Submit p spec => fst (submit p spec s)
  | Spawned h =>
      when_in Spawning h s (λ _,
        mkScheduler (alter (with_state Running) h (sessions s)) (pools s) (outbox s))
  | SpawnFailed h kind =>
      when_in Spawning h s (λ x, finish h (projectId x) (Failed kind) s)
  | Received h r c => when_in Running h s (λ _, emit h r c s)
  | Finished h => when_in Running h s (λ x, finish h (projectId x) Completed s)
  | Crashed h kind =>
      when_in Running h s (λ x, finish h (projectId x) (Failed kind) s)
  | Cancel h => cancel h s
  | SetMaxConcurrency p n => setMaxConcurrency p n s
  end.

Definition run (s : Scheduler) (evs : list Event) : Scheduler :=
  fold_left step evs s.

End Policy.

End Reading.

(** ** The worktree coordinator *)

Module Coordinator.

Local Open Scope list_scope.
Local Open Scope nat_scope.

Record Worktree := mkWorktree {
  path : string;
  branch : string;
  isMain : bool
}.

(** A worktree is named by its project and feature id. *)
Definition Key : Type := string * string.

Definition same_key (a b : Key) : bool :=
  String.eqb (fst a) (fst b) && String.eqb (snd a) (snd b).

(** What the coordinator tells a caller.  A blocked [acquire] is told
    nothing until it is granted or times out. *)
Inductive Notice :=
| Granted (session : nat) (k : Key) (w : Worktree)
| AcquireFailed (session : nat) (k : Key) (kind : Engine.ErrorKind)
| Removed (k : Key)
| RemoveFailed (k : Key) (kind : Engine.ErrorKind).

(** Modelled from the spec: the Worktree Coordinator (section 4.5) is not
    among the sources.  [reservations] are the acquisitions now held, each
    by the Session that holds it; [waiting] are the blocked [acquire]
    calls, oldest first. *)
Record State := mkState {
  worktrees : gmap (string * string) Worktree;
  reservations : list (nat * Key);
  waiting : list (nat * Key)
}.

Definition init : State := mkState ∅ [] [].

Definition in_use (k : Key) (s : State) : bool :=
  existsb (λ r, same_key (snd r) k) (reservations s).

Definition is_entry (h : nat) (k : Key) (r : nat * Key) : bool :=
  (fst r =? h) && same_key (snd r) k.

Section Paths.

(** The filesystem contract: where the worktree of a feature lives, and the
    branch it is checked out on. *)
Variable worktree_path : string → string → string.
Variable branch_name : string → string.

Definition new_worktree (k : Key) : Worktree :=
  mkWorktree (worktree_path (fst k) (snd k)) (branch_name (snd k)) false.

(** The worktree of [k]: the existing one, or a new one. *)
Definition ensure (k : Key) (s : State) : Worktree :=
  default (new_worktree k) (worktrees s !! k).

(** Reserve the worktree of [k] for Session [h]. *)
Definition grant (h : nat) (k : Key) (s : State) : State * list Notice :=
  let w := ensure k s in
  (mkState (<[k := w]> (worktrees s)) (reservations s ++ [(h, k)]) (waiting s),
   [Granted h k w]).

(** [acquire(projectId, featureId)] by Session [h] *)
Definition acquire (h : nat) (k : Key) (s : State) : State * list Notice :=
  if in_use k s then
    (mkState (worktrees s) (reservations s) (waiting s ++ [(h, k)]), [])
  else grant h k s.

(** A blocked [acquire] gives up. *)
Definition timeout (h : nat) (k : Key) (s : State) : State * list Notice :=
  if existsb (is_entry h k) (waiting s) then
    (mkState (worktrees s) (reservations s)
             (List.filter (λ r, negb (is_entry h k r)) (waiting s)),
     [AcquireFailed h k Engine.WorktreeBusy])
  else (s, []).

(** The oldest blocked [acquire] of [k], and the others. *)
Fixpoint next_waiter (k : Key) (q : list (nat * Key))
  : option (nat * list (nat * Key)) :=
  match q with
  | [] => None
  | r :: rest =>
      if same_key (snd r) k then Some (fst r, rest)
      else
        match next_waiter k rest with
        | Some (h, rest') => Some (h, r :: rest')
        | None => None
        end
  end.

(** [release(worktree)] by Session [h]: idempotent, keeps the worktree, and
    lets the oldest blocked [acquire] through. *)
Definition release (h : nat) (k : Key) (s : State) : State * list Notice :=
  if existsb (is_entry h k) (reservations s) then
    let s' := mkState (worktrees s)
                (List.filter (λ r, negb (is_entry h k r)) (reservations s))
                (waiting s) in
    match next_waiter k (waiting s) with
    | Some (h', rest) =>
        grant h' k (mkState (worktrees s') (reservations s') rest)
    | None => (s', [])
    end
  else (s, []).

(** [remove(worktree)] *)
Definition remove (k : Key) (s : State) : State * list Notice :=
  if in_use k s then (s, [RemoveFailed k Engine.WorktreeBusy])
  else (mkState (delete k (worktrees s)) (reservations s) (waiting s), [Removed k]).

Inductive Op :=
| Acquire (h : nat) (k : Key)
| AcquireTimeout (h : nat) (k : Key)
| Release (h : nat) (k : Key)
| Remove (k : Key).

Definition apply (s : State) (o : Op) : State * list Notice :=
  match o with
  | Acquire h k => acquire h k s
  | AcquireTimeout h k => timeout h k s
  | Release h k => release h k s
  | Remove k => remove k s
  end.

Definition run (s : State) (ops : list Op) : State :=
  fold_left (λ s o, fst (apply s o)) ops s.

(** Every worktree known to the coordinator lives at the path of its key. *)
Definition paths_fixed (s : State) : Prop :=
  ∀ k w, worktrees s !! k = Some w → path w = worktree_path k.1 k.2.

End Paths.

End Coordinator.

(** ** States, views and sample inputs used by the properties *)

(** A sample [validatePath]: only paths under /work are allowed. *)
Definition sample_validatePath (p : string) : Result unit :=
  if String.prefix "/work" p then Ok tt else Throw (PathNotAllowedError p).

(** A [validatePath] that fails in a way the middleware does not expect,
    as when the working directory to resolve a path against is gone. *)
Definition failing_validatePath (p : string) : Result unit :=
  Throw (Error "ENOENT: no such file or directory, uv_cwd").

(** A request with one path in its body and another in its query string. *)
Definition split_request : Request :=
  mkRequest (Some (<["projectPath" := JS.Str "/work/app"]> ∅))
            (Some (<["worktreePath" := JS.Str "/etc"]> ∅)).

(** A sample world for the diffs handler: no worktree directory exists and
    git fails everywhere. *)
Definition broken_git : WorktreeDiffs.Env :=
  WorktreeDiffs.mkEnv
    (λ segments, fold_right (λ a b, if String.eqb b "" then a else a ++ "/" ++ b) "" segments)
    (λ _, Throw (Error "ENOENT: no such file or directory"))
    (λ _, Throw (Error "fatal: not a git repository")).

Definition diffs_request : Request :=
  mkRequest
    (Some (<["projectPath" := JS.Str "/work/app"]>
           (<["featureId" := JS.Str "feature-1"]> ∅)))
    None.

(** A sample world for the one-shot handlers: the provider answers every
    query with the same text. *)
Definition echo_env : QueryEnv :=
  mkQueryEnv "/srv/automaker" "claude-haiku" "claude-sonnet"
             (λ _, Ok (mkSimpleQueryResult "Add dark mode toggle")).

Definition sample_enhance_env : Enhance.Env :=
  Enhance.mkEnv echo_env
    (Ok (Enhance.mkEnhancementPrompts "improve:" "technical:" "simplify:"
                                      "acceptance:" "ux:"))
    (λ _ t _, t)
    (λ v d, match v with JS.Str s => s | _ => d end).

(** White space outside ASCII, as UTF-8: U+00A0, U+3000, U+FEFF, U+2028,
    then a space. *)
Definition unicode_blanks : string :=
  String (ascii_of_nat 194) (String (ascii_of_nat 160)
  (String (ascii_of_nat 227) (String (ascii_of_nat 128) (String (ascii_of_nat 128)
  (String (ascii_of_nat 239) (String (ascii_of_nat 187) (String (ascii_of_nat 191)
  (String (ascii_of_nat 226) (String (ascii_of_nat 128) (String (ascii_of_nat 168)
  " ")))))))))).

Definition title_request : Request :=
  mkRequest (Some (<["description" := JS.Str "Let users switch to a dark theme"]> ∅))
            None.

Definition enhance_request (originalText enhancementMode : string) : Request :=
  mkRequest
    (Some (<["originalText" := JS.Str originalText]>
           (<["enhancementMode" := JS.Str enhancementMode]> ∅)))
    None.

(** Every pool's queue is the list of the Queued sessions of its project,
    oldest first. *)
Definition queue_consistent (s : Engine.Scheduler) : Prop :=
  ∀ p, Engine.pending (Engine.pool s p) = Engine.queued_handles p s.

(** Session [h] leaves its state for [st]; the pools are not touched. *)
Definition retire (h : nat) (st : Engine.SessionState) (s : Engine.Scheduler)
  : Engine.Scheduler :=
  Engine.mkScheduler (alter (Engine.with_state st) h (Engine.sessions s))
    (Engine.pools s) (Engine.outbox s ++ [Engine.TerminalEvent h st])%list.

Definition spec_of (feature : string) : Engine.SessionSpec :=
  Engine.mkSessionSpec feature Engine.Claude.


(** A burst of five submissions under a capacity of two. *)
Definition burst : list Engine.Event :=
  [Engine.SetMaxConcurrency "proj" 2;
   Engine.Submit "proj" (spec_of "f1"); Engine.Submit "proj" (spec_of "f2");
   Engine.Submit "proj" (spec_of "f3"); Engine.Submit "proj" (spec_of "f4");
   Engine.Submit "proj" (spec_of "f5")].

(** One session holds the only slot and has not spawned yet when a second
    one is submitted. *)
Definition second_submitted : list Engine.Event :=
  [Engine.SetMaxConcurrency "proj" 1;
   Engine.Submit "proj" (spec_of "f1"); Engine.Submit "proj" (spec_of "f2")].

(** Three sessions run and a fourth waits; the capacity is set to one and
    the first session completes. *)
Definition completed_over_capacity : list Engine.Event :=
  [Engine.Submit "proj" (spec_of "f1"); Engine.Submit "proj" (spec_of "f2");
   Engine.Submit "proj" (spec_of "f3"); Engine.Submit "proj" (spec_of "f4");
   Engine.Spawned 0; Engine.Spawned 1; Engine.Spawned 2;
   Engine.SetMaxConcurrency "proj" 1; Engine.Finished 0].

(** The burst, and then every admitted session has spawned. *)
Definition burst_spawned : list Engine.Event :=
  (burst ++ [Engine.Spawned 0; Engine.Spawned 1; Engine.Spawned 2; Engine.Spawned 3;
             Engine.Spawned 4])%list.

(** The session an event may bring to a terminal state. *)
Definition ends (e : Engine.Event) : option nat :=
  match e with
  | Engine.SpawnFailed h _ | Engine.Finished h | Engine.Crashed h _
  | Engine.Cancel h => Some h
  | _ => None
  end.

(** One session runs, two wait, and the first of the waiting is cancelled. *)
Definition cancel_waiting : list Engine.Event :=
  [Engine.SetMaxConcurrency "proj" 1;
   Engine.Submit "proj" (spec_of "f1"); Engine.Submit "proj" (spec_of "f2");
   Engine.Submit "proj" (spec_of "f3"); Engine.Cancel 1].

(** The transcript of Session [h]; empty while there is no such Session. *)
Definition transcript_of (s : Engine.Scheduler) (h : nat) : list Engine.Message :=
  default [] (Engine.transcript <$> Engine.sessions s !! h).

(** What the push stream carries for a transcript. *)
Definition pushed (t : list Engine.Message) : list (nat * Engine.Message) :=
  (λ m, (Engine.sequence m, m)) <$> t.

(** Between [s] and [s'] nothing was written. *)
Definition same_transcripts (s s' : Engine.Scheduler) : Prop :=
  ∀ h, transcript_of s' h = transcript_of s h
       ∧ Engine.observed h (Engine.outbox s') = Engine.observed h (Engine.outbox s).

(** Between [s] and [s'] one Message was appended to the transcript of
    Session [k], and pushed. *)
Definition appended (k : nat) (r : Engine.Role) (c : list Engine.ContentBlock)
    (s s' : Engine.Scheduler) : Prop :=
  let m := Engine.mkMessage r c (length (transcript_of s k)) in
  ∀ h, transcript_of s' h
       = (transcript_of s h ++ (if (k =? h)%nat then [m] else []))%list
       ∧ Engine.observed h (Engine.outbox s')
         = (Engine.observed h (Engine.outbox s)
            ++ (if (k =? h)%nat then [(Engine.sequence m, m)] else []))%list.

(** A session runs, says two things and is cancelled. *)
Definition chat : list Engine.Event :=
  [Engine.Submit "proj" (spec_of "f1"); Engine.Spawned 0;
   Engine.Received 0 Engine.agent [Engine.TextBlock "Reading the code"];
   Engine.Received 0 Engine.tool [Engine.ToolResult "ok"]; Engine.Cancel 0].

(** Every Session of [s] is still there in [s'], for the same feature,
    project and provider. *)
Definition kept (s s' : Engine.Scheduler) : Prop :=
  ∀ h x, Engine.sessions s !! h = Some x →
    ∃ x', Engine.sessions s' !! h = Some x'
          ∧ Engine.featureId x' = Engine.featureId x
          ∧ Engine.projectId x' = Engine.projectId x
          ∧ Engine.providerId x' = Engine.providerId x.

(** Sequence numbers count from zero without a gap, and the push stream
    carries exactly the transcript. *)
Definition transcripts_in_order (s : Engine.Scheduler) : Prop :=
  ∀ h, Engine.observed h (Engine.outbox s) = pushed (transcript_of s h)
       ∧ ∀ i m, transcript_of s h !! i = Some m → Engine.sequence m = i.

(** A sample layout of worktrees on disk. *)
Definition sample_worktree_path (projectPath featureId : string) : string :=
  projectPath ++ "/.automaker/worktrees/" ++ featureId.

Definition sample_branch_name (featureId : string) : string :=
  "feature/" ++ featureId.

(** Session 1 holds the worktree of feature f1. *)
Definition held_by_one : list Coordinator.Op :=
  [Coordinator.Acquire 1 ("/work/app", "f1")].

(** Membership in a log built by appending calls. *)
Ltac in_log :=
  rewrite ?elem_of_app, ?list_elem_of_singleton, ?elem_of_nil;
  intuition (try discriminate); simplify_eq; auto.

(** ** More of the JavaScript string library *)

Module JSText.

(** [s.startsWith(p)] *)
Fixpoint startsWith (s p : string) {struct p} : bool :=
  match p, s with
  | EmptyString, _ => true
  | String c p', String d s' => Ascii.eqb c d && startsWith s' p'
  | String _ _, EmptyString => false
  end.

(** [s.includes(sub)] *)
Fixpoint includes (s sub : string) : bool :=
  startsWith s sub
  || match s with
     | EmptyString => false
     | String _ rest => includes rest sub
     end.

(** Every character of [s] satisfies [f]. *)
Fixpoint all_chars (f : ascii → bool) (s : string) : bool :=
  match s with
  | EmptyString => true
  | String c rest => f c && all_chars f rest
  end.

(** Is [c] within [lo..hi]? *)
Definition between (lo hi : nat) (c : ascii) : bool :=
  let n := nat_of_ascii c in (lo <=? n)%nat && (n <=? hi)%nat.

End JSText.

(** ** Content-Type enforcement middleware *)

Module JsonContentType.

(** HTTP methods that typically include request bodies *)
Definition METHODS_REQUIRING_JSON : list string := ["POST"; "PUT"; "PATCH"].

(** [req.method] and [req.headers['content-type']] *)
Record HttpRequest := mkHttpRequest {
  method : string;
  content_type : option string
}.

Definition unsupported : Response :=
  mkResponse 415
    [("success", JS.Bool false); ("error", JS.Str "Unsupported Media Type");
     ("message", JS.Str "Content-Type header must be application/json")].

Definition requireJsonContentType (req : HttpRequest) : ValidatePaths.Outcome :=
  if negb (existsb (String.eqb (method req)) METHODS_REQUIRING_JSON) then
    ValidatePaths.CallsNext
  else
    match content_type req with
    | Some contentType =>
        if negb (JS.truthy (JS.Str contentType))
           || negb (JSText.includes (JS.toLowerCase contentType) "application/json")
        then ValidatePaths.Responds unsupported
        else ValidatePaths.CallsNext
    | None => ValidatePaths.Responds unsupported
    end.

End JsonContentType.

(** ** Reading the path-parameter middleware *)

(** The request key a parameter name stands for: the name without its
    [?] or [[]] suffix. *)
Definition actual_name (paramName : string) : string :=
  if JS.endsWith paramName "?" then JS.slice_end 1 paramName
  else if JS.endsWith paramName "[]" then JS.slice_end 2 paramName
  else paramName.

(** A [validatePath] that refuses everything. *)
Definition refuse_all (p : string) : Result unit := Throw (PathNotAllowedError p).

(** ** POST /diffs for the main project *)

Module ProjectDiffs.

Record Env := mkEnv {
  (** [getGitRepositoryDiffs(projectPath)]; the handler passes on whatever
      truthy value the body holds. *)
  getGitRepositoryDiffs : JS.Value → Result DiffResult
}.

Definition createDiffsHandler (env : Env) (req : Request) : Response :=
  match body req with
  | None =>
      failure 500
        (getErrorMessage
           (TypeError "Cannot destructure property of req.body as it is undefined."))
  | Some b =>
      let projectPath := JS.get b "projectPath" in
      if negb (JS.truthy projectPath) then failure 400 "projectPath required"
      else
        match getGitRepositoryDiffs env projectPath with
        | Ok result => json (WorktreeDiffs.diff_payload result)
        | Throw innerError => json WorktreeDiffs.empty_payload
        end
  end.

End ProjectDiffs.

(** A sample world where git works at the project root only. *)
Definition root_only_git : WorktreeDiffs.Env :=
  WorktreeDiffs.mkEnv
    (λ segments, fold_right (λ a b, if String.eqb b "" then a else a ++ "/" ++ b) "" segments)
    (λ _, Throw (Error "ENOENT: no such file or directory"))
    (λ p, if String.eqb p "/work/app"
          then Ok (mkDiffResult "diff --git a/x b/x" [JS.Str "x"] true)
          else Throw (Error "fatal: not a git repository")).

Definition root_only_project : ProjectDiffs.Env :=
  ProjectDiffs.mkEnv
    (λ v, match v with
          | JS.Str p => WorktreeDiffs.getGitRepositoryDiffs root_only_git p
          | _ => Throw (Error "fatal: not a git repository")
          end).

(** An enhance environment whose prompt settings cannot be loaded. *)
Definition no_prompts_env : Enhance.Env :=
  Enhance.mkEnv echo_env (Throw (Error "settings unavailable"))
    (λ _ t _, t)
    (λ v d, match v with JS.Str s => s | _ => d end).

(** ** GitHub routes: the remote check, pull request listing, issue comments *)

Module GitHub.

(** The longest prefix of [s] whose characters satisfy [f], and the rest. *)
Fixpoint span (f : ascii → bool) (s : string) : string * string :=
  match s with
  | EmptyString => (EmptyString, EmptyString)
  | String c rest =>
      if f c then let (taken, left) := span f rest in (String c taken, left)
      else (EmptyString, s)
  end.

(** What is left of [s] after the literal [p], when [s] starts with it. *)
Fixpoint after_literal (p s : string) {struct p} : option string :=
  match p, s with
  | EmptyString, _ => Some s
  | String c p', String d s' => if Ascii.eqb c d then after_literal p' s' else None
  | String _ _, EmptyString => None
  end.

Definition slash : ascii := "/"%char.
Definition dot : ascii := "."%char.

(** [[^/]] *)
Definition not_slash (c : ascii) : bool := negb (Ascii.eqb c slash).

(** [[^/.]] *)
Definition not_slash_dot (c : ascii) : bool :=
  negb (Ascii.eqb c slash) && negb (Ascii.eqb c dot).

(** An attempt of [<literal>([^/]+)\/([^/.]+)] at the start of [s].  The
    first group is greedy and must be followed by a slash, so it is the
    whole run of characters up to the first slash; the second group takes
    the longest run it can.  Both need one character at least. *)
Definition match_here (literal s : string) : option (string * string) :=
  match after_literal literal s with
  | Some rest =>
      let (owner, rest1) := span not_slash rest in
      if String.eqb owner "" then None
      else
        match rest1 with
        | String c rest2 =>
            if Ascii.eqb c slash then
              let (repo, _) := span not_slash_dot rest2 in
              if String.eqb repo "" then None else Some (owner, repo)
            else None
        | EmptyString => None
        end
  | None => None
  end.

(** [s.match(/<literal>([^/]+)\/([^/.]+)/)]: the leftmost position where
    the attempt succeeds; the pair is [(match[1], match[2])]. *)
Fixpoint regex_match (literal s : string) : option (string * string) :=
  match match_here literal s with
  | Some groups => Some groups
  | None =>
      match s with
      | EmptyString => None
      | String _ rest => regex_match literal rest
      end
  end.

Definition GITHUB_REPO_URL_PREFIX : string := "https://github.com/".

(** [remoteUrl.match(GITHUB_HTTPS_REMOTE_REGEX)] *)
Definition httpsMatch (remoteUrl : string) : option (string * string) :=
  regex_match "https://github.com/" remoteUrl.

(** [remoteUrl.match(GITHUB_SSH_REMOTE_REGEX)] *)
Definition sshMatch (remoteUrl : string) : option (string * string) :=
  regex_match "git@github.com:" remoteUrl.

(** [s.replace(/\.git$/, '')] *)
Definition strip_dot_git (s : string) : string :=
  if JS.endsWith s ".git" then JS.slice_end 4 s else s.

(** What [gh repo view --json name,owner] printed, as the two reads the
    code makes of it: [data.name] and [data.owner?.login]. *)
Record GhRepoViewResponse := mkGhRepoViewResponse {
  name : JS.Value;
  owner_login : JS.Value
}.

Record Variables := mkVariables {
  var_owner : string;
  var_repo : string;
  var_issueNumber : JS.Value;
  var_cursor : JS.Value;
  var_pageSize : Z
}.

Record Author := mkAuthor {
  login : string;
  avatarUrl : option string
}.

Record GraphQLComment := mkGraphQLComment {
  node_id : string;
  node_author : option Author;
  node_body : string;
  node_createdAt : string;
  node_updatedAt : string
}.

Record GraphQLCommentConnection := mkGraphQLCommentConnection {
  conn_totalCount : Z;
  conn_hasNextPage : bool;
  conn_endCursor : option string;
  nodes : list GraphQLComment
}.

(** [response.data?.repository?.issueOrPullRequest?.comments] has three
    places where the chain can stop. *)
Record GraphQLResponse := mkGraphQLResponse {
  data : option (option (option GraphQLCommentConnection));
  errors : option (list string)
}.

(** The outside world of the GitHub routes: [git remote get-url origin],
    [gh repo view] and [gh api graphql], each run in a directory, and the
    string a value is coerced to when a regular expression tests it. *)
Record Env := mkEnv {
  git_remote_get_url : JS.Value → Result string;
  gh_repo_view : JS.Value → Result GhRepoViewResponse;
  gh_api_graphql : JS.Value → Variables → Result GraphQLResponse;
  to_string : JS.Value → string
}.

Inductive GhCall :=
| GitRemoteGetUrl (cwd : JS.Value)
| GhRepoView (cwd : JS.Value)
| GhApiGraphql (cwd : JS.Value) (variables : Variables).

Definition string_or_null (v : JS.Value) : option string :=
  match v with JS.Str s => Some s | _ => None end.

(** [!o] for a [string | null] *)
Definition blank (o : option string) : bool :=
  match o with Some s => String.eqb s "" | None => true end.

Definition resolveRepoFromGh (env : Env) (projectPath : JS.Value)
  : option (string * string) :=
  match gh_repo_view env projectPath with
  | Ok data =>
      let owner := string_or_null (owner_login data) in
      let repo := string_or_null (name data) in
      match owner, repo with
      | Some owner, Some repo =>
          if String.eqb owner "" || String.eqb repo "" then None
          else Some (owner, repo)
      | _, _ => None
      end
  | Throw _ => None
  end.

Record GitHubRemoteStatus := mkGitHubRemoteStatus {
  hasGitHubRemote : bool;
  remoteUrl : option string;
  owner : option string;
  repo : option string
}.

(** [x || null] for a string *)
Definition or_null (s : string) : option string :=
  if String.eqb s "" then None else Some s.

(** The function runs [git remote get-url origin] and then
    [gh repo view], whatever the first one answered; none of its paths
    throws. *)
Definition checkGitHubRemote (env : Env) (projectPath : JS.Value)
  : GitHubRemoteStatus :=
  let remoteUrl :=
    match git_remote_get_url env projectPath with
    | Ok stdout => JS.trim stdout
    | Throw _ => ""
    end in
  match resolveRepoFromGh env projectPath with
  | Some (ghOwner, ghRepo) =>
      mkGitHubRemoteStatus true
        (match or_null remoteUrl with
         | Some url => Some url
         | None => Some (GITHUB_REPO_URL_PREFIX ++ ghOwner ++ "/" ++ ghRepo)
         end)
        (Some ghOwner) (Some ghRepo)
  | None =>
      if String.eqb remoteUrl "" then mkGitHubRemoteStatus false None None None
      else
        let found :=
          match httpsMatch remoteUrl with
          | Some groups => Some groups
          | None => sshMatch remoteUrl
          end in
        match found with
        | Some (m1, m2) =>
            mkGitHubRemoteStatus true (or_null remoteUrl) (Some m1)
                                 (Some (strip_dot_git m2))
        | None => mkGitHubRemoteStatus false (or_null remoteUrl) None None
        end
  end.

Definition checkGitHubRemote_calls (projectPath : JS.Value) : list GhCall :=
  [GitRemoteGetUrl projectPath; GhRepoView projectPath].

(** [words.filter(Boolean).join(' ')] *)
Fixpoint join_words (words : list string) : string :=
  match words with
  | [] => ""
  | [w] => w
  | w :: rest => w ++ " " ++ join_words rest
  end.

Definition PR_LIST_FIELDS : string :=
  "number,title,state,author,createdAt,labels,url,isDraft,headRefName,reviewDecision,mergeable,body".

(** The command line the pull request listing runs for one state. *)
Definition pr_list_command (remoteStatus : GitHubRemoteStatus) (state limit : string)
  : string :=
  let repoQualifier :=
    if negb (blank (owner remoteStatus)) && negb (blank (repo remoteStatus)) then
      default "" (owner remoteStatus) ++ "/" ++ default "" (repo remoteStatus)
    else "" in
  let repoFlag :=
    if negb (String.eqb repoQualifier "") then "-R " ++ repoQualifier else "" in
  join_words
    (filter (λ w, w ≠ "")
       ["gh pr list"; repoFlag; "--state " ++ state;
        "--json " ++ PR_LIST_FIELDS; "--limit " ++ limit]).

(** [[A-Za-z0-9+/=]] *)
Definition cursor_char (c : ascii) : bool :=
  JSText.between 65 90 c || JSText.between 97 122 c || JSText.between 48 57 c
  || Ascii.eqb c "+" || Ascii.eqb c "/" || Ascii.eqb c "=".

(** [/^[A-Za-z0-9+/=]+$/.test(cursor)] *)
Definition isValidCursor (cursor : string) : bool :=
  negb (String.eqb cursor "") && JSText.all_chars cursor_char cursor.

Record GitHubComment := mkGitHubComment {
  id : string;
  author : Author;
  body_text : string;
  createdAt : string;
  updatedAt : string
}.

Record IssueCommentsResult := mkIssueCommentsResult {
  comments : list GitHubComment;
  totalCount : Z;
  hasNextPage : bool;
  endCursor : option string
}.

Definition COMMENTS_PAGE_SIZE : Z := 50.

(** [node.author?.login || 'ghost'] *)
Definition login_or_ghost (a : option Author) : string :=
  match a with
  | Some a => if String.eqb (login a) "" then "ghost" else login a
  | None => "ghost"
  end.

Definition comment_of (node : GraphQLComment) : GitHubComment :=
  mkGitHubComment (node_id node)
    (mkAuthor (login_or_ghost (node_author node))
              (match node_author node with Some a => avatarUrl a | None => None end))
    (node_body node) (node_createdAt node) (node_updatedAt node).

(** The string a regular expression sees when it tests [v]. *)
Definition tested (env : Env) (v : JS.Value) : string :=
  match v with JS.Str s => s | _ => to_string env v end.

Definition fetchIssueComments (env : Env) (projectPath : JS.Value)
    (owner repo : string) (issueNumber cursor : JS.Value)
  : list GhCall * Result IssueCommentsResult :=
  if JS.truthy cursor && negb (isValidCursor (tested env cursor)) then
    ([], Throw (Error "Invalid cursor format"))
  else
    let variables :=
      mkVariables owner repo issueNumber
        (if JS.truthy cursor then cursor else JS.Null) COMMENTS_PAGE_SIZE in
    ([GhApiGraphql projectPath variables],
     match gh_api_graphql env projectPath variables with
     | Throw e => Throw e
     | Ok response =>
         match errors response with
         | Some (first :: _) => Throw (Error first)
         | _ =>
             match data response with
             | Some (Some (Some commentsData)) =>
                 Ok (mkIssueCommentsResult
                       (map comment_of (nodes commentsData))
                       (conn_totalCount commentsData)
                       (conn_hasNextPage commentsData)
                       (match conn_endCursor commentsData with
                        | Some c => or_null c
                        | None => None
                        end))
             | _ =>
                 Throw (Error
                   "Issue or pull request not found or no comments data available")
             end
         end
     end).

Definition is_number (v : JS.Value) : bool :=
  match v with JS.Num _ => true | _ => false end.

(** What a handler did: the commands it ran, in order, and its answer. *)
Record Served (A : Type) := mkServed {
  ran : list GhCall;
  answer : A
}.
Arguments mkServed {A} _ _.
Arguments ran {A} _.
Arguments answer {A} _.

(** The answers of the issue comments handler. *)
Inductive CommentsAnswer :=
| Refused (response : Response)
| Listed (result : IssueCommentsResult).

Definition createListCommentsHandler (env : Env) (req : Request)
  : Served CommentsAnswer :=
  match body req with
  | None =>
      mkServed [] (Refused (failure 500 (getErrorMessage
        (TypeError "Cannot destructure property of req.body as it is undefined."))))
  | Some b =>
      let projectPath := JS.get b "projectPath" in
      let issueNumber := JS.get b "issueNumber" in
      let cursor := JS.get b "cursor" in
      if negb (JS.truthy projectPath) then
        mkServed [] (Refused (failure 400 "projectPath is required"))
      else if negb (JS.truthy issueNumber) || negb (is_number issueNumber) then
        mkServed [] (Refused (failure 400 "issueNumber is required and must be a number"))
      else
        let remoteStatus := checkGitHubRemote env projectPath in
        if negb (hasGitHubRemote remoteStatus) || blank (owner remoteStatus)
           || blank (repo remoteStatus) then
          mkServed (checkGitHubRemote_calls projectPath)
                   (Refused (failure 400 "Project does not have a GitHub remote"))
        else
          let (spawned, result) :=
            fetchIssueComments env projectPath (default "" (owner remoteStatus))
              (default "" (repo remoteStatus)) issueNumber cursor in
          mkServed (checkGitHubRemote_calls projectPath ++ spawned)%list
            match result with
            | Ok result => Listed result
            | Throw error => Refused (failure 500 (getErrorMessage error))
            end
  end.

End GitHub.


(** A checkout that [gh] knows, with one comment by a deleted account. *)
Definition ghost_comment : GitHub.GraphQLComment :=
  GitHub.mkGraphQLComment "IC_1" None "Fixed in main" "2025-01-01" "2025-01-02".

Definition acme_env : GitHub.Env :=
  GitHub.mkEnv (λ _, Ok "git@github.com:acme/web.git")
    (λ _, Ok (GitHub.mkGhRepoViewResponse (JS.Str "web") (JS.Str "acme")))
    (λ _ _, Ok (GitHub.mkGraphQLResponse
                  (Some (Some (Some (GitHub.mkGraphQLCommentConnection 1 false
                                       (Some "") [ghost_comment]))))
                  None))
    (λ _, "[object Object]").

Definition comments_request (cursor : JS.Value) : Request :=
  mkRequest
    (Some (<["projectPath" := JS.Str "/work/acme"]>
           (<["issueNumber" := JS.Num 7]> (<["cursor" := cursor]> ∅))))
    None.

(** ** Linked pull requests of the issue listing *)

Module LinkedPRs.

Local Open Scope list_scope.
Local Open Scope nat_scope.

Definition LINKED_PRS_BATCH_SIZE : nat := 20.

(** The pull request fields a timeline node may carry; each can be
    missing. *)
Record PullRequestRef := mkPullRequestRef {
  pr_number : option Z;
  pr_title : option string;
  pr_state : option string;
  pr_url : option string
}.

(** A timeline node: [source] of a cross-reference, [subject] of a
    connection.  A node that is [null] reads as one with neither. *)
Record TimelineNode := mkTimelineNode {
  source : option PullRequestRef;
  subject : option PullRequestRef
}.

Record LinkedPullRequest := mkLinkedPullRequest {
  number : Z;
  title : string;
  state : string;
  url : string
}.

(** [repoData[`issue${idx}`]?.timelineItems?.nodes] for each [idx]. *)
Record RepoData := mkRepoData {
  timeline_nodes : nat → option (list TimelineNode)
}.

(** One GraphQL query: where it runs, the repository and the issue
    numbers it asks about. *)
Record Query := mkQuery {
  query_cwd : JS.Value;
  query_owner : string;
  query_repo : string;
  query_batch : list Z
}.

(** How [gh api graphql] ends for one query.  The promise around the
    spawned process resolves with the parsed answer, of which the code
    reads [response?.data?.repository], which can be missing.  It rejects
    when the process exits with another code than zero or prints what is
    not JSON.  It never settles when the process cannot be started or does
    not end: the process has a ['close'] listener only, so a spawn error
    is an exception that nothing catches, and there is no time-out. *)
Inductive GhOutcome :=
| Resolves (repository : option RepoData)
| Rejects (e : Exn)
| NeverSettles.

Definition Gh : Type := Query → GhOutcome.

(** [x || ''] *)
Definition or_empty (o : option string) : string := default ""%string o.

(** The loop over the nodes of one issue, with [seenPRs] and the list it
    pushes to (returned in push order). *)
Fixpoint collect (seenPRs : gset Z) (nodes : list TimelineNode)
  : list LinkedPullRequest :=
  match nodes with
  | [] => []
  | node :: rest =>
      let pr := match source node with Some s => Some s | None => subject node end in
      match pr with
      | Some pr =>
          match pr_number pr with
          | Some n =>
              if negb (n =? 0)%Z && negb (bool_decide (n ∈ seenPRs)) then
                mkLinkedPullRequest n (or_empty (pr_title pr))
                  (JS.toLowerCase (or_empty (pr_state pr))) (or_empty (pr_url pr))
                :: collect ({[ n ]} ∪ seenPRs) rest
              else collect seenPRs rest
          | None => collect seenPRs rest
          end
      | None => collect seenPRs rest
      end
  end.

(** The body of [batch.forEach((issueNum, idx) => ...)] *)
Definition visit (repoData : RepoData) (idx : nat) (issueNum : Z)
    (m : gmap Z (list LinkedPullRequest)) : gmap Z (list LinkedPullRequest) :=
  match timeline_nodes repoData idx with
  | Some nodes =>
      let linkedPRs := collect ∅ nodes in
      if 0 <? length linkedPRs then <[issueNum := linkedPRs]> m else m
  | None => m
  end.

Fixpoint forEach (repoData : RepoData) (idx : nat) (batch : list Z)
    (m : gmap Z (list LinkedPullRequest)) : gmap Z (list LinkedPullRequest) :=
  match batch with
  | [] => m
  | issueNum :: rest => forEach repoData (S idx) rest (visit repoData idx issueNum m)
  end.

(** The queries sent so far and the map; [stuck] when the last query never
    settled: the function then neither goes on nor returns. *)
Record Progress := mkProgress {
  sent : list Query;
  linkedPRsMap : gmap Z (list LinkedPullRequest);
  stuck : bool
}.

Section Fetch.

Variable gh : Gh.
Variables (projectPath : JS.Value) (owner repo : string) (issueNumbers : list Z).

(** One turn of the [for] loop for [batch]: a rejected query is logged and
    leaves the map as it is. *)
Definition fetch_batch (batch : list Z) (p : Progress) : Progress :=
  let query := mkQuery projectPath owner repo batch in
  match gh query with
  | Resolves (Some repoData) =>
      mkProgress (sent p ++ [query]) (forEach repoData 0 batch (linkedPRsMap p)) false
  | Resolves None => mkProgress (sent p ++ [query]) (linkedPRsMap p) false
  | Rejects _ => mkProgress (sent p ++ [query]) (linkedPRsMap p) false
  | NeverSettles => mkProgress (sent p ++ [query]) (linkedPRsMap p) true
  end.

(** [for (let i = ...; i < issueNumbers.length; i += LINKED_PRS_BATCH_SIZE)] *)
Fixpoint loop (fuel i : nat) (p : Progress) : Progress :=
  match fuel with
  | 0 => p
  | S fuel' =>
      if i <? length issueNumbers then
        let batch := take LINKED_PRS_BATCH_SIZE (drop i issueNumbers) in
        let p' := fetch_batch batch p in
        if stuck p' then p' else loop fuel' (i + LINKED_PRS_BATCH_SIZE) p'
      else p
  end.

(** The call returns its map unless it is [stuck]. *)
Definition fetchLinkedPRs : Progress :=
  if length issueNumbers =? 0 then mkProgress [] ∅ false
  else loop (length issueNumbers) 0 (mkProgress [] ∅ false).

End Fetch.

End LinkedPRs.

(** The map holds only what the code would store: under an asked issue
    number, a list that is not empty, of pull requests with distinct
    numbers other than zero and a lower-case state. *)
Definition well_linked (issueNumbers : list Z)
    (m : gmap Z (list LinkedPRs.LinkedPullRequest)) : Prop :=
  ∀ k prs, m !! k = Some prs →
    k ∈ issueNumbers ∧ prs ≠ []
    ∧ NoDup (map LinkedPRs.number prs)
    ∧ Forall (λ pr, LinkedPRs.number pr ≠ 0%Z
                    ∧ JS.toLowerCase (LinkedPRs.state pr) = LinkedPRs.state pr) prs.

(** A [gh] that exits with an error for every query but those of one
    batch. *)
Definition only_batch (batch : list Z) (data : LinkedPRs.RepoData) : LinkedPRs.Gh :=
  λ q, if decide (LinkedPRs.query_batch q = batch) then LinkedPRs.Resolves (Some data)
       else LinkedPRs.Rejects (Error "gh process exited with code 1: ").


Definition pr_42 : LinkedPRs.PullRequestRef :=
  LinkedPRs.mkPullRequestRef (Some 42%Z) (Some "Fix login") (Some "MERGED") None.

Definition twice_linked : LinkedPRs.RepoData :=
  LinkedPRs.mkRepoData
    (λ idx, if (idx =? 0)%nat then
              Some [LinkedPRs.mkTimelineNode (Some pr_42) None;
                    LinkedPRs.mkTimelineNode None (Some pr_42)]
            else None).

(** Twenty-five issue numbers: two batches. *)
Definition numbered_issues : list Z := map Z.of_nat (seq 1 25).

Definition merged_42 : LinkedPRs.LinkedPullRequest :=
  LinkedPRs.mkLinkedPullRequest 42 "Fix login" "merged" "".


(** ** Default workspace directory *)

Module Workspace.

Definition backslash : ascii := ascii_of_nat 92.

(** [p.replace(/\\/g, '/')] *)
Fixpoint to_slashes (p : string) : string :=
  match p with
  | EmptyString => EmptyString
  | String c rest =>
      String (if Ascii.eqb c backslash then GitHub.slash else c) (to_slashes rest)
  end.

(** [parts.join('/')] *)
Fixpoint join_slash (parts : list string) : string :=
  match parts with
  | [] => ""
  | [p] => p
  | p :: rest => p ++ "/" ++ join_slash rest
  end.

(** [s.replace(/\/+/g, '/')]: every run of slashes becomes one slash.
    [after_slash] says that the character before [s] was a slash. *)
Fixpoint squeeze (after_slash : bool) (s : string) : string :=
  match s with
  | EmptyString => EmptyString
  | String c rest =>
      if Ascii.eqb c GitHub.slash then
        if after_slash then squeeze true rest else String c (squeeze true rest)
      else String c (squeeze false rest)
  end.

(** [s.replace(/^\//, '')] *)
Definition drop_leading_slash (s : string) : string :=
  match s with
  | String c rest => if Ascii.eqb c GitHub.slash then rest else s
  | EmptyString => s
  end.

Definition normalized (parts : list string) : string :=
  squeeze false
    (join_slash (map to_slashes (filter (λ p, p ≠ "") parts))).

Definition joinPath (parts : list string) : string :=
  let hasLeadingSlash :=
    match parts with
    | first :: _ => JSText.startsWith first "/"
    | [] => false
    end in
  if hasLeadingSlash then "/" ++ drop_leading_slash (normalized parts)
  else normalized parts.

(** [httpClient.workspace.getConfig()]'s answer *)
Record WorkspaceConfig := mkWorkspaceConfig {
  success : bool;
  configured : bool;
  workspaceDir : option string;
  defaultDir : option string
}.

(** What the function asks of its surroundings: the server's
    configuration, the store's [lastProjectDir] and Electron's documents
    path.  Each answers the same every time it is asked. *)
Record Env := mkEnv {
  getConfig : Result WorkspaceConfig;
  lastProjectDir : option string;
  getPath_documents : Result string
}.

(** [if (x)] for a [string | null | undefined] *)
Definition present (o : option string) : bool :=
  match o with Some s => negb (String.eqb s "") | None => false end.

Definition getDefaultDocumentsPath (env : Env) : option string :=
  match getPath_documents env with
  | Ok documentsPath => Some (joinPath [documentsPath; "Automaker"])
  | Throw _ => None
  end.

(** The steps shared by a failed call and the [catch] block. *)
Definition without_config (env : Env) : option string :=
  if present (lastProjectDir env) then lastProjectDir env
  else getDefaultDocumentsPath env.

Definition getDefaultWorkspaceDirectory (env : Env) : option string :=
  match getConfig env with
  | Ok result =>
      if success result then
        if configured result && present (workspaceDir result) then workspaceDir result
        else if present (lastProjectDir env) then lastProjectDir env
        else if present (getDefaultDocumentsPath env) then getDefaultDocumentsPath env
        else if present (defaultDir result) then defaultDir result
        else without_config env
      else without_config env
  | Throw _ => without_config env
  end.

(** The documented priority order, as a list of candidates; the first one
    present is the default. *)
Definition candidates (env : Env) : list (option string) :=
  let config :=
    match getConfig env with
    | Ok result => if success result then Some result else None
    | Throw _ => None
    end in
  [ match config with
    | Some result => if configured result then workspaceDir result else None
    | None => None
    end;
    lastProjectDir env;
    getDefaultDocumentsPath env;
    match config with Some result => defaultDir result | None => None end ].

Fixpoint first_present (l : list (option string)) : option string :=
  match l with
  | [] => None
  | o :: rest => if present o then o else first_present rest
  end.

End Workspace.

(** A browser without Electron, a server that reports only its data
    directory. *)
Definition data_dir_only : Workspace.Env :=
  Workspace.mkEnv
    (Ok (Workspace.mkWorkspaceConfig true false None (Some "/var/lib/automaker")))
    None
    (Throw (Error "Electron API not available")).

Definition no_backslash (c : ascii) : bool := negb (Ascii.eqb c Workspace.backslash).

(** ** Settings migration: merge, hydrate, send back *)

Module Settings.

Local Open Scope list_scope.

Record ProjectRef := mkProjectRef {
  ref_id : string;
  ref_name : string;
  ref_path : string;
  ref_lastOpened : option string;
  ref_theme : option string
}.

(** The settings fields that the merge looks at; [others] stands for all
    the fields it copies from the server as they are. *)
Record GlobalSettings := mkGlobalSettings {
  projects : option (list ProjectRef);
  aiProfiles : option (list JS.Value);
  trashedProjects : option (list JS.Value);
  mcpServers : option (list JS.Value);
  recentFolders : option (list string);
  projectHistory : option (list string);
  projectHistoryIndex : option Z;
  lastSelectedSessionByProject : option (gmap string string);
  lastProjectDir : option string;
  currentProjectId : option string;
  others : gmap string JS.Value
}.

(** [x && x.length > 0] *)
Definition has_items {A} (x : option (list A)) : bool :=
  match x with Some (_ :: _) => true | _ => false end.

(** [x && Object.keys(x).length > 0] *)
Definition has_keys (x : option (gmap string string)) : bool :=
  match x with Some m => negb (bool_decide (m = ∅)) | None => false end.

(** [(x || []).length] *)
Definition count {A} (x : option (list A)) : nat := length (default [] x).

Definition localStorageHasMoreData (localSettings serverSettings : option GlobalSettings)
  : bool :=
  match localSettings with
  | None => false
  | Some localSettings =>
      match serverSettings with
      | None => true
      | Some serverSettings =>
          if (0 <? count (projects localSettings))%nat
             && (count (projects serverSettings) =? 0)%nat then true
          else if (0 <? count (aiProfiles localSettings))%nat
                  && (count (aiProfiles serverSettings) =? 0)%nat then true
          else false
      end
  end.

(** One array field of the merge: the local value when the server's is
    missing or empty and the local one has items. *)
Definition prefer {A} (server local : option (list A)) : option (list A) :=
  if negb (has_items server) && has_items local then local else server.

Definition mergeSettings (serverSettings : GlobalSettings)
    (localSettings : option GlobalSettings) : GlobalSettings :=
  match localSettings with
  | None => serverSettings
  | Some localSettings =>
      let takeHistory :=
        negb (has_items (projectHistory serverSettings))
        && has_items (projectHistory localSettings) in
      {| projects := prefer (projects serverSettings) (projects localSettings);
         aiProfiles := prefer (aiProfiles serverSettings) (aiProfiles localSettings);
         trashedProjects :=
           prefer (trashedProjects serverSettings) (trashedProjects localSettings);
         mcpServers := prefer (mcpServers serverSettings) (mcpServers localSettings);
         recentFolders := prefer (recentFolders serverSettings) (recentFolders localSettings);
         projectHistory :=
           if takeHistory then projectHistory localSettings
           else projectHistory serverSettings;
         projectHistoryIndex :=
           if takeHistory then Some (default (-1)%Z (projectHistoryIndex localSettings))
           else projectHistoryIndex serverSettings;
         lastSelectedSessionByProject :=
           if negb (has_keys (lastSelectedSessionByProject serverSettings))
              && has_keys (lastSelectedSessionByProject localSettings)
           then lastSelectedSessionByProject localSettings
           else lastSelectedSessionByProject serverSettings;
         lastProjectDir :=
           if negb (Workspace.present (lastProjectDir serverSettings))
              && Workspace.present (lastProjectDir localSettings)
           then lastProjectDir localSettings
           else lastProjectDir serverSettings;
         currentProjectId :=
           if negb (Workspace.present (currentProjectId serverSettings))
              && Workspace.present (currentProjectId localSettings)
           then currentProjectId localSettings
           else currentProjectId serverSettings;
         others := others serverSettings |}
  end.

(** The choice of [checkAndMigrate] once both sources were read: the
    settings to hydrate from and whether to send them to the server; [None]
    when there are no settings anywhere. *)
Definition choose (localSettings serverSettings : option GlobalSettings)
  : option (GlobalSettings * bool) :=
  match serverSettings with
  | Some server =>
      if localStorageHasMoreData localSettings serverSettings then
        Some (mergeSettings server localSettings, true)
      else Some (server, false)
  | None =>
      match localSettings with
      | Some localSettings => Some (localSettings, true)
      | None => None
      end
  end.

Record Project := mkProject {
  id : string;
  name : string;
  path : string;
  lastOpened : option string;
  theme : option string;
  features : list JS.Value
}.

(** The part of the app store that these settings fields are written to. *)
Record Store := mkStore {
  st_projects : list Project;
  st_currentProject : option Project;
  st_aiProfiles : list JS.Value;
  st_mcpServers : list JS.Value;
  st_trashedProjects : list JS.Value;
  st_projectHistory : list string;
  st_projectHistoryIndex : Z;
  st_lastSelectedSessionByProject : gmap string string;
  st_lastProjectDir : string;
  st_recentFolders : list string
}.

Definition project_of (ref : ProjectRef) : Project :=
  mkProject (ref_id ref) (ref_name ref) (ref_path ref) (ref_lastOpened ref)
            (ref_theme ref) [].

(** [projects.find((p) => p.id === wanted)] *)
Fixpoint find_project (wanted : string) (projects : list Project) : option Project :=
  match projects with
  | [] => None
  | p :: rest => if String.eqb (id p) wanted then Some p else find_project wanted rest
  end.

Definition hydrateStoreFromSettings (settings : GlobalSettings) : Store :=
  let projects := map project_of (default [] (projects settings)) in
  let currentProject :=
    if Workspace.present (currentProjectId settings) then
      find_project (default ""%string (currentProjectId settings)) projects
    else None in
  {| st_projects := projects;
     st_currentProject := currentProject;
     st_aiProfiles := default [] (aiProfiles settings);
     st_mcpServers := default [] (mcpServers settings);
     st_trashedProjects := default [] (trashedProjects settings);
     st_projectHistory := default [] (projectHistory settings);
     st_projectHistoryIndex := default (-1)%Z (projectHistoryIndex settings);
     st_lastSelectedSessionByProject :=
       default ∅ (lastSelectedSessionByProject settings);
     st_lastProjectDir := default ""%string (lastProjectDir settings);
     st_recentFolders := default [] (recentFolders settings) |}.

(** The same fields of the update object sent to the server. *)
Record SettingsUpdate := mkSettingsUpdate {
  up_projects : list Project;
  up_currentProjectId : option string;
  up_aiProfiles : list JS.Value;
  up_mcpServers : list JS.Value;
  up_trashedProjects : list JS.Value;
  up_projectHistory : list string;
  up_projectHistoryIndex : Z;
  up_lastSelectedSessionByProject : gmap string string;
  up_lastProjectDir : string;
  up_recentFolders : list string
}.

Definition buildSettingsUpdateFromStore (state : Store) : SettingsUpdate :=
  {| up_projects := st_projects state;
     up_currentProjectId :=
       match st_currentProject state with Some p => Some (id p) | None => None end;
     up_aiProfiles := st_aiProfiles state;
     up_mcpServers := st_mcpServers state;
     up_trashedProjects := st_trashedProjects state;
     up_projectHistory := st_projectHistory state;
     up_projectHistoryIndex := st_projectHistoryIndex state;
     up_lastSelectedSessionByProject := st_lastSelectedSessionByProject state;
     up_lastProjectDir := st_lastProjectDir state;
     up_recentFolders := st_recentFolders state |}.

End Settings.

(** A list field after the merge: it has items when either side had, it
    is the server's when that had items, and the local one when only that
    had. *)
Definition kept_or_filled {A} (server localValue merged : option (list A)) : Prop :=
  Settings.has_items merged = Settings.has_items server || Settings.has_items localValue
  ∧ (Settings.has_items server = true → merged = server)
  ∧ (Settings.has_items server = false → Settings.has_items localValue = true →
     merged = localValue).

Definition no_settings : Settings.GlobalSettings :=
  Settings.mkGlobalSettings None None None None None None None None None None ∅.

(** A server that was set up but has no projects, and a browser that has
    one and remembers a project that is gone. *)
Definition fresh_server : Settings.GlobalSettings :=
  Settings.mkGlobalSettings (Some []) (Some [JS.Str "default-profile"]) None None None
    None None None None None (<["theme" := JS.Str "dark"]> ∅).

Definition old_browser : Settings.GlobalSettings :=
  Settings.mkGlobalSettings
    (Some [Settings.mkProjectRef "p1" "Shop" "/work/shop" None None])
    None None None None None None None (Some "/work") (Some "p0") ∅.

(** * Properties *)

(** ** Strings *)

Lemma length_append (a b : string) :
  String.length (a ++ b) = (String.length a + String.length b)%nat.
Proof. induction a as [|c a IH]; simpl; [reflexivity | now rewrite IH]. Qed.

Lemma substring_all (s : string) : substring 0 (String.length s) s = s.
Proof. induction s as [|c s IH]; simpl; [reflexivity | now rewrite IH]. Qed.

Lemma substring_prefix (a b : string) :
  substring 0 (String.length a) (a ++ b) = a.
Proof.
  induction a as [|c a IH]; simpl.
  - destruct b; reflexivity.
  - now rewrite IH.
Qed.

Lemma substring_suffix (a b : string) :
  substring (String.length a) (String.length b) (a ++ b) = b.
Proof. induction a as [|c a IH]; simpl; [apply substring_all | exact IH]. Qed.

Lemma endsWith_append (a suffix : string) : JS.endsWith (a ++ suffix) suffix = true.
Proof.
  unfold JS.endsWith. rewrite length_append.
  replace (String.length a + String.length suffix - String.length suffix)%nat
    with (String.length a) by lia.
  rewrite substring_suffix, String.eqb_refl, andb_true_r.
  apply Nat.leb_le. lia.
Qed.

Lemma slice_end_append (a suffix : string) :
  JS.slice_end (String.length suffix) (a ++ suffix) = a.
Proof.
  unfold JS.slice_end. rewrite length_append.
  replace (String.length a + String.length suffix - String.length suffix)%nat
    with (String.length a) by lia.
  apply substring_prefix.
Qed.

(** The last character of [a ++ String c ""] is [c]. *)
Lemma endsWith_last (a : string) (c d : ascii) :
  JS.endsWith (a ++ String c "") (String d "") = Ascii.eqb c d.
Proof.
  unfold JS.endsWith. rewrite length_append. simpl String.length.
  replace (String.length a + 1 - 1)%nat with (String.length a) by lia.
  pose proof (substring_suffix a (String c "")) as Hs. simpl in Hs. rewrite Hs.
  replace (1 <=? String.length a + 1)%nat with true
    by (symmetry; apply Nat.leb_le; lia).
  simpl. destruct (Ascii.eqb c d); reflexivity.
Qed.

(** ** The path-parameter middleware *)

Section ValidatePathsFacts.

Import ValidatePaths.

Variable validatePath : string → Result unit.

Lemma validate_scalar_checked (v : JS.Value) :
  validate_scalar validatePath v = validate_strings validatePath (checked_scalar v).
Proof.
  destruct v as [| |b|n|s|l|l]; simpl; try reflexivity.
  destruct (String.eqb s ""); simpl; [reflexivity|].
  destruct (validatePath s) as [[]|e]; reflexivity.
Qed.

Lemma validate_elements_checked (l : list JS.Value) :
  validate_elements validatePath l = validate_strings validatePath (string_elements l).
Proof.
  induction l as [|v l IH]; simpl; [reflexivity|].
  destruct v; simpl; try exact IH.
  now rewrite IH.
Qed.

Lemma validate_strings_app (a b : list string) :
  validate_strings validatePath (a ++ b)
  = (validate_strings validatePath a ;;; validate_strings validatePath b).
Proof.
  induction a as [|v a IH]; simpl; [reflexivity|].
  destruct (validatePath v); simpl; [exact IH | reflexivity].
Qed.

Lemma validate_param_checked (req : Request) (name : string) :
  validate_param validatePath req name
  = validate_strings validatePath (checked_param req name).
Proof.
  unfold validate_param, checked_param.
  destruct (JS.endsWith name "?"); [apply validate_scalar_checked|].
  destruct (JS.endsWith name "[]"); [|apply validate_scalar_checked].
  destruct (getParamValue _ _); try reflexivity.
  apply validate_elements_checked.
Qed.

(** The middleware's loop is [validatePath] run over the checked values. *)
Lemma validate_all_checked (req : Request) (names : list string) :
  validate_all validatePath req names
  = validate_strings validatePath (checked_values req names).
Proof.
  induction names as [|n names IH]; simpl; [reflexivity|].
  unfold checked_values in *. simpl.
  rewrite validate_strings_app, validate_param_checked, IH. reflexivity.
Qed.

Lemma validate_strings_ok (vs : list string) :
  validate_strings validatePath vs = Ok tt ↔ ∀ v, v ∈ vs → validatePath v = Ok tt.
Proof.
  induction vs as [|v vs IH]; simpl.
  - split; [intros _ v Hv; inversion Hv | reflexivity].
  - split.
    + intros H w Hw. destruct (validatePath v) as [[]|e] eqn:Ev; simpl in H; [|discriminate].
      apply elem_of_cons in Hw as [->|Hw]; [exact Ev | now apply IH].
    + intros H. rewrite (H v) by apply list_elem_of_here. simpl.
      apply IH. intros w Hw. apply H. now apply list_elem_of_further.
Qed.

Lemma validate_strings_throw (vs : list string) (e : Exn) :
  validate_strings validatePath vs = Throw e
  ↔ ∃ before v after,
      vs = (before ++ v :: after)%list
      ∧ (∀ u, u ∈ before → validatePath u = Ok tt)
      ∧ validatePath v = Throw e.
Proof.
  induction vs as [|w vs IH]; simpl.
  - split; [discriminate|]. intros (before & v & after & E & _).
    now destruct before.
  - destruct (validatePath w) as [[]|e'] eqn:Ew; simpl.
    + rewrite IH. split.
      * intros (before & v & after & -> & Hb & Hv).
        exists (w :: before), v, after. split; [reflexivity|]. split; [|exact Hv].
        intros u Hu. apply elem_of_cons in Hu as [->|Hu]; [exact Ew | now apply Hb].
      * intros (before & v & after & E & Hb & Hv).
        destruct before as [|w' before]; simpl in E; injection E as -> ->.
        -- congruence.
        -- exists before, v, after. split; [reflexivity|]. split; [|exact Hv].
           intros u Hu. apply Hb. now apply list_elem_of_further.
    + split.
      * intros [= ->]. exists [], w, vs. split; [reflexivity|]. split; [|exact Ew].
        intros u Hu. now apply elem_of_nil in Hu.
      * intros (before & v & after & E & Hb & Hv).
        destruct before as [|w' before]; simpl in E; injection E as -> ->.
        -- congruence.
        -- rewrite (Hb w') in Ew by apply list_elem_of_here. discriminate.
Qed.

End ValidatePathsFacts.

Lemma append_assoc (a b c : string) : (a ++ b) ++ c = a ++ (b ++ c).
Proof.
  induction a as [|x a IH]; [reflexivity|].
  change (String x ((a ++ b) ++ c) = String x (a ++ (b ++ c))).
  now rewrite IH.
Qed.

(** C9 as worded fails for a [validatePath] that throws something else
    than [PathNotAllowedError]: no checked value makes it throw
    [PathNotAllowedError], and yet [next()] is not called; the error is
    thrown on to express. *)
Lemma unexpected_error_is_rethrown :
  (∀ v m, failing_validatePath v ≠ Throw (PathNotAllowedError m))
  ∧ ValidatePaths.checked_values split_request ["projectPath"] = ["/work/app"]
  ∧ ValidatePaths.validatePathParams failing_validatePath ["projectPath"] split_request
    = ValidatePaths.Rethrows (Error "ENOENT: no such file or directory, uv_cwd").
Proof. split; [discriminate|]. split; vm_compute; reflexivity. Qed.

(** C9 (amended): the middleware built by [validatePathParams(names)]
    calls [next()] exactly when [validatePath] returns for every checked
    value.  Otherwise the first checked value on which it throws decides: a
    [PathNotAllowedError] gives the 403 answer with [success: false] and
    the error's message, any other error is thrown on; [next()] is not
    called in either case.  The value of a parameter is the one [req.body]
    has under its name when that is not [undefined], and else the one
    [req.query] has.  The checked values are: for a plain name, the value
    when it is a non-empty string; for [name?], the same, so nothing when
    the parameter is absent; for [name[]], every string element of the
    array.  A value that is not a string is skipped: with such a value for
    a required parameter the middleware calls [next()] whatever
    [validatePath] would say. *)
Theorem validatePathParams_checks (validatePath : string → Result unit)
    (names : list string) (req : Request) :
  let outcome := ValidatePaths.validatePathParams validatePath names req in
  let checked := ValidatePaths.checked_values req names in
  let first_throw (e : Exn) :=
    ∃ before v after,
      checked = (before ++ v :: after)%list
      ∧ (∀ u, u ∈ before → validatePath u = Ok tt)
      ∧ validatePath v = Throw e in
  (outcome = ValidatePaths.CallsNext ↔ ∀ v, v ∈ checked → validatePath v = Ok tt)
  ∧ (∀ m, outcome = ValidatePaths.Responds
                      (mkResponse 403 [("success", JS.Bool false); ("error", JS.Str m)])
          ↔ first_throw (PathNotAllowedError m))
  ∧ (∀ e, outcome = ValidatePaths.Rethrows e
          ↔ first_throw e ∧ ∀ m, e ≠ PathNotAllowedError m)
  ∧ (∀ name b v, body req = Some b → b !! name = Some v → v ≠ JS.Undefined →
       ValidatePaths.getParamValue req name = v)
  ∧ (∀ name,
       (body req = None ∨ ∃ b, body req = Some b ∧ JS.member b name = JS.Undefined) →
       ValidatePaths.getParamValue req name
       = match query req with
         | Some q => JS.member q name
         | None => JS.Undefined
         end)
  ∧ (∀ name, JS.endsWith name "?" = false → JS.endsWith name "[]" = false →
       ValidatePaths.checked_param req name
       = match ValidatePaths.getParamValue req name with
         | JS.Str s => if String.eqb s "" then [] else [s]
         | _ => []
         end)
  ∧ (∀ name, ValidatePaths.checked_param req (name ++ "?")
       = match ValidatePaths.getParamValue req name with
         | JS.Str s => if String.eqb s "" then [] else [s]
         | _ => []
         end)
  ∧ (∀ name, ValidatePaths.checked_param req (name ++ "[]")
       = match ValidatePaths.getParamValue req name with
         | JS.Arr values => ValidatePaths.string_elements values
         | _ => []
         end)
  ∧ (∀ name (anyValidatePath : string → Result unit),
       JS.endsWith name "?" = false → JS.endsWith name "[]" = false →
       JS.is_string (ValidatePaths.getParamValue req name) = false →
       ValidatePaths.validatePathParams anyValidatePath [name] req
       = ValidatePaths.CallsNext).
Proof.
  intros outcome checked first_throw.
  assert (Hout : outcome = match ValidatePaths.validate_strings validatePath checked with
                           | Ok _ => ValidatePaths.CallsNext
                           | Throw (PathNotAllowedError m) =>
                               ValidatePaths.Responds
                                 (mkResponse 403 [("success", JS.Bool false); ("error", JS.Str m)])
                           | Throw e => ValidatePaths.Rethrows e
                           end).
  { unfold outcome, ValidatePaths.validatePathParams.
    now rewrite validate_all_checked. }
  assert (Hthrow : ∀ e, ValidatePaths.validate_strings validatePath checked = Throw e
                        ↔ first_throw e) by (intros e; apply validate_strings_throw).
  split; [|split; [|split; [|split; [|split; [|split; [|split; [|split]]]]]]].
  - rewrite Hout, <- validate_strings_ok.
    destruct (ValidatePaths.validate_strings validatePath checked) as [[]|e].
    + tauto.
    + split; [|discriminate]. destruct e; discriminate.
  - intros m. rewrite <- Hthrow, Hout.
    destruct (ValidatePaths.validate_strings validatePath checked) as [[]|e].
    + split; discriminate.
    + destruct e; split; intros H; try discriminate; congruence.
  - intros e. rewrite <- Hthrow, Hout.
    destruct (ValidatePaths.validate_strings validatePath checked) as [[]|e'].
    + split; [discriminate | intros [H _]; discriminate].
    + destruct e'; split;
        try (intros [= <-]; split; [reflexivity | discriminate]);
        try discriminate;
        try (intros [[= <-] _]; reflexivity).
      intros [[= <-] Hm]. now destruct (Hm message).
  - intros name b v Hb Hv Hdef. unfold ValidatePaths.getParamValue, JS.member.
    rewrite Hb, Hv. destruct v; try reflexivity. congruence.
  - intros name [Hb | (b & Hb & Hu)]; unfold ValidatePaths.getParamValue;
      rewrite Hb; [reflexivity|]. now rewrite Hu.
  - intros name H1 H2. unfold ValidatePaths.checked_param. now rewrite H1, H2.
  - intros name. unfold ValidatePaths.checked_param.
    rewrite endsWith_append.
    change 1%nat with (String.length "?"). now rewrite slice_end_append.
  - intros name. unfold ValidatePaths.checked_param.
    replace (JS.endsWith (name ++ "[]") "?") with false.
    + rewrite endsWith_append.
      change 2%nat with (String.length "[]"). now rewrite slice_end_append.
    + change "[]" with ("[" ++ "]"). rewrite <- append_assoc.
      now rewrite endsWith_last.
  - intros name f H1 H2 Hstr.
    unfold ValidatePaths.validatePathParams. simpl.
    unfold ValidatePaths.validate_param. rewrite H1, H2.
    destruct (ValidatePaths.getParamValue req name); try reflexivity; discriminate.
Qed.

Lemma validatePathParams_checks_witness :
  ValidatePaths.validatePathParams sample_validatePath
    ["projectPath"; "worktreePath?"] split_request
  = ValidatePaths.Responds
      (mkResponse 403 [("success", JS.Bool false); ("error", JS.Str "/etc")]).
Proof.
  apply (proj1 (proj2 (validatePathParams_checks sample_validatePath
                         ["projectPath"; "worktreePath?"] split_request)) "/etc").
  exists ["/work/app"], "/etc", []. split; [vm_compute; reflexivity|]. split.
  - intros u Hu. apply list_elem_of_singleton in Hu as ->. reflexivity.
  - reflexivity.
Defined.

(** ** The worktree diffs handler *)

Section WorktreeDiffsFacts.

Import WorktreeDiffs.

Variable env : Env.

(** A request that carries both fields as non-empty strings gets past the
    guard and [path.join]. *)
Lemma handler_body_strings (req : Request) (b : gmap string JS.Value)
    (p f : string) :
  body req = Some b →
  JS.get b "projectPath" = JS.Str p → JS.get b "featureId" = JS.Str f →
  p ≠ "" → f ≠ "" →
  handler_body env req
  = attempt
      (do _ <- call (FsAccess (worktreePath env p f))
                    (fs_access env (worktreePath env p f));
       diffs_of env (worktreePath env p f))
      (λ _, attempt (diffs_of env (mainWorktreePath p))
                    (λ _, ret (json empty_payload))).
Proof.
  intros Hb Hp Hf Hpne Hfne.
  unfold handler_body, destructure_body, ebind at 1, ret at 1. rewrite Hb.
  rewrite Hp, Hf. simpl.
  apply String.eqb_neq in Hpne, Hfne. now rewrite Hpne, Hfne.
Qed.

End WorktreeDiffsFacts.

(** C4: a feature's worktree is looked for at one path, computed from the
    project root and the feature id alone as
    [path.join(projectPath, '.automaker', 'worktrees', featureId)]; the main
    worktree is the project root itself.  Whatever the state of the disk,
    the handler probes that path first, and every diff it computes is
    computed there or at the project root. *)
Theorem worktree_path_deterministic (env : WorktreeDiffs.Env) (req : Request)
    (b : gmap string JS.Value) (p f : string) :
  body req = Some b →
  JS.get b "projectPath" = JS.Str p → JS.get b "featureId" = JS.Str f →
  p ≠ "" → f ≠ "" →
  let wp := WorktreeDiffs.path_join env [p; ".automaker"; "worktrees"; f] in
  WorktreeDiffs.worktreePath env p f = wp
  ∧ WorktreeDiffs.mainWorktreePath p = p
  ∧ ∃ rest, calls (WorktreeDiffs.createDiffsHandler env req) = FsAccess wp :: rest
      ∧ ∀ c, c ∈ rest →
          c = GetGitRepositoryDiffs wp
          ∨ c = GetGitRepositoryDiffs (WorktreeDiffs.mainWorktreePath p).
Proof.
  intros Hb Hp Hf Hpne Hfne wp.
  split; [reflexivity|]. split; [reflexivity|].
  unfold WorktreeDiffs.createDiffsHandler.
  rewrite (handler_body_strings env req b p f Hb Hp Hf Hpne Hfne).
  unfold handle, attempt, ebind, call, WorktreeDiffs.diffs_of, ebind, call, ret.
  fold wp. change (WorktreeDiffs.worktreePath env p f) with wp.
  simpl.
  destruct (WorktreeDiffs.fs_access env wp) as [[]|e1]; simpl.
  - destruct (WorktreeDiffs.getGitRepositoryDiffs env wp) as [d|e2]; simpl.
    + exists [GetGitRepositoryDiffs wp]. split; [reflexivity|].
      intros c Hc. apply list_elem_of_singleton in Hc. now left.
    + destruct (WorktreeDiffs.getGitRepositoryDiffs env (WorktreeDiffs.mainWorktreePath p));
        simpl; (eexists; split; [reflexivity|]);
        intros c Hc; apply elem_of_cons in Hc as [->|Hc]; auto;
        apply list_elem_of_singleton in Hc; auto.
  - destruct (WorktreeDiffs.getGitRepositoryDiffs env (WorktreeDiffs.mainWorktreePath p));
      simpl; (eexists; split; [reflexivity|]);
      intros c Hc; apply list_elem_of_singleton in Hc; auto.
Qed.

Lemma worktree_path_deterministic_witness :
  calls (WorktreeDiffs.createDiffsHandler broken_git diffs_request)
  = [FsAccess "/work/app/.automaker/worktrees/feature-1";
     GetGitRepositoryDiffs "/work/app"].
Proof.
  destruct (worktree_path_deterministic broken_git diffs_request
              (<["projectPath" := JS.Str "/work/app"]>
                 (<["featureId" := JS.Str "feature-1"]> ∅))
              "/work/app" "feature-1")
    as (_ & _ & rest & Hcalls & _);
    [reflexivity | vm_compute; reflexivity | vm_compute; reflexivity
    | discriminate | discriminate |].
  vm_compute. reflexivity.
Defined.

(** C8: for a POST /diffs request that carries both [projectPath] and
    [featureId], no git-level error is reported as a failure.  The answer is
    HTTP 200 with [success: true]: the worktree's diffs when the worktree is
    accessible and its diff succeeds; otherwise the diffs of the main project
    path; and when that fallback throws too, an empty diff, no files and
    [hasChanges: false].  A 500 answer is only given when the failure
    happened before either diff attempt: no call was made at all. *)
Theorem diffs_handler_swallows_git_errors (env : WorktreeDiffs.Env) (req : Request) :
  let handled := WorktreeDiffs.createDiffsHandler env req in
  (∀ b p f,
     body req = Some b →
     JS.get b "projectPath" = JS.Str p → JS.get b "featureId" = JS.Str f →
     p ≠ "" → f ≠ "" →
     let wp := WorktreeDiffs.worktreePath env p f in
     let worktree := (WorktreeDiffs.fs_access env wp ;;;
                      WorktreeDiffs.getGitRepositoryDiffs env wp) in
     let fallback := WorktreeDiffs.getGitRepositoryDiffs env p in
     status (response handled) = 200%Z
     ∧ (∀ d, worktree = Ok d →
          payload (response handled) = WorktreeDiffs.diff_payload d)
     ∧ (∀ e, WorktreeDiffs.fs_access env wp = Throw e →
          GetGitRepositoryDiffs p ∈ calls handled)
     ∧ (∀ e d, worktree = Throw e → fallback = Ok d →
          payload (response handled) = WorktreeDiffs.diff_payload d)
     ∧ (∀ e e', worktree = Throw e → fallback = Throw e' →
          payload (response handled)
          = [("success", JS.Bool true); ("diff", JS.Str "");
             ("files", JS.Arr []); ("hasChanges", JS.Bool false)]))
  ∧ (status (response handled) = 500%Z → calls handled = []).
Proof.
  intros handled. split.
  - intros b p f Hb Hp Hf Hpne Hfne wp worktree fallback.
    unfold handled, WorktreeDiffs.createDiffsHandler.
    rewrite (handler_body_strings env req b p f Hb Hp Hf Hpne Hfne).
    unfold worktree, fallback.
    unfold handle, attempt, ebind, call, WorktreeDiffs.diffs_of, ebind, call, ret.
    change (WorktreeDiffs.worktreePath env p f) with wp.
    unfold WorktreeDiffs.mainWorktreePath. simpl.
    destruct (WorktreeDiffs.fs_access env wp) as [[]|e1]; simpl;
      [destruct (WorktreeDiffs.getGitRepositoryDiffs env wp) as [d1|e2]; simpl|];
      try (destruct (WorktreeDiffs.getGitRepositoryDiffs env p) as [d2|e3]; simpl);
      repeat split; intros; simplify_eq; try reflexivity;
      repeat (first [apply list_elem_of_here | apply list_elem_of_further]).
  - unfold handled, WorktreeDiffs.createDiffsHandler, handle,
      WorktreeDiffs.handler_body, destructure_body.
    destruct (body req) as [b|]; [|reflexivity].
    unfold WorktreeDiffs.diffs_of, attempt, ebind, call, ret, raise.
    destruct (negb (JS.truthy (JS.get b "projectPath"))
              || negb (JS.truthy (JS.get b "featureId"))); [discriminate|].
    destruct (JS.get b "projectPath") as [| | | |p| |]; try reflexivity.
    destruct (JS.get b "featureId") as [| | | |f| |]; try reflexivity.
    destruct (WorktreeDiffs.fs_access env (WorktreeDiffs.worktreePath env p f))
      as [[]|e1]; simpl;
      [destruct (WorktreeDiffs.getGitRepositoryDiffs env (WorktreeDiffs.worktreePath env p f));
       simpl|];
      try destruct (WorktreeDiffs.getGitRepositoryDiffs env (WorktreeDiffs.mainWorktreePath p));
      simpl; discriminate.
Qed.

Lemma diffs_handler_swallows_git_errors_witness :
  response (WorktreeDiffs.createDiffsHandler broken_git diffs_request)
  = mkResponse 200 [("success", JS.Bool true); ("diff", JS.Str "");
                    ("files", JS.Arr []); ("hasChanges", JS.Bool false)].
Proof.
  destruct (diffs_handler_swallows_git_errors broken_git diffs_request) as [H _].
  destruct (H (<["projectPath" := JS.Str "/work/app"]>
                 (<["featureId" := JS.Str "feature-1"]> ∅))
              "/work/app" "feature-1")
    as (Hstatus & _ & _ & _ & Hempty);
    [reflexivity | vm_compute; reflexivity | vm_compute; reflexivity
    | discriminate | discriminate |].
  specialize (Hempty (Error "ENOENT: no such file or directory")
                     (Error "fatal: not a git repository") eq_refl eq_refl).
  destruct (response (WorktreeDiffs.createDiffsHandler broken_git diffs_request))
    as [st pl].
  simpl in Hstatus, Hempty. now rewrite Hstatus, Hempty.
Defined.

(** ** The one-shot handlers *)

Lemma enhance_with_calls (env : Enhance.Env) (mode : Enhance.EnhancementMode)
    (t : string) (model thinkingLevel : JS.Value) (log : list Call) (o : SimpleQueryOptions) :
  SimpleQuery o ∈ (Enhance.enhance_with env mode t model thinkingLevel log).1 →
  SimpleQuery o ∈ log ∨ (allowedTools o = Some [] ∧ readOnly o = Some true).
Proof.
  unfold Enhance.enhance_with, ebind, call, ret.
  destruct (Enhance.getPromptCustomization env) as [prompts|e]; simpl; [|in_log].
  match goal with
  | |- context [simpleQuery ?b ?q] => destruct (simpleQuery b q) as [r|e]
  end; simpl; [|in_log].
  match goal with
  | |- context [if ?c then _ else _] => destruct c
  end; simpl; in_log.
Qed.

Lemma length_eqb_zero (s : string) :
  (String.length s =? 0)%nat = String.eqb s "".
Proof. destruct s; reflexivity. Qed.

Lemma trim_start_nonempty (s : string) : JS.trim_start s ≠ "" → s ≠ "".
Proof. intros H ->. now apply H. Qed.

Lemma trim_nonempty (s : string) : JS.trim s ≠ "" → s ≠ "".
Proof.
  intros H. apply trim_start_nonempty. intros E. apply H.
  unfold JS.trim. now rewrite E.
Qed.

(** A title request with a description that is not blank reaches the
    provider, once. *)
Lemma title_handler_calls (env : QueryEnv) (req : Request)
    (b : gmap string JS.Value) (d : string) :
  body req = Some b → JS.get b "description" = JS.Str d → JS.trim d ≠ "" →
  calls (GenerateTitle.createGenerateTitleHandler env req)
  = [SimpleQuery (GenerateTitle.query_options env (JS.trim d))].
Proof.
  intros Hb Hd Ht.
  unfold GenerateTitle.createGenerateTitleHandler, handle,
    GenerateTitle.handler_body, destructure_body.
  rewrite Hb. unfold ebind, ret, call. rewrite Hd.
  pose proof (trim_nonempty d Ht) as Hne.
  apply String.eqb_neq in Hne, Ht.
  unfold JS.truthy. rewrite Hne, length_eqb_zero, Ht. simpl.
  destruct (simpleQuery env _) as [r|e]; simpl; [|reflexivity].
  match goal with
  | |- context [if ?c then _ else _] => destruct c
  end; reflexivity.
Qed.

(** C5: every [simpleQuery] call of the enhance handler passes an empty
    [allowedTools] list and [readOnly: true]; every [simpleQuery] call of
    the title handler passes an empty [allowedTools] list too, but leaves
    [readOnly] out of the options, and the title request below does reach
    the provider call. *)
Theorem one_shot_query_options (env : Enhance.Env) :
  (∀ req o, SimpleQuery o ∈ calls (Enhance.createEnhanceHandler env req) →
     allowedTools o = Some [] ∧ readOnly o = Some true)
  ∧ (∀ req o,
       SimpleQuery o
         ∈ calls (GenerateTitle.createGenerateTitleHandler (Enhance.base env) req) →
       allowedTools o = Some [] ∧ readOnly o = None)
  ∧ (∃ o, calls (GenerateTitle.createGenerateTitleHandler (Enhance.base env) title_request)
          = [SimpleQuery o]
          ∧ allowedTools o = Some [] ∧ readOnly o = None).
Proof.
  split; [|split].
  - intros req o.
    unfold Enhance.createEnhanceHandler, handle, Enhance.handler_body, destructure_body.
    destruct (body req) as [b|]; [|intros H; inversion H].
    unfold ebind at 1, ret at 1.
    assert (Hnone : ∀ r : Response, SimpleQuery o ∈ calls
              (let (log, r0) := ret r [] in
               match r0 with
               | Ok r1 => mkHandled log r1
               | Throw e => mkHandled log (failure 500 (message_or "Unknown error occurred" e))
               end) → allowedTools o = Some [] ∧ readOnly o = Some true).
    { intros r H. inversion H. }
    destruct (JS.get b "originalText") as [| | | |t| |]; try apply Hnone.
    destruct (negb (JS.truthy (JS.Str t))); [apply Hnone|].
    destruct (JS.get b "enhancementMode") as [| | | |m| |]; try apply Hnone.
    destruct (negb (JS.truthy (JS.Str m))); [apply Hnone|].
    destruct (String.length (JS.trim t) =? 0)%nat; [apply Hnone|].
    pose proof (enhance_with_calls env (Enhance.validMode m) (JS.trim t)
                  (JS.get b "model") (JS.get b "thinkingLevel") [] o) as Hcalls.
    destruct (Enhance.enhance_with env (Enhance.validMode m) (JS.trim t)
                (JS.get b "model") (JS.get b "thinkingLevel") []) as [log [r|e]];
      simpl in *; intros H; destruct (Hcalls H) as [Hin|?]; auto; inversion Hin.
  - intros req o.
    unfold GenerateTitle.createGenerateTitleHandler, handle,
      GenerateTitle.handler_body, destructure_body.
    destruct (body req) as [b|]; [|intros H; inversion H].
    unfold ebind, ret, call.
    destruct (JS.get b "description") as [| | | |d| |];
      try (intros H; inversion H; fail).
    destruct (negb (JS.truthy (JS.Str d))); [intros H; inversion H|].
    destruct (String.length (JS.trim d) =? 0)%nat; [intros H; inversion H|].
    simpl.
    destruct (simpleQuery (Enhance.base env) _) as [r|e]; simpl.
    + match goal with
      | |- context [if ?c then _ else _] => destruct c
      end; simpl; in_log.
    + in_log.
  - exists (GenerateTitle.query_options (Enhance.base env)
              (JS.trim "Let users switch to a dark theme")).
    split; [|split; reflexivity].
    apply (title_handler_calls (Enhance.base env) title_request
               (<["description" := JS.Str "Let users switch to a dark theme"]> ∅)
               "Let users switch to a dark theme");
        [reflexivity | vm_compute; reflexivity | vm_compute; discriminate].
Qed.

Lemma mode_of_string_name (s : string) (mode : Enhance.EnhancementMode) :
  Enhance.mode_of_string s = Some mode → Enhance.mode_name mode = s.
Proof.
  unfold Enhance.mode_of_string, Enhance.all_modes, List.find.
  repeat match goal with
         | |- context [String.eqb ?a s] =>
             destruct (String.eqb_spec a s) as [<-|_];
             [intros [= <-]; reflexivity|]
         end.
  discriminate.
Qed.

Lemma mode_of_string_known (mode : Enhance.EnhancementMode) :
  Enhance.mode_of_string (Enhance.mode_name mode) = Some mode.
Proof. destruct mode; reflexivity. Qed.

Lemma get_insert (b : gmap string JS.Value) (k k' : string) (v : JS.Value) :
  JS.get (<[k := v]> b) k' = if decide (k = k') then v else JS.get b k'.
Proof.
  unfold JS.get. rewrite lookup_insert. now destruct (decide (k = k')).
Qed.

(** An enhance request whose two required fields pass the guards runs the
    rest of the handler under the normalised mode. *)
Lemma enhance_handler_body (env : Enhance.Env) (req : Request)
    (b : gmap string JS.Value) (t m : string) :
  body req = Some b →
  JS.get b "originalText" = JS.Str t → JS.trim t ≠ "" →
  JS.get b "enhancementMode" = JS.Str m → m ≠ "" →
  Enhance.handler_body env req
  = Enhance.enhance_with env (Enhance.validMode m) (JS.trim t)
      (JS.get b "model") (JS.get b "thinkingLevel").
Proof.
  intros Hb Ht Htrim Hm Hmne.
  unfold Enhance.handler_body, destructure_body. rewrite Hb.
  unfold ebind at 1, ret at 1. rewrite Ht, Hm.
  pose proof (trim_nonempty t Htrim) as Htne.
  apply String.eqb_neq in Htne, Hmne, Htrim.
  unfold JS.truthy. rewrite Htne, Hmne, length_eqb_zero, Htrim. reflexivity.
Qed.

Lemma enhance_with_status (env : Enhance.Env) (mode : Enhance.EnhancementMode)
    (t : string) (model thinkingLevel : JS.Value) :
  status (response
    (handle (Enhance.enhance_with env mode t model thinkingLevel)
            (λ error, failure 500 (message_or "Unknown error occurred" error))))
  ≠ 400%Z.
Proof.
  unfold handle, Enhance.enhance_with, ebind, call, ret.
  destruct (Enhance.getPromptCustomization env) as [prompts|e]; simpl; [|discriminate].
  match goal with
  | |- context [simpleQuery ?b ?q] => destruct (simpleQuery b q) as [r|e]
  end; simpl; [|discriminate].
  match goal with
  | |- context [if ?c then _ else _] => destruct c
  end; simpl; discriminate.
Qed.

(** [trim] removes white space on both sides, outside ASCII too, and
    nothing else. *)
Lemma trim_unicode_blanks :
  JS.trim unicode_blanks = ""
  ∧ JS.trim (unicode_blanks ++ "Add a  login page" ++ unicode_blanks)
    = "Add a  login page".
Proof. split; vm_compute; reflexivity. Qed.

(** C10 as worded does not hold on an empty mode string, nor on
    a text of blanks only, in ASCII or not: these requests are answered
    400. *)
Lemma enhance_rejects_empty_mode :
  JS.is_string (JS.Str "") = true
  ∧ response (Enhance.createEnhanceHandler sample_enhance_env
                (enhance_request "Add a login page" ""))
    = failure 400 "enhancementMode is required and must be a string"
  ∧ response (Enhance.createEnhanceHandler sample_enhance_env
                (enhance_request "   " "improve"))
    = failure 400 "originalText cannot be empty"
  ∧ response (Enhance.createEnhanceHandler sample_enhance_env
                (enhance_request unicode_blanks "improve"))
    = failure 400 "originalText cannot be empty".
Proof. split; [reflexivity|]. repeat split; vm_compute; reflexivity. Qed.

(** C10 (amended): for every enhance request whose [originalText] is a
    string that is not blank and whose [enhancementMode] is a non-empty
    string, the handler lowercases the mode and runs under it when it is one
    of improve, technical, simplify, acceptance and ux-reviewer, and under
    improve otherwise.  The answer is never a 400, and for an unknown mode
    the handler does exactly what it does for the same request with mode
    'improve'. *)
Theorem enhance_mode_normalised (env : Enhance.Env) (req : Request)
    (b : gmap string JS.Value) (t m : string) :
  body req = Some b →
  JS.get b "originalText" = JS.Str t → JS.trim t ≠ "" →
  JS.get b "enhancementMode" = JS.Str m → m ≠ "" →
  let lowered := JS.toLowerCase m in
  let known := ["improve"; "technical"; "simplify"; "acceptance"; "ux-reviewer"] in
  ∃ mode,
    (lowered ∈ known → Enhance.mode_name mode = lowered)
    ∧ (lowered ∉ known → mode = Enhance.improve)
    ∧ Enhance.createEnhanceHandler env req
      = handle (Enhance.enhance_with env mode (JS.trim t)
                  (JS.get b "model") (JS.get b "thinkingLevel"))
               (λ error, failure 500 (message_or "Unknown error occurred" error))
    ∧ status (response (Enhance.createEnhanceHandler env req)) ≠ 400%Z
    ∧ (lowered ∉ known →
         Enhance.createEnhanceHandler env req
         = Enhance.createEnhanceHandler env
             (mkRequest (Some (<["enhancementMode" := JS.Str "improve"]> b))
                        (query req))).
Proof.
  intros Hb Ht Htrim Hm Hmne lowered known.
  assert (Hknown : lowered ∈ known → Enhance.mode_name (Enhance.validMode m) = lowered).
  { intros Hin. unfold Enhance.validMode, Enhance.isValidEnhancementMode. fold lowered.
    assert (∃ mode, lowered = Enhance.mode_name mode) as [mode ->].
    { unfold known in Hin. rewrite !elem_of_cons, elem_of_nil in Hin.
      destruct Hin as [E|[E|[E|[E|[E|[]]]]]];
        [exists Enhance.improve | exists Enhance.technical | exists Enhance.simplify
        | exists Enhance.acceptance | exists Enhance.ux_reviewer]; exact E. }
    now rewrite mode_of_string_known. }
  assert (Hunknown : lowered ∉ known → Enhance.validMode m = Enhance.improve).
  { intros Hnot. unfold Enhance.validMode, Enhance.isValidEnhancementMode. fold lowered.
    destruct (Enhance.mode_of_string lowered) as [mode|] eqn:E; [|reflexivity].
    exfalso. apply Hnot. apply mode_of_string_name in E. rewrite <- E.
    unfold known. destruct mode; simpl; rewrite !elem_of_cons; auto 10. }
  assert (Hrun : Enhance.createEnhanceHandler env req
                 = handle (Enhance.enhance_with env (Enhance.validMode m) (JS.trim t)
                             (JS.get b "model") (JS.get b "thinkingLevel"))
                          (λ error, failure 500 (message_or "Unknown error occurred" error))).
  { unfold Enhance.createEnhanceHandler.
    now rewrite (enhance_handler_body env req b t m Hb Ht Htrim Hm Hmne). }
  exists (Enhance.validMode m).
  split; [exact Hknown|]. split; [exact Hunknown|]. split; [exact Hrun|].
  split; [rewrite Hrun; apply enhance_with_status|].
  intros Hnot. rewrite Hrun. unfold Enhance.createEnhanceHandler.
  rewrite (enhance_handler_body env _ (<["enhancementMode" := JS.Str "improve"]> b)
             t "improve"); try reflexivity; try discriminate; try assumption.
  - rewrite !get_insert. simpl. now rewrite (Hunknown Hnot).
  - rewrite get_insert. simpl. exact Ht.
  - now rewrite get_insert.
Qed.

Lemma enhance_mode_normalised_witness :
  Enhance.createEnhanceHandler sample_enhance_env
    (enhance_request "Add a login page" "Fancy")
  = Enhance.createEnhanceHandler sample_enhance_env
      (enhance_request "Add a login page" "improve").
Proof.
  destruct (enhance_mode_normalised sample_enhance_env
              (enhance_request "Add a login page" "Fancy")
              (<["originalText" := JS.Str "Add a login page"]>
                 (<["enhancementMode" := JS.Str "Fancy"]> ∅))
              "Add a login page" "Fancy")
    as (mode & _ & _ & _ & _ & Hsame);
    [reflexivity | vm_compute; reflexivity | vm_compute; discriminate
    | vm_compute; reflexivity | discriminate |].
  rewrite Hsame.
  - vm_compute. reflexivity.
  - rewrite !elem_of_cons, elem_of_nil.
    intros [E|[E|[E|[E|[E|[]]]]]]; vm_compute in E; discriminate E.
Defined.

(** ** The scheduler *)

Section EngineFacts.

Import Engine.

Local Open Scope list_scope.
Local Open Scope nat_scope.

Implicit Types (s : Scheduler) (p q : string) (h k : nat) (x : Session)
  (l : list Session) (st : SessionState) (e : Event).

(** *** Counting *)



(** Changing one element changes the count by that element's share. *)
Lemma count_alter {A} (f : A → bool) (g : A → A) (a : list A) (i : nat) (y : A) :
  a !! i = Some y →
  count f (alter g i a) + (if f y then 1 else 0)
  = count f a + (if f (g y) then 1 else 0).
Proof.
  revert i. induction a as [|z a IH]; intros [|i] Hi; simpl in *; try discriminate.
  - injection Hi as ->. destruct (f y), (f (g y)); lia.
  - specialize (IH i Hi). unfold alter in IH.
    destruct (f z), (f y), (f (g y)); lia.
Qed.



(** *** The queue as the Queued sessions in submission order *)

Lemma queued_from_app p i (a b : list Session) :
  queued_from p i (a ++ b) = queued_from p i a ++ queued_from p (i + length a) b.
Proof.
  revert i. induction a as [|y a IH]; intros i; simpl.
  - now rewrite Nat.add_0_r.
  - rewrite IH, <- app_assoc.
    now replace (S i + length a) with (i + S (length a)) by lia.
Qed.

Lemma queued_from_ge p i l k : k ∈ queued_from p i l → i ≤ k.
Proof.
  revert i. induction l as [|y l IH]; intros i Hk; simpl in Hk.
  - inversion Hk.
  - apply elem_of_app in Hk as [Hk|Hk].
    + destruct (in_project p y && is_queued (state y)); [|inversion Hk].
      apply list_elem_of_singleton in Hk. lia.
    + specialize (IH _ Hk). lia.
Qed.

(** Membership: the handles listed are those of the Queued sessions of [p]. *)
Lemma queued_from_elem p i l k :
  i + k ∈ queued_from p i l ↔ ∃ x, l !! k = Some x ∧ queued_in p x = true.
Proof.
  revert i k. induction l as [|y l IH]; intros i k; simpl.
  - split; [intros H; inversion H | intros (x & H & _); discriminate].
  - rewrite elem_of_app. destruct k as [|k]; simpl.
    + split.
      * intros [H|H].
        -- fold (queued_in p y) in H. destruct (queued_in p y) eqn:E; [|inversion H].
           now exists y.
        -- apply queued_from_ge in H. lia.
      * intros (x & [= <-] & Hq). left. fold (queued_in p y). rewrite Hq.
        rewrite Nat.add_0_r. apply list_elem_of_here.
    + replace (i + S k) with (S i + k) by lia. rewrite <- IH. split.
      * intros [H|H]; [|exact H].
        destruct (in_project p y && is_queued (state y)); [|inversion H].
        apply list_elem_of_singleton in H. lia.
      * now right.
Qed.

Lemma queued_from_NoDup p i l : NoDup (queued_from p i l).
Proof.
  revert i. induction l as [|y l IH]; intros i; simpl; [constructor|].
  destruct (in_project p y && is_queued (state y)); simpl; [|apply IH].
  constructor; [|apply IH]. intros H. apply queued_from_ge in H. lia.
Qed.

Lemma filter_neq_absent (a : list nat) h :
  h ∉ a → List.filter (λ k, negb (k =? h)) a = a.
Proof.
  induction a as [|y a IH]; intros Hh; simpl; [reflexivity|].
  apply not_elem_of_cons in Hh as [Hne Hh].
  destruct (Nat.eqb_spec y h); [congruence|]. simpl. now rewrite IH.
Qed.

(** A session that leaves [Queued], or never was in it, is dropped from the
    list; all others keep their place. *)
Lemma queued_from_alter p i l k g :
  (∀ x, queued_in p (g x) = false) →
  queued_from p i (alter g k l)
  = List.filter (λ j, negb (j =? i + k)) (queued_from p i l).
Proof.
  intros Hg. revert i k. induction l as [|y l IH]; intros i k; simpl; [reflexivity|].
  rewrite List.filter_app. destruct k as [|k]; simpl.
  - fold (queued_in p (g y)). rewrite Hg. simpl.
    fold (queued_in p y). rewrite Nat.add_0_r.
    destruct (queued_in p y); simpl; [rewrite Nat.eqb_refl; simpl|];
      symmetry; apply filter_neq_absent; intros H; apply queued_from_ge in H; lia.
  - unfold alter in IH. rewrite IH.
    replace (S i + k) with (i + S k) by lia. f_equal.
    destruct (in_project p y && is_queued (state y)); simpl; [|reflexivity].
    destruct (Nat.eqb_spec i (i + S k)); [lia | reflexivity].
Qed.

(** A change that keeps project and queued-ness keeps the list. *)
Lemma queued_from_alter_same p i l k g :
  (∀ x, l !! k = Some x → queued_in p (g x) = queued_in p x) →
  queued_from p i (alter g k l) = queued_from p i l.
Proof.
  revert i k. induction l as [|y l IH]; intros i k Hg; simpl; [reflexivity|].
  destruct k as [|k]; simpl.
  - fold (queued_in p (g y)) (queued_in p y). now rewrite (Hg y eq_refl).
  - f_equal. unfold alter in IH. apply IH. intros x Hx. now apply Hg.
Qed.

End EngineFacts.

Section SchedulerInvariant.

Import Engine.

Local Open Scope list_scope.
Local Open Scope nat_scope.

Implicit Types (s : Scheduler) (p q : string) (h k : nat) (x : Session)
  (l : list Session) (st : SessionState) (e : Event).

Lemma pool_set_pending s l out p q (pend : list nat) :
  pool (mkScheduler l (set_pending p pend s) out) q
  = if decide (p = q) then mkPool (maxConcurrency (pool s p)) pend else pool s q.
Proof.
  unfold pool, set_pending. simpl. rewrite lookup_insert.
  destruct (decide (p = q)); reflexivity.
Qed.

Lemma pool_same_pools s l out q :
  pool (mkScheduler l (pools s) out) q = pool s q.
Proof. reflexivity. Qed.

Lemma in_project_with_state p st x : in_project p (with_state st x) = in_project p x.
Proof. reflexivity. Qed.

Lemma queued_head_session p s h rest :
  queue_consistent s → pending (pool s p) = h :: rest →
  ∃ x, sessions s !! h = Some x ∧ projectId x = p ∧ state x = Queued.
Proof.
  intros Hq Hp. rewrite Hq in Hp.
  assert (Hin : 0 + h ∈ queued_from p 0 (sessions s)).
  { unfold queued_handles in Hp. rewrite Hp. apply list_elem_of_here. }
  apply queued_from_elem in Hin as (x & Hx & Hqx).
  exists x. split; [exact Hx|].
  apply andb_true_iff in Hqx as [Hproj Hst].
  split; [now apply String.eqb_eq|]. now destruct (state x).
Qed.

Lemma not_queued_absent p s h x :
  sessions s !! h = Some x → is_queued (state x) = false →
  h ∉ queued_handles p s.
Proof.
  intros Hx Hst Hin. change h with (0 + h) in Hin.
  apply queued_from_elem in Hin as (y & Hy & Hq).
  rewrite Hx in Hy. injection Hy as <-.
  apply andb_true_iff in Hq as [_ Hq]. congruence.
Qed.

(** *** Each operation keeps the queues consistent *)

Lemma submit_consistent p spec s :
  queue_consistent s → queue_consistent (submit p spec s).1.
Proof.
  intros Hq q. unfold submit.
  destruct (active_count p s <? maxConcurrency (pool s p)); simpl.
  - rewrite pool_same_pools. unfold queued_handles. simpl.
    rewrite queued_from_app. simpl. rewrite andb_false_r, app_nil_r. apply Hq.
  - rewrite pool_set_pending. unfold queued_handles. simpl.
    rewrite queued_from_app. simpl. rewrite andb_true_r, app_nil_r.
    unfold in_project. simpl.
    destruct (decide (p = q)) as [<-|Hne]; simpl.
    + rewrite String.eqb_refl, Hq. reflexivity.
    + apply String.eqb_neq in Hne. rewrite Hne, app_nil_r. apply Hq.
Qed.

(** Leaving a state that is not [Queued] for one that is not [Queued]. *)
Lemma retire_consistent h st s x :
  queue_consistent s → sessions s !! h = Some x →
  is_queued (state x) = false → is_queued st = false →
  queue_consistent (retire h st s).
Proof.
  intros Hq Hx Hold Hnew q. unfold retire. rewrite pool_same_pools, Hq.
  unfold queued_handles. simpl. symmetry.
  apply queued_from_alter_same. intros y Hy. rewrite Hx in Hy. injection Hy as <-.
  unfold queued_in. rewrite in_project_with_state. simpl. now rewrite Hold, Hnew.
Qed.

Lemma spawned_consistent h s x :
  queue_consistent s → sessions s !! h = Some x → is_queued (state x) = false →
  queue_consistent (mkScheduler (alter (with_state Running) h (sessions s))
                                (pools s) (outbox s)).
Proof.
  intros Hq Hx Hold q.
  exact (retire_consistent h Running s x Hq Hx Hold eq_refl q).
Qed.

Lemma admit_next_consistent p s :
  queue_consistent s → queue_consistent (admit_next p s).
Proof.
  intros Hq. unfold admit_next.
  destruct (pending (pool s p)) as [|h rest] eqn:Hp; [exact Hq|].
  destruct (active_count p s <? maxConcurrency (pool s p)); [|exact Hq].
  destruct (queued_head_session p s h rest Hq Hp) as (x & Hx & Hproj & Hst).
  intros q. rewrite pool_set_pending. unfold queued_handles. simpl.
  rewrite queued_from_alter by (intros y; unfold queued_in; simpl; apply andb_false_r).
  simpl. fold (queued_handles q s). rewrite <- Hq.
  destruct (decide (p = q)) as [<-|Hne]; simpl.
  - rewrite Hp. simpl. rewrite Nat.eqb_refl. simpl.
    symmetry. apply filter_neq_absent.
    pose proof (queued_from_NoDup p 0 (sessions s)) as Hnd.
    fold (queued_handles p s) in Hnd. rewrite <- Hq, Hp in Hnd.
    now inversion Hnd.
  - symmetry. apply filter_neq_absent. rewrite Hq. intros Hin.
    change h with (0 + h) in Hin.
    apply queued_from_elem in Hin as (y & Hy & Hqy).
    rewrite Hx in Hy. injection Hy as <-.
    apply andb_true_iff in Hqy as [Hproj' _]. apply String.eqb_eq in Hproj'.
    congruence.
Qed.

Lemma emit_consistent h r c s :
  queue_consistent s → queue_consistent (emit h r c s).
Proof.
  intros Hq. unfold emit. destruct (sessions s !! h) as [x|] eqn:Hx; [|exact Hq].
  intros q. rewrite pool_same_pools, Hq. unfold queued_handles. simpl.
  symmetry. apply queued_from_alter_same. intros y _. reflexivity.
Qed.

Lemma setMaxConcurrency_consistent p n s :
  queue_consistent s → queue_consistent (setMaxConcurrency p n s).
Proof.
  intros Hq q.
  change (queued_handles q (setMaxConcurrency p n s)) with (queued_handles q s).
  rewrite <- (Hq q). unfold setMaxConcurrency, pool at 1. simpl.
  rewrite lookup_insert.
  destruct (decide (p = q)) as [<-|]; reflexivity.
Qed.

(** Cancelling a Queued session takes it out of its queue. *)
Lemma cancel_queued_consistent h s x :
  queue_consistent s → sessions s !! h = Some x → state x = Queued →
  queue_consistent
    (retire h Cancelled
       (mkScheduler (sessions s)
          (set_pending (projectId x)
             (List.filter (λ k, negb (k =? h)) (pending (pool s (projectId x)))) s)
          (outbox s))).
Proof.
  intros Hq Hx Hst q. unfold retire. simpl.
  change (pool (mkScheduler ?l ?m ?o) q) with (pool (mkScheduler l m (outbox s)) q).
  rewrite pool_set_pending. unfold queued_handles. simpl.
  rewrite queued_from_alter by (intros y; unfold queued_in; simpl; apply andb_false_r).
  simpl. fold (queued_handles q s). rewrite <- (Hq q).
  destruct (decide (projectId x = q)) as [<-|Hne]; simpl; [reflexivity|].
  symmetry. apply filter_neq_absent. rewrite Hq. intros Hin.
  change h with (0 + h) in Hin.
  apply queued_from_elem in Hin as (y & Hy & Hqy).
  rewrite Hx in Hy. injection Hy as <-.
  apply andb_true_iff in Hqy as [Hproj' _]. apply String.eqb_eq in Hproj'.
  congruence.
Qed.

End SchedulerInvariant.

Section SchedulerSteps.

Import Engine.

Local Open Scope list_scope.
Local Open Scope nat_scope.

Implicit Types (s : Scheduler) (p q : string) (h k : nat) (x : Session)
  (l : list Session) (st : SessionState) (e : Event).

Lemma finish_retire h p st s : finish h p st s = admit_next p (retire h st s).
Proof. reflexivity. Qed.

(** [when_in] runs its continuation on a session in the expected state, and
    leaves the scheduler alone otherwise. *)
Lemma when_in_cases st h s (k : Session → Scheduler) :
  when_in st h s k = s
  ∨ ∃ x, sessions s !! h = Some x ∧ state x = st ∧ holds_slot st = true
         ∧ when_in st h s k = k x.
Proof.
  unfold when_in. destruct (sessions s !! h) as [x|]; [|now left].
  destruct st, (state x) eqn:E; try (now left); right; exists x; auto.
Qed.

Lemma holds_slot_not_queued st : holds_slot st = true → is_queued st = false.
Proof. now destruct st. Qed.

Lemma step_consistent e s : queue_consistent s → queue_consistent (step s e).
Proof.
  intros Hq. destruct e as [p spec|h|h kind|h r c|h|h kind|h|p n]; simpl.
  - now apply submit_consistent.
  - destruct (when_in_cases Spawning h s (λ _,
      mkScheduler (alter (with_state Running) h (sessions s)) (pools s) (outbox s)))
      as [->|(x & Hx & Hst & _ & ->)]; [exact Hq|].
    apply (spawned_consistent h s x Hq Hx). now rewrite Hst.
  - destruct (when_in_cases Spawning h s (λ x, finish h (projectId x) (Failed kind) s))
      as [->|(x & Hx & Hst & _ & ->)]; [exact Hq|].
    rewrite finish_retire. apply admit_next_consistent.
    apply (retire_consistent h _ s x Hq Hx); [now rewrite Hst | reflexivity].
  - destruct (when_in_cases Running h s (λ _, emit h r c s))
      as [->|(x & Hx & Hst & _ & ->)]; [exact Hq|].
    now apply emit_consistent.
  - destruct (when_in_cases Running h s (λ x, finish h (projectId x) Completed s))
      as [->|(x & Hx & Hst & _ & ->)]; [exact Hq|].
    rewrite finish_retire. apply admit_next_consistent.
    apply (retire_consistent h _ s x Hq Hx); [now rewrite Hst | reflexivity].
  - destruct (when_in_cases Running h s (λ x, finish h (projectId x) (Failed kind) s))
      as [->|(x & Hx & Hst & _ & ->)]; [exact Hq|].
    rewrite finish_retire. apply admit_next_consistent.
    apply (retire_consistent h _ s x Hq Hx); [now rewrite Hst | reflexivity].
  - unfold cancel. destruct (sessions s !! h) as [x|] eqn:Hx; [|exact Hq].
    destruct (state x) eqn:Hst; try exact Hq.
    + rewrite finish_retire. apply admit_next_consistent.
      now apply cancel_queued_consistent.
    + rewrite finish_retire. apply admit_next_consistent.
      apply (retire_consistent h _ s x Hq Hx); [now rewrite Hst | reflexivity].
    + rewrite finish_retire. apply admit_next_consistent.
      apply (retire_consistent h _ _ (append_message system [TextBlock "Session cancelled"] x)).
      * now apply emit_consistent.
      * unfold emit. rewrite Hx. simpl. rewrite list_lookup_alter_eq, Hx. reflexivity.
      * simpl. now rewrite Hst.
      * reflexivity.
  - now apply setMaxConcurrency_consistent.
Qed.

Lemma init_consistent : queue_consistent init.
Proof. intros p. reflexivity. Qed.

Lemma run_consistent evs s : queue_consistent s → queue_consistent (run s evs).
Proof.
  revert s. induction evs as [|e evs IH]; intros s Hq; simpl; [exact Hq|].
  apply IH. now apply step_consistent.
Qed.

End SchedulerSteps.

Section SchedulerBounds.

Import Engine.

Local Open Scope list_scope.
Local Open Scope nat_scope.

Implicit Types (s : Scheduler) (p q : string) (h k : nat) (x : Session)
  (l : list Session) (st : SessionState) (e : Event).

Lemma active_count_alter_state p h st s x m out :
  sessions s !! h = Some x →
  active_count p (mkScheduler (alter (with_state st) h (sessions s)) m out)
    + share p (state x) x
  = active_count p s + share p st x.
Proof.
  intros Hx. unfold active_count, share. simpl.
  apply (count_alter (λ y, in_project p y && holds_slot (state y))
                     (with_state st) (sessions s) h x Hx).
Qed.






Lemma retire_cap h st s p :
  maxConcurrency (pool (retire h st s) p) = maxConcurrency (pool s p).
Proof. reflexivity. Qed.


Lemma emit_count p h r c s : active_count p (emit h r c s) = active_count p s.
Proof.
  unfold emit. destruct (sessions s !! h) as [x|] eqn:Hx; [|reflexivity].
  unfold active_count. simpl.
  assert (E : count (λ y, in_project p y && holds_slot (state y))
                (alter (append_message r c) h (sessions s))
              + (if in_project p x && holds_slot (state x) then 1 else 0)
              = count (λ y, in_project p y && holds_slot (state y)) (sessions s)
                + (if in_project p x && holds_slot (state x) then 1 else 0))
    by exact (count_alter (λ y, in_project p y && holds_slot (state y))
                (append_message r c) (sessions s) h x Hx).
  destruct (in_project p x && holds_slot (state x)); lia.
Qed.






End SchedulerBounds.


Section SchedulerClaims.

Local Open Scope list_scope.
Local Open Scope nat_scope.

(** [Engine] is the reading of section 4.4 that counts slot holders and
    guards the dequeue. *)
Lemma engine_reading (s : Engine.Scheduler) (e : Engine.Event) :
  Reading.step Engine.holds_slot true s e = Engine.step s e.
Proof. destruct e; reflexivity. Qed.

(** Why [Engine] reads section 4.4 as it does: read word by word, with the
    count of Sessions in state Running, a burst of five submissions under
    [maxConcurrency = 2] admits all five, and five run; and with the count
    of slot holders but a dequeue that admits on any terminal state,
    cancelling a Queued Session admits the next one into a full pool.
    Either way the invariant of section 3 is lost without any change of
    capacity. *)
Lemma other_readings_overrun :
  (Engine.state <$> Engine.sessions
     (Reading.run Engine.is_running false Engine.init burst_spawned)
   = [Engine.Running; Engine.Running; Engine.Running; Engine.Running; Engine.Running]
   ∧ Engine.maxConcurrency
       (Engine.pool (Reading.run Engine.is_running false Engine.init burst_spawned) "proj")
     = 2)
  ∧ (Engine.state <$> Engine.sessions
       (Reading.run Engine.holds_slot false Engine.init cancel_waiting)
     = [Engine.Spawning; Engine.Cancelled; Engine.Spawning]
     ∧ Engine.maxConcurrency
         (Engine.pool (Reading.run Engine.holds_slot false Engine.init cancel_waiting) "proj")
       = 1).
Proof. repeat split; vm_compute; reflexivity. Qed.




Lemma emit_state_of h r c s k :
  Engine.state_of (Engine.emit h r c s) k = Engine.state_of s k.
Proof.
  unfold Engine.emit, Engine.state_of.
  destruct (Engine.sessions s !! h) as [x|] eqn:Hx; [|reflexivity]. simpl.
  destruct (decide (h = k)) as [<-|Hne].
  - rewrite list_lookup_alter_eq, Hx. reflexivity.
  - now rewrite list_lookup_alter_ne.
Qed.

Lemma emit_queued_handles h r c s p :
  Engine.queued_handles p (Engine.emit h r c s) = Engine.queued_handles p s.
Proof.
  unfold Engine.emit, Engine.queued_handles.
  destruct (Engine.sessions s !! h) as [x|] eqn:Hx; [|reflexivity]. simpl.
  apply queued_from_alter_same. intros y _. reflexivity.
Qed.

(** A session that holds a slot ends while its project is within capacity:
    the oldest Queued session of the project, and no other, is admitted. *)
Lemma finish_admits h p st s x :
  queue_consistent s → Engine.sessions s !! h = Some x →
  Engine.projectId x = p → Engine.holds_slot (Engine.state x) = true →
  Engine.holds_slot st = false → Engine.is_queued st = false →
  Engine.active_count p s ≤ Engine.maxConcurrency (Engine.pool s p) →
  let s' := Engine.finish h p st s in
  match Engine.queued_handles p s with
  | [] =>
      Engine.queued_handles p s' = []
      ∧ ∀ k, k ≠ h → Engine.state_of s' k = Engine.state_of s k
  | oldest :: rest =>
      Engine.state_of s oldest = Some Engine.Queued
      ∧ Engine.state_of s' oldest = Some Engine.Spawning
      ∧ Engine.queued_handles p s' = rest
      ∧ ∀ k, k ≠ h → k ≠ oldest → Engine.state_of s' k = Engine.state_of s k
  end.
Proof.
  intros Hq Hx Hp Hslot Hst Hnq Hcap s'.
  pose proof (retire_consistent h st s x Hq Hx (holds_slot_not_queued _ Hslot) Hnq) as Hr.
  pose proof (admit_next_consistent p _ Hr) as Hq'.
  assert (Hroom : Engine.active_count p (retire h st s)
                  < Engine.maxConcurrency (Engine.pool s p)).
  { pose proof (active_count_alter_state p h st s x (Engine.pools s)
                  (Engine.outbox s ++ [Engine.TerminalEvent h st]) Hx) as E.
    unfold Engine.share in E. rewrite Hslot, Hst, andb_false_r, andb_true_r in E.
    unfold Engine.in_project in E. rewrite Hp, String.eqb_refl in E.
    unfold retire. lia. }
  assert (Hpend : Engine.pending (Engine.pool (retire h st s) p)
                  = Engine.queued_handles p s) by (rewrite <- Hq; reflexivity).
  unfold s'. rewrite finish_retire in *.
  rewrite <- (Hq' p). unfold Engine.admit_next in *.
  rewrite Hpend in *. destruct (Engine.queued_handles p s) as [|oldest rest] eqn:Hqueue.
  - split; [exact Hpend|]. intros k Hk. unfold Engine.state_of, retire. simpl.
    now rewrite list_lookup_alter_ne.
  - apply Nat.ltb_lt in Hroom. rewrite retire_cap, Hroom in *.
    destruct (queued_head_session p (retire h st s) oldest rest Hr Hpend)
      as (y & Hy & _ & _).
    assert (Hold : oldest ∈ Engine.queued_handles p s)
      by (rewrite Hqueue; apply list_elem_of_here).
    change oldest with (0 + oldest) in Hold.
    apply queued_from_elem in Hold as (z & Hz & Hzq).
    apply andb_true_iff in Hzq as [_ Hzq].
    split; [unfold Engine.state_of; rewrite Hz; simpl; now destruct (Engine.state z)|].
    unfold retire in Hy. simpl in Hy.
    split; [unfold Engine.state_of; simpl; now rewrite list_lookup_alter_eq, Hy|].
    split.
    + rewrite pool_set_pending. now rewrite decide_True.
    + intros k Hk Hk'. unfold Engine.state_of, retire. simpl.
      rewrite list_lookup_alter_ne by congruence.
      now rewrite list_lookup_alter_ne.
Qed.

Lemma submit_rule p spec s :
  let s' := Engine.step s (Engine.Submit p spec) in
  let h := length (Engine.sessions s) in
  (Engine.active_count p s < Engine.maxConcurrency (Engine.pool s p) →
     Engine.state_of s' h = Some Engine.Spawning
     ∧ Engine.pending (Engine.pool s' p) = Engine.pending (Engine.pool s p))
  ∧ (Engine.maxConcurrency (Engine.pool s p) ≤ Engine.active_count p s →
       Engine.state_of s' h = Some Engine.Queued
       ∧ Engine.pending (Engine.pool s' p) = Engine.pending (Engine.pool s p) ++ [h])
  ∧ (∀ k, k < h → Engine.sessions s' !! k = Engine.sessions s !! k).
Proof.
  intros s' h. unfold s', h. simpl. unfold Engine.submit, Engine.state_of.
  destruct (Nat.ltb_spec (Engine.active_count p s)
              (Engine.maxConcurrency (Engine.pool s p))) as [Hlt|Hge]; simpl.
  - split; [intros _|split; [lia|]].
    + rewrite lookup_app_r, Nat.sub_diag by lia. now split.
    + intros k Hk. now rewrite lookup_app_l.
  - split; [lia|split; [intros _|]].
    + rewrite lookup_app_r, Nat.sub_diag by lia. split; [reflexivity|].
      rewrite pool_set_pending. now rewrite decide_True.
    + intros k Hk. now rewrite lookup_app_l.
Qed.

(** What [admit_next] does: with a Session waiting and the slot holders
    below the capacity, the oldest waiting Session is admitted; otherwise
    nothing changes. *)
Lemma admit_next_effect p s :
  queue_consistent s →
  let s' := Engine.admit_next p s in
  match Engine.queued_handles p s with
  | [] => s' = s
  | oldest :: rest =>
      if Engine.active_count p s <? Engine.maxConcurrency (Engine.pool s p) then
        Engine.state_of s oldest = Some Engine.Queued
        ∧ Engine.state_of s' oldest = Some Engine.Spawning
        ∧ Engine.queued_handles p s' = rest
        ∧ ∀ k, k ≠ oldest → Engine.state_of s' k = Engine.state_of s k
      else s' = s
  end.
Proof.
  intros Hq s'. pose proof (admit_next_consistent p s Hq) as Hq'.
  unfold s'. rewrite <- (Hq p).
  destruct (Engine.pending (Engine.pool s p)) as [|oldest rest] eqn:Hp.
  - unfold Engine.admit_next. now rewrite Hp.
  - destruct (Engine.active_count p s <? Engine.maxConcurrency (Engine.pool s p)) eqn:Hroom.
    + destruct (queued_head_session p s oldest rest Hq Hp) as (x & Hx & _ & Hst).
      split; [unfold Engine.state_of; rewrite Hx; simpl; now rewrite Hst|].
      rewrite <- (Hq' p). unfold Engine.admit_next. rewrite Hp, Hroom.
      split; [unfold Engine.state_of; simpl; now rewrite list_lookup_alter_eq, Hx|].
      split.
      * rewrite pool_set_pending. now rewrite decide_True.
      * intros k Hk. unfold Engine.state_of. simpl.
        now rewrite list_lookup_alter_ne by congruence.
    + unfold Engine.admit_next. now rewrite Hp, Hroom.
Qed.

(** A Session that holds a slot reaches a terminal state: the oldest
    waiting Session is admitted if the project was within its capacity, and
    nobody is if it was over it. *)
Lemma finish_effect h p st s x :
  queue_consistent s → Engine.sessions s !! h = Some x →
  Engine.projectId x = p → Engine.holds_slot (Engine.state x) = true →
  Engine.holds_slot st = false → Engine.is_queued st = false →
  let s' := Engine.finish h p st s in
  if Engine.active_count p s <=? Engine.maxConcurrency (Engine.pool s p) then
    match Engine.queued_handles p s with
    | [] =>
        Engine.queued_handles p s' = []
        ∧ ∀ k, k ≠ h → Engine.state_of s' k = Engine.state_of s k
    | oldest :: rest =>
        Engine.state_of s oldest = Some Engine.Queued
        ∧ Engine.state_of s' oldest = Some Engine.Spawning
        ∧ Engine.queued_handles p s' = rest
        ∧ ∀ k, k ≠ h → k ≠ oldest → Engine.state_of s' k = Engine.state_of s k
    end
  else
    Engine.queued_handles p s' = Engine.queued_handles p s
    ∧ ∀ k, k ≠ h → Engine.state_of s' k = Engine.state_of s k.
Proof.
  intros Hq Hx Hp Hslot Hst Hnq s'.
  destruct (Nat.leb_spec (Engine.active_count p s)
              (Engine.maxConcurrency (Engine.pool s p))) as [Hcap|Hover].
  - now apply (finish_admits h p st s x).
  - pose proof (retire_consistent h st s x Hq Hx (holds_slot_not_queued _ Hslot) Hnq) as Hr.
    assert (Hfull : (Engine.active_count p (retire h st s)
                     <? Engine.maxConcurrency (Engine.pool (retire h st s) p)) = false).
    { pose proof (active_count_alter_state p h st s x (Engine.pools s)
                    (Engine.outbox s ++ [Engine.TerminalEvent h st]) Hx) as E.
      unfold Engine.share in E. rewrite Hslot, Hst, andb_false_r, andb_true_r in E.
      unfold Engine.in_project in E. rewrite Hp, String.eqb_refl in E.
      apply Nat.ltb_ge. rewrite retire_cap. unfold retire. lia. }
    assert (Hpend : Engine.queued_handles p (retire h st s) = Engine.queued_handles p s).
    { rewrite <- (Hr p), <- (Hq p). reflexivity. }
    pose proof (admit_next_effect p (retire h st s) Hr) as A. cbv zeta in A.
    assert (Hstay : Engine.admit_next p (retire h st s) = retire h st s).
    { destruct (Engine.queued_handles p (retire h st s)); [exact A|].
      now rewrite Hfull in A. }
    unfold s'. rewrite finish_retire, Hstay. split; [exact Hpend|].
    intros k Hk. unfold Engine.state_of, retire. simpl.
    now rewrite list_lookup_alter_ne.
Qed.

(** A Queued Session is cancelled: it leaves the queue, and the oldest
    Session still waiting is admitted only if there is a free slot. *)
Lemma cancel_queued_effect h p s x :
  queue_consistent s → Engine.sessions s !! h = Some x →
  Engine.projectId x = p → Engine.state x = Engine.Queued →
  let s' := Engine.cancel h s in
  let waiting := List.filter (λ k, negb (k =? h)) (Engine.queued_handles p s) in
  Engine.state_of s' h = Some Engine.Cancelled
  ∧ if Engine.active_count p s <? Engine.maxConcurrency (Engine.pool s p) then
      match waiting with
      | [] =>
          Engine.queued_handles p s' = []
          ∧ ∀ k, k ≠ h → Engine.state_of s' k = Engine.state_of s k
      | oldest :: rest =>
          Engine.state_of s oldest = Some Engine.Queued
          ∧ Engine.state_of s' oldest = Some Engine.Spawning
          ∧ Engine.queued_handles p s' = rest
          ∧ ∀ k, k ≠ h → k ≠ oldest → Engine.state_of s' k = Engine.state_of s k
      end
    else
      Engine.queued_handles p s' = waiting
      ∧ ∀ k, k ≠ h → Engine.state_of s' k = Engine.state_of s k.
Proof.
  intros Hq Hx Hp Hst s' waiting.
  pose proof (cancel_queued_consistent h s x Hq Hx Hst) as Hr. rewrite Hp in Hr.
  set (s0 := retire h Engine.Cancelled
               (Engine.mkScheduler (Engine.sessions s)
                  (Engine.set_pending p
                     (List.filter (λ k, negb (k =? h)) (Engine.pending (Engine.pool s p))) s)
                  (Engine.outbox s))) in *.
  assert (Hs' : s' = Engine.admit_next p s0).
  { unfold s', Engine.cancel. now rewrite Hx, Hst, Hp. }
  assert (Hwait : Engine.queued_handles p s0 = waiting).
  { rewrite <- (Hr p). unfold s0, retire. simpl.
    change (Engine.pool (Engine.mkScheduler ?l ?m ?o) p)
      with (Engine.pool (Engine.mkScheduler l m (Engine.outbox s)) p).
    rewrite pool_set_pending, decide_True by reflexivity. simpl.
    unfold waiting. now rewrite (Hq p). }
  assert (Hcap : Engine.maxConcurrency (Engine.pool s0 p)
                 = Engine.maxConcurrency (Engine.pool s p)).
  { unfold s0, retire. simpl.
    change (Engine.pool (Engine.mkScheduler ?l ?m ?o) p)
      with (Engine.pool (Engine.mkScheduler l m (Engine.outbox s)) p).
    now rewrite pool_set_pending, decide_True by reflexivity. }
  assert (Hcount : Engine.active_count p s0 = Engine.active_count p s).
  { pose proof (active_count_alter_state p h Engine.Cancelled s x
                  (Engine.pools s0) (Engine.outbox s0) Hx) as E.
    unfold Engine.share in E. rewrite Hst in E. simpl in E.
    rewrite !andb_false_r in E. unfold s0, retire in *. simpl in *. lia. }
  assert (Hsame : ∀ k, k ≠ h → Engine.state_of s0 k = Engine.state_of s k).
  { intros k Hk. unfold Engine.state_of, s0, retire. simpl.
    now rewrite list_lookup_alter_ne. }
  assert (Hgone : Engine.state_of s0 h = Some Engine.Cancelled).
  { unfold Engine.state_of, s0, retire. simpl. now rewrite list_lookup_alter_eq, Hx. }
  assert (Hnoth : h ∉ waiting).
  { unfold waiting. intros Hin. apply list_elem_of_In, List.filter_In in Hin as [_ Hin].
    rewrite Nat.eqb_refl in Hin. discriminate. }
  pose proof (admit_next_effect p s0 Hr) as A. cbv zeta in A.
  rewrite <- Hs', Hwait, Hcap, Hcount in A.
  destruct (Engine.active_count p s <? Engine.maxConcurrency (Engine.pool s p)).
  - destruct waiting as [|oldest rest].
    + rewrite A. split; [exact Hgone|]. split; [now rewrite Hwait | exact Hsame].
    + destruct A as (A1 & A2 & A3 & A4).
      assert (Hne : oldest ≠ h).
      { intros ->. apply Hnoth, list_elem_of_here. }
      split; [rewrite A4 by congruence; exact Hgone|].
      split; [rewrite <- Hsame by exact Hne; exact A1|].
      split; [exact A2|]. split; [exact A3|].
      intros k Hk Hk'. rewrite A4 by exact Hk'. now apply Hsame.
  - assert (E : s' = s0) by (destruct waiting; exact A).
    rewrite E. split; [exact Hgone|]. split; [exact Hwait | exact Hsame].
Qed.

(** C2 as worded does not hold, however the count of its first sentence
    is read.  Read word by word, as the count of Sessions in state
    Running, the five submissions of its scenario are all admitted under
    [maxConcurrency = 2], since none runs yet, and none is Queued.  Read as
    the count of slot holders, which the scenario needs, a submitted
    Session is queued with no Session in state Running, when a Session
    that has not spawned yet holds the only slot.  When the Session that
    reaches a terminal state was itself Queued and the pool is full,
    nobody is admitted: one session holds the only slot, the first of the
    two waiting is cancelled, and the other stays Queued.  And when a
    running Session completes in a project that is over its capacity, the
    waiting Session stays Queued. *)
Lemma admission_as_worded_fails :
  (Engine.maxConcurrency
     (Engine.pool (Reading.run Engine.is_running false Engine.init burst) "proj") = 2
   ∧ Engine.state <$> Engine.sessions
       (Reading.run Engine.is_running false Engine.init burst)
     = [Engine.Spawning; Engine.Spawning; Engine.Spawning; Engine.Spawning;
        Engine.Spawning])
  ∧ (Engine.running_count "proj" (Engine.run Engine.init second_submitted) = 0
     ∧ Engine.maxConcurrency (Engine.pool (Engine.run Engine.init second_submitted) "proj")
       = 1
     ∧ Engine.state <$> Engine.sessions (Engine.run Engine.init second_submitted)
       = [Engine.Spawning; Engine.Queued])
  ∧ (Engine.state <$> Engine.sessions (Engine.run Engine.init cancel_waiting)
     = [Engine.Spawning; Engine.Cancelled; Engine.Queued]
     ∧ Engine.queued_handles "proj" (Engine.run Engine.init cancel_waiting) = [2])
  ∧ (Engine.state <$> Engine.sessions (Engine.run Engine.init completed_over_capacity)
     = [Engine.Completed; Engine.Running; Engine.Running; Engine.Queued]
     ∧ Engine.queued_handles "proj" (Engine.run Engine.init completed_over_capacity) = [3]).
Proof. repeat split; vm_compute; reflexivity. Qed.

(** C2 (amended): at every reachable state the queue of a project is the
    list of its Queued Sessions, oldest first.  [submit] puts the new
    Session in Spawning when the count of slot holders (Spawning or
    Running) is below the project's [maxConcurrency], and otherwise in
    Queued at the back of the queue; no other Session changes.  When a
    Session that holds a slot reaches a terminal state, the oldest Queued
    Session of the project, if any, goes to Spawning if the project was
    within its capacity, and nobody is admitted if it was over it; when a
    Queued Session is cancelled it leaves the queue, and the oldest Session
    still waiting goes to Spawning exactly when the slot holders number
    less than the capacity.  In every case the rest of the queue keeps its
    order and no other Session changes state.  Five submissions under
    [maxConcurrency = 2] leave two Sessions admitted (Running once
    spawned) and three Queued; the first one completing admits the third
    and nobody else. *)
Theorem admission_fifo (evs : list Engine.Event) (p : string) :
  let s := Engine.run Engine.init evs in
  Engine.pending (Engine.pool s p) = Engine.queued_handles p s
  ∧ (∀ spec,
       let s' := Engine.step s (Engine.Submit p spec) in
       let h := length (Engine.sessions s) in
       (Engine.active_count p s < Engine.maxConcurrency (Engine.pool s p) →
          Engine.state_of s' h = Some Engine.Spawning
          ∧ Engine.queued_handles p s' = Engine.queued_handles p s)
       ∧ (Engine.maxConcurrency (Engine.pool s p) ≤ Engine.active_count p s →
            Engine.state_of s' h = Some Engine.Queued
            ∧ Engine.queued_handles p s' = Engine.queued_handles p s ++ [h])
       ∧ (∀ k, k < h → Engine.sessions s' !! k = Engine.sessions s !! k))
  ∧ (∀ e h x,
       Engine.sessions s !! h = Some x → Engine.projectId x = p →
       Engine.holds_slot (Engine.state x) = true →
       ends e = Some h →
       (∃ x', Engine.sessions (Engine.step s e) !! h = Some x'
              ∧ Engine.terminal (Engine.state x') = true) →
       let s' := Engine.step s e in
       if Engine.active_count p s <=? Engine.maxConcurrency (Engine.pool s p) then
         match Engine.queued_handles p s with
         | [] =>
             Engine.queued_handles p s' = []
             ∧ ∀ k, k ≠ h → Engine.state_of s' k = Engine.state_of s k
         | oldest :: rest =>
             Engine.state_of s oldest = Some Engine.Queued
             ∧ Engine.state_of s' oldest = Some Engine.Spawning
             ∧ Engine.queued_handles p s' = rest
             ∧ ∀ k, k ≠ h → k ≠ oldest → Engine.state_of s' k = Engine.state_of s k
         end
       else
         Engine.queued_handles p s' = Engine.queued_handles p s
         ∧ ∀ k, k ≠ h → Engine.state_of s' k = Engine.state_of s k)
  ∧ (∀ h x,
       Engine.sessions s !! h = Some x → Engine.projectId x = p →
       Engine.state x = Engine.Queued →
       let s' := Engine.step s (Engine.Cancel h) in
       let waiting := List.filter (λ k, negb (k =? h)) (Engine.queued_handles p s) in
       Engine.state_of s' h = Some Engine.Cancelled
       ∧ if Engine.active_count p s <? Engine.maxConcurrency (Engine.pool s p) then
           match waiting with
           | [] =>
               Engine.queued_handles p s' = []
               ∧ ∀ k, k ≠ h → Engine.state_of s' k = Engine.state_of s k
           | oldest :: rest =>
               Engine.state_of s oldest = Some Engine.Queued
               ∧ Engine.state_of s' oldest = Some Engine.Spawning
               ∧ Engine.queued_handles p s' = rest
               ∧ ∀ k, k ≠ h → k ≠ oldest → Engine.state_of s' k = Engine.state_of s k
           end
         else
           Engine.queued_handles p s' = waiting
           ∧ ∀ k, k ≠ h → Engine.state_of s' k = Engine.state_of s k)
  ∧ (Engine.state <$> Engine.sessions (Engine.run Engine.init burst)
     = [Engine.Spawning; Engine.Spawning; Engine.Queued; Engine.Queued; Engine.Queued]
     ∧ Engine.state <$> Engine.sessions
         (Engine.run Engine.init (burst ++ [Engine.Spawned 0; Engine.Spawned 1]))
       = [Engine.Running; Engine.Running; Engine.Queued; Engine.Queued; Engine.Queued]
     ∧ Engine.state <$> Engine.sessions
         (Engine.run Engine.init
            (burst ++ [Engine.Spawned 0; Engine.Spawned 1; Engine.Finished 0]))
       = [Engine.Completed; Engine.Running; Engine.Spawning; Engine.Queued; Engine.Queued]).
Proof.
  intros s.
  assert (Hq : queue_consistent s) by (apply run_consistent, init_consistent).
  split; [apply Hq|]. split; [|split; [|split]].
  - intros spec s' h.
    assert (Hq' : queue_consistent s') by now apply step_consistent.
    destruct (submit_rule p spec s) as (Hadmit & Hqueue & Hold).
    split; [|split; [|exact Hold]].
    + intros Hlt. destruct (Hadmit Hlt) as [Hst Hpend]. split; [exact Hst|].
      now rewrite <- (Hq' p), <- (Hq p).
    + intros Hge. destruct (Hqueue Hge) as [Hst Hpend]. split; [exact Hst|].
      now rewrite <- (Hq' p), <- (Hq p).
  - intros e h x Hx Hp Hslot Hends (x' & Hx' & Hterm) s'.
    assert (Hstay : Engine.step s e = s → False).
    { intros E. rewrite E, Hx in Hx'. injection Hx' as <-.
      destruct (Engine.state x); discriminate. }
    unfold s'.
    destruct e as [p0 spec|h0|h0 kind|h0 r c|h0|h0 kind|h0|p0 n];
      simpl in Hends; try discriminate; injection Hends as ->; simpl in *.
    + destruct (when_in_cases Engine.Spawning h s
                  (λ x, Engine.finish h (Engine.projectId x) (Engine.Failed kind) s))
        as [E|(y & Hy & Hst & _ & E)]; [destruct (Hstay E)|].
      rewrite E. rewrite Hx in Hy. injection Hy as <-. rewrite Hp.
      apply (finish_effect h p _ s x); first [assumption | reflexivity].
    + destruct (when_in_cases Engine.Running h s
                  (λ x, Engine.finish h (Engine.projectId x) Engine.Completed s))
        as [E|(y & Hy & Hst & _ & E)]; [destruct (Hstay E)|].
      rewrite E. rewrite Hx in Hy. injection Hy as <-. rewrite Hp.
      apply (finish_effect h p _ s x); first [assumption | reflexivity].
    + destruct (when_in_cases Engine.Running h s
                  (λ x, Engine.finish h (Engine.projectId x) (Engine.Failed kind) s))
        as [E|(y & Hy & Hst & _ & E)]; [destruct (Hstay E)|].
      rewrite E. rewrite Hx in Hy. injection Hy as <-. rewrite Hp.
      apply (finish_effect h p _ s x); first [assumption | reflexivity].
    + unfold Engine.cancel in *. rewrite Hx in *. rewrite Hp in *.
      destruct (Engine.state x) eqn:Hst; try discriminate.
      * apply (finish_effect h p _ s x);
          first [assumption | reflexivity | now rewrite Hst].
      * pose proof (finish_effect h p Engine.Cancelled
                      (Engine.emit h Engine.system [Engine.TextBlock "Session cancelled"] s)
                      (Engine.append_message Engine.system
                         [Engine.TextBlock "Session cancelled"] x)) as F.
        cbv zeta in F. rewrite emit_queued_handles, emit_count in F.
        assert (Hpre : Engine.sessions
                         (Engine.emit h Engine.system
                            [Engine.TextBlock "Session cancelled"] s) !! h
                       = Some (Engine.append_message Engine.system
                                 [Engine.TextBlock "Session cancelled"] x)).
        { unfold Engine.emit. rewrite Hx. simpl. now rewrite list_lookup_alter_eq, Hx. }
        specialize (F (emit_consistent _ _ _ _ Hq) Hpre Hp).
        simpl in F. rewrite Hst in F.
        replace (Engine.pool (Engine.emit h Engine.system
                   [Engine.TextBlock "Session cancelled"] s) p)
          with (Engine.pool s p) in F by (unfold Engine.emit; now rewrite Hx).
        specialize (F eq_refl eq_refl eq_refl).
        destruct (Engine.active_count p s <=? Engine.maxConcurrency (Engine.pool s p)).
        -- destruct (Engine.queued_handles p s) as [|oldest rest].
           ++ destruct F as [F1 F2]. split; [exact F1|].
              intros k Hk. rewrite (F2 k Hk). apply emit_state_of.
           ++ destruct F as (F1 & F2 & F3 & F4). rewrite emit_state_of in F1.
              split; [exact F1|]. split; [exact F2|]. split; [exact F3|].
              intros k Hk Hk'. rewrite (F4 k Hk Hk'). apply emit_state_of.
        -- destruct F as [F1 F2]. split; [exact F1|].
           intros k Hk. rewrite (F2 k Hk). apply emit_state_of.
  - intros h x Hx Hp Hst. exact (cancel_queued_effect h p s x Hq Hx Hp Hst).
  - repeat split; vm_compute; reflexivity.
Qed.

Lemma admission_fifo_witness :
  Engine.state_of
    (Engine.step (Engine.run Engine.init (burst ++ [Engine.Spawned 0; Engine.Spawned 1]))
                 (Engine.Finished 0)) 2
  = Some Engine.Spawning.
Proof.
  destruct (admission_fifo (burst ++ [Engine.Spawned 0; Engine.Spawned 1]) "proj")
    as (_ & _ & Hterm & _).
  cbv zeta in Hterm.
  specialize (Hterm (Engine.Finished 0) 0
                (Engine.mkSession "f1" "proj" Engine.Claude Engine.Running [])).
  assert (Hqueue : Engine.queued_handles "proj"
                     (Engine.run Engine.init
                        (burst ++ [Engine.Spawned 0; Engine.Spawned 1]))
                   = [2; 3; 4]) by (vm_compute; reflexivity).
  assert (Hwithin : (Engine.active_count "proj"
                       (Engine.run Engine.init (burst ++ [Engine.Spawned 0; Engine.Spawned 1]))
                     <=? Engine.maxConcurrency
                           (Engine.pool
                              (Engine.run Engine.init
                                 (burst ++ [Engine.Spawned 0; Engine.Spawned 1])) "proj"))
                    = true) by (vm_compute; reflexivity).
  rewrite Hqueue, Hwithin in Hterm.
  destruct Hterm as (_ & Hadmitted & _);
    [vm_compute; reflexivity | reflexivity | reflexivity | reflexivity
    | eexists; split; [vm_compute; reflexivity | reflexivity] |].
  exact Hadmitted.
Defined.

Lemma observed_app h (a b : list Engine.OutEvent) :
  Engine.observed h (a ++ b) = Engine.observed h a ++ Engine.observed h b.
Proof.
  induction a as [|ev a IH]; simpl; [reflexivity|].
  destruct ev as [k n m|k st]; [|exact IH].
  destruct (k =? h); simpl; now rewrite IH.
Qed.

Lemma same_refl s : same_transcripts s s.
Proof. intros h. split; reflexivity. Qed.

Lemma same_trans s1 s2 s3 :
  same_transcripts s1 s2 → same_transcripts s2 s3 → same_transcripts s1 s3.
Proof.
  intros H12 H23 h. destruct (H12 h) as [A B], (H23 h) as [C D].
  split; congruence.
Qed.

Lemma appended_then_same k r c s1 s2 s3 :
  appended k r c s1 s2 → same_transcripts s2 s3 → appended k r c s1 s3.
Proof.
  intros H12 H23 h. destruct (H12 h) as [A B], (H23 h) as [C D].
  split; congruence.
Qed.

Lemma transcript_of_alter_state s st k m out h :
  transcript_of (Engine.mkScheduler (alter (Engine.with_state st) k (Engine.sessions s))
                                    m out) h
  = transcript_of s h.
Proof.
  unfold transcript_of. simpl. destruct (decide (k = h)) as [<-|Hne].
  - rewrite list_lookup_alter_eq. now destruct (Engine.sessions s !! k).
  - now rewrite list_lookup_alter_ne.
Qed.

Lemma same_submit p spec s : same_transcripts s (Engine.submit p spec s).1.
Proof.
  intros h. unfold Engine.submit.
  assert (E : ∀ st,
    default [] (Engine.transcript <$>
                  (Engine.sessions s ++ [Engine.new_session p spec st]) !! h)
    = transcript_of s h).
  { intros st. unfold transcript_of.
    destruct (Nat.lt_ge_cases h (length (Engine.sessions s))) as [Hlt|Hge].
    - now rewrite lookup_app_l.
    - rewrite lookup_app_r by lia.
      rewrite (lookup_ge_None_2 (Engine.sessions s) h) by lia.
      destruct (h - length (Engine.sessions s)) as [|j]; reflexivity. }
  destruct (Engine.active_count p s <? Engine.maxConcurrency (Engine.pool s p));
    simpl; (split; [apply E | reflexivity]).
Qed.

Lemma same_retire h st s : same_transcripts s (retire h st s).
Proof.
  intros k. unfold retire. split; [apply transcript_of_alter_state|].
  simpl. rewrite observed_app. simpl. apply app_nil_r.
Qed.

Lemma same_admit_next p s : same_transcripts s (Engine.admit_next p s).
Proof.
  unfold Engine.admit_next.
  destruct (Engine.pending (Engine.pool s p)) as [|h rest]; [apply same_refl|].
  destruct (Engine.active_count p s <? Engine.maxConcurrency (Engine.pool s p));
    [|apply same_refl].
  intros k. split; [apply transcript_of_alter_state | reflexivity].
Qed.

Lemma same_finish h p st s : same_transcripts s (Engine.finish h p st s).
Proof.
  rewrite finish_retire.
  exact (same_trans _ _ _ (same_retire h st s) (same_admit_next p _)).
Qed.

Lemma appended_emit h r c s x :
  Engine.sessions s !! h = Some x → appended h r c s (Engine.emit h r c s).
Proof.
  intros Hx k. unfold Engine.emit. rewrite Hx. simpl.
  assert (Ht : transcript_of s h = Engine.transcript x)
    by (unfold transcript_of; now rewrite Hx).
  rewrite Ht. split.
  - unfold transcript_of. simpl. destruct (Nat.eqb_spec h k) as [<-|Hne].
    + rewrite list_lookup_alter_eq, Hx. reflexivity.
    + rewrite list_lookup_alter_ne by exact Hne. now rewrite app_nil_r.
  - rewrite observed_app. simpl. now destruct (h =? k).
Qed.

Lemma kept_refl s : kept s s.
Proof. intros h x Hx. exists x. auto. Qed.

Lemma kept_trans s1 s2 s3 : kept s1 s2 → kept s2 s3 → kept s1 s3.
Proof.
  intros H12 H23 h x Hx.
  destruct (H12 h x Hx) as (y & Hy & A1 & A2 & A3).
  destruct (H23 h y Hy) as (z & Hz & B1 & B2 & B3).
  exists z. repeat split; congruence.
Qed.

Lemma kept_alter s g k m out :
  (∀ x, Engine.featureId (g x) = Engine.featureId x
        ∧ Engine.projectId (g x) = Engine.projectId x
        ∧ Engine.providerId (g x) = Engine.providerId x) →
  kept s (Engine.mkScheduler (alter g k (Engine.sessions s)) m out).
Proof.
  intros Hg h x Hx. simpl. destruct (decide (k = h)) as [<-|Hne].
  - exists (g x). rewrite list_lookup_alter_eq, Hx. split; [reflexivity | apply Hg].
  - exists x. rewrite list_lookup_alter_ne by exact Hne. auto.
Qed.

Lemma kept_pools s m out : kept s (Engine.mkScheduler (Engine.sessions s) m out).
Proof. intros h x Hx. exists x. auto. Qed.

Lemma kept_submit p spec s : kept s (Engine.submit p spec s).1.
Proof.
  intros h x Hx. exists x. unfold Engine.submit.
  destruct (Engine.active_count p s <? Engine.maxConcurrency (Engine.pool s p));
    simpl; (split; [now apply lookup_app_l_Some | auto]).
Qed.

Lemma kept_admit_next p s : kept s (Engine.admit_next p s).
Proof.
  unfold Engine.admit_next.
  destruct (Engine.pending (Engine.pool s p)) as [|h rest]; [apply kept_refl|].
  destruct (Engine.active_count p s <? Engine.maxConcurrency (Engine.pool s p));
    [|apply kept_refl].
  apply kept_alter. intros x. auto.
Qed.

Lemma kept_finish h p st s : kept s (Engine.finish h p st s).
Proof.
  rewrite finish_retire. eapply kept_trans; [|apply kept_admit_next].
  unfold retire. apply kept_alter. intros x. auto.
Qed.

Lemma kept_emit h r c s : kept s (Engine.emit h r c s).
Proof.
  unfold Engine.emit. destruct (Engine.sessions s !! h); [|apply kept_refl].
  apply kept_alter. intros x. auto.
Qed.

Lemma step_kept e s : kept s (Engine.step s e).
Proof.
  destruct e as [p spec|h|h kind|h r c|h|h kind|h|p n]; simpl.
  - apply kept_submit.
  - destruct (when_in_cases Engine.Spawning h s (λ _,
      Engine.mkScheduler (alter (Engine.with_state Engine.Running) h (Engine.sessions s))
                         (Engine.pools s) (Engine.outbox s)))
      as [->|(x & _ & _ & _ & ->)]; [apply kept_refl|].
    apply kept_alter. intros y. auto.
  - destruct (when_in_cases Engine.Spawning h s
                (λ x, Engine.finish h (Engine.projectId x) (Engine.Failed kind) s))
      as [->|(x & _ & _ & _ & ->)]; [apply kept_refl | apply kept_finish].
  - destruct (when_in_cases Engine.Running h s (λ _, Engine.emit h r c s))
      as [->|(x & _ & _ & _ & ->)]; [apply kept_refl | apply kept_emit].
  - destruct (when_in_cases Engine.Running h s
                (λ x, Engine.finish h (Engine.projectId x) Engine.Completed s))
      as [->|(x & _ & _ & _ & ->)]; [apply kept_refl | apply kept_finish].
  - destruct (when_in_cases Engine.Running h s
                (λ x, Engine.finish h (Engine.projectId x) (Engine.Failed kind) s))
      as [->|(x & _ & _ & _ & ->)]; [apply kept_refl | apply kept_finish].
  - unfold Engine.cancel. destruct (Engine.sessions s !! h) as [x|]; [|apply kept_refl].
    destruct (Engine.state x); try apply kept_refl.
    + eapply kept_trans; [|apply kept_finish]. apply kept_pools.
    + apply kept_finish.
    + eapply kept_trans; [apply kept_emit | apply kept_finish].
  - apply kept_pools.
Qed.

Lemma run_kept evs : ∀ s, kept s (Engine.run s evs).
Proof.
  induction evs as [|e evs IH]; intros s; simpl; [apply kept_refl|].
  eapply kept_trans; [apply step_kept | apply IH].
Qed.

Lemma same_pools s m : same_transcripts s (Engine.mkScheduler (Engine.sessions s) m (Engine.outbox s)).
Proof. intros h. split; reflexivity. Qed.

(** An event writes nothing, or appends one Message to one transcript. *)
Lemma step_transcripts e s :
  same_transcripts s (Engine.step s e)
  ∨ ∃ k r c, appended k r c s (Engine.step s e).
Proof.
  destruct e as [p spec|h|h kind|h r c|h|h kind|h|p n]; simpl.
  - left. apply same_submit.
  - left. destruct (when_in_cases Engine.Spawning h s (λ _,
      Engine.mkScheduler (alter (Engine.with_state Engine.Running) h (Engine.sessions s))
                         (Engine.pools s) (Engine.outbox s)))
      as [->|(x & _ & _ & _ & ->)]; [apply same_refl|].
    intros k. split; [apply transcript_of_alter_state | reflexivity].
  - left. destruct (when_in_cases Engine.Spawning h s
                (λ x, Engine.finish h (Engine.projectId x) (Engine.Failed kind) s))
      as [->|(x & _ & _ & _ & ->)]; [apply same_refl | apply same_finish].
  - destruct (when_in_cases Engine.Running h s (λ _, Engine.emit h r c s))
      as [->|(x & Hx & _ & _ & ->)]; [left; apply same_refl|].
    right. exists h, r, c. now apply (appended_emit h r c s x).
  - left. destruct (when_in_cases Engine.Running h s
                (λ x, Engine.finish h (Engine.projectId x) Engine.Completed s))
      as [->|(x & _ & _ & _ & ->)]; [apply same_refl | apply same_finish].
  - left. destruct (when_in_cases Engine.Running h s
                (λ x, Engine.finish h (Engine.projectId x) (Engine.Failed kind) s))
      as [->|(x & _ & _ & _ & ->)]; [apply same_refl | apply same_finish].
  - unfold Engine.cancel.
    destruct (Engine.sessions s !! h) as [x|] eqn:Hx; [|left; apply same_refl].
    destruct (Engine.state x); try (left; apply same_refl).
    + left. eapply same_trans; [|apply same_finish]. apply same_pools.
    + left. apply same_finish.
    + right. exists h, Engine.system, [Engine.TextBlock "Session cancelled"].
      eapply appended_then_same; [now apply (appended_emit _ _ _ s x) | apply same_finish].
  - left. apply same_pools.
Qed.

Lemma pushed_app (a b : list Engine.Message) : pushed (a ++ b) = pushed a ++ pushed b.
Proof. unfold pushed. apply fmap_app. Qed.

Lemma step_in_order e s : transcripts_in_order s → transcripts_in_order (Engine.step s e).
Proof.
  intros Hs h. destruct (Hs h) as [Hobs Hseq].
  destruct (step_transcripts e s) as [Hsame|(k & r & c & Happ)].
  - destruct (Hsame h) as [-> ->]. now split.
  - destruct (Happ h) as [-> ->]. rewrite pushed_app, Hobs.
    destruct (Nat.eqb_spec k h) as [->|Hne]; simpl.
    + split; [reflexivity|]. intros i m Hi.
      apply lookup_app_Some in Hi as [Hi|[Hlen Hi]]; [now apply Hseq|].
      destruct (i - length (transcript_of s h)) as [|j] eqn:E; [|discriminate].
      injection Hi as <-. simpl. lia.
    + rewrite !app_nil_r. now split.
Qed.

Lemma init_in_order : transcripts_in_order Engine.init.
Proof. intros h. split; [reflexivity|]. intros i m Hi. destruct i; discriminate. Qed.

Lemma run_in_order evs : ∀ s, transcripts_in_order s → transcripts_in_order (Engine.run s evs).
Proof.
  induction evs as [|e evs IH]; intros s Hs; simpl; [exact Hs|].
  apply IH. now apply step_in_order.
Qed.

Lemma run_prefix evs : ∀ s h, transcript_of s h `prefix_of` transcript_of (Engine.run s evs) h.
Proof.
  induction evs as [|e evs IH]; intros s h; simpl; [reflexivity|].
  etrans; [|apply IH].
  destruct (step_transcripts e s) as [Hsame|(k & r & c & Happ)].
  - destruct (Hsame h) as [-> _]. reflexivity.
  - destruct (Happ h) as [-> _]. now apply prefix_app_r.
Qed.

Lemma run_app (s : Engine.Scheduler) (a b : list Engine.Event) :
  Engine.run s (a ++ b) = Engine.run (Engine.run s a) b.
Proof. unfold Engine.run. apply fold_left_app. Qed.

(** C3: in every reachable state and for every Session, whatever its
    provider, the sequence numbers of the transcript count up one by one
    with no gap, the push stream shows a consumer exactly that transcript
    under those numbers, and the transcript is append-only: after any
    further events the Session is still there, for the same provider, and
    its earlier transcript is a prefix of the later one. *)
Theorem transcript_append_only (evs : list Engine.Event) (h : nat)
    (x : Engine.Session) :
  Engine.sessions (Engine.run Engine.init evs) !! h = Some x →
  (∀ i m, Engine.transcript x !! i = Some m → Engine.sequence m = i)
  ∧ (∀ i m m', Engine.transcript x !! i = Some m →
       Engine.transcript x !! S i = Some m' →
       Engine.sequence m' = S (Engine.sequence m))
  ∧ Engine.observed h (Engine.outbox (Engine.run Engine.init evs))
    = (λ m, (Engine.sequence m, m)) <$> Engine.transcript x
  ∧ ∀ more, ∃ x',
      Engine.sessions (Engine.run Engine.init (evs ++ more)) !! h = Some x'
      ∧ Engine.providerId x' = Engine.providerId x
      ∧ Engine.transcript x `prefix_of` Engine.transcript x'.
Proof.
  intros Hx.
  pose proof (run_in_order evs Engine.init init_in_order h) as [Hobs Hseq].
  assert (Ht : transcript_of (Engine.run Engine.init evs) h = Engine.transcript x)
    by (unfold transcript_of; now rewrite Hx).
  rewrite Ht in Hobs, Hseq.
  split; [exact Hseq|]. split; [|split; [exact Hobs|]].
  - intros i m m' Hm Hm'. now rewrite (Hseq _ _ Hm), (Hseq _ _ Hm').
  - intros more. rewrite run_app.
    destruct (run_kept more _ h x Hx) as (x' & Hx' & _ & _ & Hprov).
    exists x'. split; [exact Hx'|]. split; [exact Hprov|].
    pose proof (run_prefix more (Engine.run Engine.init evs) h) as Hpre.
    rewrite Ht in Hpre. unfold transcript_of in Hpre. now rewrite Hx' in Hpre.
Qed.

Lemma transcript_append_only_witness :
  (Engine.observed 0 (Engine.outbox (Engine.run Engine.init chat))).*1 = [0; 1; 2].
Proof.
  destruct (transcript_append_only chat 0
              (Engine.mkSession "f1" "proj" Engine.Claude Engine.Cancelled
                 [Engine.mkMessage Engine.agent [Engine.TextBlock "Reading the code"] 0;
                  Engine.mkMessage Engine.tool [Engine.ToolResult "ok"] 1;
                  Engine.mkMessage Engine.system [Engine.TextBlock "Session cancelled"] 2]))
    as (_ & _ & Hobs & _); [vm_compute; reflexivity|].
  rewrite Hobs. reflexivity.
Defined.

End SchedulerClaims.

(** ** The worktree coordinator *)

Section CoordinatorFacts.

Import Coordinator.

Local Open Scope list_scope.
Local Open Scope nat_scope.

Variable worktree_path : string → string → string.
Variable branch_name : string → string.

Implicit Types (s : State) (k : Key) (h : nat) (l : list (nat * Key)).

Lemma same_key_eq (a b : Key) : same_key a b = true ↔ a = b.
Proof.
  destruct a as [a1 a2], b as [b1 b2]. unfold same_key. simpl.
  rewrite andb_true_iff, !String.eqb_eq. split; [intros [-> ->] | intros [= -> ->]]; auto.
Qed.

Lemma is_entry_eq h k (r : nat * Key) : is_entry h k r = true ↔ r = (h, k).
Proof.
  destruct r as [h' k']. unfold is_entry. simpl.
  rewrite andb_true_iff, Nat.eqb_eq, same_key_eq.
  split; [intros [-> ->] | intros [= -> ->]]; auto.
Qed.

Lemma in_use_keys k s : in_use k s = true ↔ k ∈ (reservations s).*2.
Proof.
  unfold in_use. rewrite existsb_exists, list_elem_of_fmap. split.
  - intros (r & Hr & Hk). apply same_key_eq in Hk. exists r.
    split; [now symmetry | now apply list_elem_of_In].
  - intros (r & -> & Hr). exists r. split; [now apply list_elem_of_In|].
    now apply same_key_eq.
Qed.

Lemma held_entry h k l : existsb (is_entry h k) l = true ↔ (h, k) ∈ l.
Proof.
  rewrite existsb_exists. split.
  - intros (r & Hr & He). apply is_entry_eq in He as ->. now apply list_elem_of_In.
  - intros Hin. exists (h, k). split; [now apply list_elem_of_In | now apply is_entry_eq].
Qed.

Lemma elem_of_filter_bool {A} (f : A → bool) (a : list A) (y : A) :
  y ∈ List.filter f a ↔ y ∈ a ∧ f y = true.
Proof. rewrite !list_elem_of_In. apply filter_In. Qed.

Lemma keys_filter_subset (f : nat * Key → bool) l k :
  k ∈ (List.filter f l).*2 → k ∈ l.*2.
Proof.
  rewrite !list_elem_of_fmap. intros (r & -> & Hr).
  apply elem_of_filter_bool in Hr as [Hr _]. now exists r.
Qed.

Lemma keys_filter_NoDup (f : nat * Key → bool) l :
  NoDup l.*2 → NoDup (List.filter f l).*2.
Proof.
  induction l as [|r l IH]; simpl; [constructor|].
  intros Hnd. apply NoDup_cons in Hnd as [Hr Hnd].
  destruct (f r); simpl; [|now apply IH].
  apply NoDup_cons. split; [|now apply IH].
  intros Hin. apply Hr. now apply keys_filter_subset in Hin.
Qed.

(** Once the holder lets go, nobody holds the worktree. *)
Lemma released_free h k l :
  NoDup l.*2 → (h, k) ∈ l →
  k ∉ (List.filter (λ r, negb (is_entry h k r)) l).*2.
Proof.
  induction l as [|r l IH]; simpl; intros Hnd Hin; [inversion Hin|].
  apply NoDup_cons in Hnd as [Hr Hnd].
  destruct (is_entry h k r) eqn:E; simpl.
  - apply is_entry_eq in E as ->. simpl in Hr.
    intros Hk. apply Hr. now apply keys_filter_subset in Hk.
  - apply elem_of_cons in Hin as [Heq|Hin].
    + symmetry in Heq. apply is_entry_eq in Heq. congruence.
    + apply not_elem_of_cons. split; [|now apply IH].
      intros ->. apply Hr. apply list_elem_of_fmap. now exists (h, r.2).
Qed.

Lemma NoDup_snoc {A} (a : list A) (y : A) : NoDup a → y ∉ a → NoDup (a ++ [y]).
Proof.
  intros Hnd Hy. apply NoDup_app. split; [exact Hnd|]. split.
  - intros z Hz Hz'. apply list_elem_of_singleton in Hz' as ->. now apply Hy.
  - apply NoDup_singleton.
Qed.

(** No worktree is held twice, whatever was asked of the coordinator. *)
Lemma apply_exclusive s o :
  NoDup (reservations s).*2 →
  NoDup (reservations (apply worktree_path branch_name s o).1).*2.
Proof.
  intros Hnd. destruct o as [h k|h k|h k|k]; simpl.
  - unfold acquire. destruct (in_use k s) eqn:E; simpl; [exact Hnd|].
    rewrite fmap_app. simpl. apply NoDup_snoc; [exact Hnd|].
    intros Hin. apply in_use_keys in Hin. congruence.
  - unfold timeout. destruct (existsb _ _); exact Hnd.
  - unfold release. destruct (existsb (is_entry h k) (reservations s)) eqn:E; [|exact Hnd].
    apply held_entry in E.
    destruct (next_waiter k (waiting s)) as [[h' rest]|]; simpl.
    + rewrite fmap_app. simpl. apply NoDup_snoc.
      * now apply keys_filter_NoDup.
      * now apply released_free.
    + now apply keys_filter_NoDup.
  - unfold remove. destruct (in_use k s); exact Hnd.
Qed.

Lemma run_exclusive ops : ∀ s,
  NoDup (reservations s).*2 →
  NoDup (reservations (run worktree_path branch_name s ops)).*2.
Proof.
  induction ops as [|o ops IH]; intros s Hnd; simpl; [exact Hnd|].
  apply IH. now apply apply_exclusive.
Qed.

Lemma ensure_path k s : paths_fixed worktree_path s → path (ensure worktree_path branch_name k s) = worktree_path k.1 k.2.
Proof.
  intros Hp. unfold paths_fixed in Hp. unfold ensure.
  destruct (worktrees s !! k) as [w|] eqn:E; simpl; [|reflexivity].
  now apply Hp.
Qed.

Lemma grant_paths h k s :
  paths_fixed worktree_path s → paths_fixed worktree_path (grant worktree_path branch_name h k s).1.
Proof.
  intros Hp k' w. unfold grant. simpl.
  destruct (decide (k = k')) as [<-|Hne].
  - rewrite lookup_insert_eq. intros [= <-]. now apply ensure_path.
  - rewrite lookup_insert_ne by exact Hne. exact (Hp k' w).
Qed.

Lemma apply_paths s o :
  paths_fixed worktree_path s → paths_fixed worktree_path (apply worktree_path branch_name s o).1.
Proof.
  intros Hp. destruct o as [h k|h k|h k|k]; simpl.
  - unfold acquire. destruct (in_use k s); [exact Hp | now apply grant_paths].
  - unfold timeout. destruct (existsb _ _); exact Hp.
  - unfold release. destruct (existsb _ _); [|exact Hp].
    destruct (next_waiter k (waiting s)) as [[h' rest]|]; [|exact Hp].
    now apply grant_paths.
  - unfold remove. destruct (in_use k s); [exact Hp|].
    intros k' w. simpl. destruct (decide (k = k')) as [<-|Hne].
    + rewrite lookup_delete_eq. discriminate.
    + rewrite lookup_delete_ne by exact Hne. exact (Hp k' w).
Qed.

Lemma run_paths ops : ∀ s,
  paths_fixed worktree_path s → paths_fixed worktree_path (run worktree_path branch_name s ops).
Proof.
  induction ops as [|o ops IH]; intros s Hp; simpl; [exact Hp|].
  apply IH. now apply apply_paths.
Qed.

End CoordinatorFacts.

Lemma one_holder (l : list (nat * Coordinator.Key)) (h1 h2 : nat) (k : Coordinator.Key) :
  NoDup l.*2 → (h1, k) ∈ l → (h2, k) ∈ l → h1 = h2.
Proof.
  induction l as [|r l IH]; simpl; intros Hnd H1 H2; [inversion H1|].
  apply NoDup_cons in Hnd as [Hr Hnd].
  apply elem_of_cons in H1 as [E1|H1], H2 as [E2|H2].
  - congruence.
  - subst r. exfalso. apply Hr. apply list_elem_of_fmap. now exists (h2, k).
  - subst r. exfalso. apply Hr. apply list_elem_of_fmap. now exists (h1, k).
  - now apply IH.
Qed.

(** C6: at no reachable state is a worktree held by two Sessions.  While
    it is held, a further [acquire] is told nothing (it blocks; no worktree,
    so no other path, is handed out) and, when it gives up, fails with
    [WorktreeBusy]; [remove] fails with [WorktreeBusy] and changes nothing.
    Whenever a worktree is granted it is the existing one when there is
    one, it lives at the path of its project and feature, and it was free
    or has just been released by its holder. *)
Theorem worktree_acquisition_exclusive (worktree_path : string → string → string)
    (branch_name : string → string) (ops : list Coordinator.Op) :
  let s := Coordinator.run worktree_path branch_name Coordinator.init ops in
  NoDup (Coordinator.reservations s).*2
  ∧ (∀ h1 h2 k, (h1, k) ∈ Coordinator.reservations s →
       (h2, k) ∈ Coordinator.reservations s → h1 = h2)
  ∧ (∀ h k, Coordinator.in_use k s = true →
       let blocked := Coordinator.acquire worktree_path branch_name h k s in
       blocked.2 = []
       ∧ Coordinator.reservations blocked.1 = Coordinator.reservations s
       ∧ Coordinator.worktrees blocked.1 = Coordinator.worktrees s
       ∧ (Coordinator.timeout h k blocked.1).2
         = [Coordinator.AcquireFailed h k Engine.WorktreeBusy]
       ∧ Coordinator.remove k s = (s, [Coordinator.RemoveFailed k Engine.WorktreeBusy]))
  ∧ (∀ o h k w,
       Coordinator.Granted h k w ∈ (Coordinator.apply worktree_path branch_name s o).2 →
       Coordinator.path w = worktree_path k.1 k.2
       ∧ (∀ w0, Coordinator.worktrees s !! k = Some w0 → w = w0)
       ∧ ((o = Coordinator.Acquire h k ∧ Coordinator.in_use k s = false)
          ∨ (∃ h', o = Coordinator.Release h' k
                   ∧ (h', k) ∈ Coordinator.reservations s))).
Proof.
  intros s.
  assert (Hnd : NoDup (Coordinator.reservations s).*2)
    by (apply run_exclusive; constructor).
  assert (Hp : Coordinator.paths_fixed worktree_path s).
  { apply run_paths. intros k w Hw. simpl in Hw. now rewrite lookup_empty in Hw. }
  split; [exact Hnd|]. split; [|split].
  - intros h1 h2 k. now apply one_holder.
  - intros h k Huse blocked. unfold blocked, Coordinator.acquire. rewrite Huse. simpl.
    repeat split.
    + unfold Coordinator.timeout. simpl.
      assert (E : existsb (Coordinator.is_entry h k) (Coordinator.waiting s ++ [(h, k)]) = true).
      { apply held_entry. apply elem_of_app. right. apply list_elem_of_here. }
      now rewrite E.
    + unfold Coordinator.remove. now rewrite Huse.
  - intros o h k w Hin.
    assert (Hens : ∀ k0, Coordinator.path (Coordinator.ensure worktree_path branch_name k0 s)
                         = worktree_path k0.1 k0.2
                   ∧ ∀ w0, Coordinator.worktrees s !! k0 = Some w0 →
                       Coordinator.ensure worktree_path branch_name k0 s = w0).
    { intros k0. split; [now apply ensure_path|].
      intros w0 Hw0. unfold Coordinator.ensure. now rewrite Hw0. }
    destruct o as [h0 k0|h0 k0|h0 k0|k0]; simpl in Hin.
    + unfold Coordinator.acquire in Hin.
      destruct (Coordinator.in_use k0 s) eqn:Huse; simpl in Hin; [inversion Hin|].
      apply list_elem_of_singleton in Hin. injection Hin as -> -> ->.
      destruct (Hens k0) as [H1 H2]. split; [exact H1|]. split; [exact H2|].
      left. now split.
    + unfold Coordinator.timeout in Hin.
      destruct (existsb _ _); simpl in Hin; [|inversion Hin].
      apply list_elem_of_singleton in Hin. discriminate.
    + unfold Coordinator.release in Hin.
      destruct (existsb (Coordinator.is_entry h0 k0) (Coordinator.reservations s)) eqn:E;
        simpl in Hin; [|inversion Hin].
      apply held_entry in E.
      destruct (Coordinator.next_waiter k0 (Coordinator.waiting s)) as [[h' rest]|];
        simpl in Hin; [|inversion Hin].
      apply list_elem_of_singleton in Hin. injection Hin as -> -> ->.
      destruct (Hens k0) as [H1 H2]. split; [exact H1|]. split; [exact H2|].
      right. now exists h0.
    + unfold Coordinator.remove in Hin.
      destruct (Coordinator.in_use k0 s); simpl in Hin;
        apply list_elem_of_singleton in Hin; discriminate.
Qed.

Lemma worktree_acquisition_exclusive_witness :
  Coordinator.in_use ("/work/app", "f1")
    (Coordinator.run sample_worktree_path sample_branch_name Coordinator.init
       held_by_one) = true
  ∧ (Coordinator.apply sample_worktree_path sample_branch_name
       (Coordinator.run sample_worktree_path sample_branch_name Coordinator.init
          held_by_one)
       (Coordinator.Acquire 2 ("/work/app", "f1"))).2 = [].
Proof.
  assert (H : Coordinator.in_use ("/work/app", "f1")
                (Coordinator.run sample_worktree_path sample_branch_name Coordinator.init
                   held_by_one) = true)
    by (vm_compute; reflexivity).
  split; [exact H|].
  destruct (worktree_acquisition_exclusive sample_worktree_path sample_branch_name
              held_by_one) as (_ & _ & Hblock & _).
  destruct (Hblock 2 ("/work/app", "f1") H) as (Hnone & _).
  exact Hnone.
Defined.


(** * Further properties of the sources *)

(** ** Strings *)

Lemma append_nil_r (a : string) : a ++ "" = a.
Proof.
  induction a as [|c a IH]; [reflexivity|].
  change (String c (a ++ "") = String c a). now rewrite IH.
Qed.

Lemma startsWith_append (p rest : string) : JSText.startsWith (p ++ rest) p = true.
Proof.
  induction p as [|c p IH]; [reflexivity|].
  change (JSText.startsWith (String c (p ++ rest)) (String c p) = true). simpl.
  now rewrite Ascii.eqb_refl, IH.
Qed.

Lemma startsWith_split (s p : string) :
  JSText.startsWith s p = true → ∃ rest, s = p ++ rest.
Proof.
  revert s. induction p as [|c p IH]; intros s H.
  - now exists s.
  - destruct s as [|d s]; simpl in H; [discriminate|].
    apply andb_true_iff in H as [Hc Hp]. apply Ascii.eqb_eq in Hc as ->.
    destruct (IH s Hp) as [rest ->]. now exists rest.
Qed.

(** [includes] finds [sub] exactly when it occurs somewhere in [s]. *)
Lemma includes_spec (s sub : string) :
  JSText.includes s sub = true ↔ ∃ a b, s = a ++ sub ++ b.
Proof.
  split.
  - induction s as [|c s IH]; simpl; intros H.
    + rewrite orb_false_r in H. apply startsWith_split in H as [rest ->].
      now exists "", rest.
    + apply orb_true_iff in H as [H|H].
      * apply startsWith_split in H as [rest ->]. now exists "", rest.
      * destruct (IH H) as (a & b & ->). now exists (String c a), b.
  - intros (a & b & ->). induction a as [|c a IH].
    + change ("" ++ sub ++ b) with (sub ++ b).
      destruct (sub ++ b) eqn:E; simpl; rewrite <- E, startsWith_append; reflexivity.
    + change (String c a ++ sub ++ b) with (String c (a ++ sub ++ b)). simpl.
      rewrite IH. apply orb_true_r.
Qed.

Lemma toLowerCase_append (a b : string) :
  JS.toLowerCase (a ++ b) = JS.toLowerCase a ++ JS.toLowerCase b.
Proof.
  induction a as [|c a IH]; [reflexivity|].
  change (String (JS.lower_ascii c) (JS.toLowerCase (a ++ b))
          = String (JS.lower_ascii c) (JS.toLowerCase a ++ JS.toLowerCase b)).
  now rewrite IH.
Qed.

Lemma lower_ascii_idem (c : ascii) : JS.lower_ascii (JS.lower_ascii c) = JS.lower_ascii c.
Proof. destruct c as [[] [] [] [] [] [] [] []]; reflexivity. Qed.

Lemma toLowerCase_idem (s : string) : JS.toLowerCase (JS.toLowerCase s) = JS.toLowerCase s.
Proof.
  induction s as [|c s IH]; simpl; [reflexivity|].
  now rewrite lower_ascii_idem, IH.
Qed.

Lemma toLowerCase_empty (s : string) : JS.toLowerCase s = "" ↔ s = "".
Proof. destruct s; simpl; split; intros H; try reflexivity; discriminate. Qed.

(** ** The Content-Type middleware *)

(** X1: [requireJsonContentType] lets every request through whose method
    is not POST, PUT or PATCH.  For those three methods it calls [next()]
    exactly when a Content-Type header is present whose lower-cased text
    contains application/json somewhere, and answers 415 otherwise; so a
    charset parameter, other letter case, or any surrounding text is
    accepted. *)
Theorem json_content_type_gate (req : JsonContentType.HttpRequest) :
  let outcome := JsonContentType.requireJsonContentType req in
  (JsonContentType.method req ∉ ["POST"; "PUT"; "PATCH"] →
     outcome = ValidatePaths.CallsNext)
  ∧ (JsonContentType.method req ∈ ["POST"; "PUT"; "PATCH"] →
       (outcome = ValidatePaths.CallsNext
          ↔ ∃ contentType a b,
              JsonContentType.content_type req = Some contentType
              ∧ JS.toLowerCase contentType = a ++ "application/json" ++ b)
       ∧ (outcome ≠ ValidatePaths.CallsNext →
            outcome = ValidatePaths.Responds
              (mkResponse 415
                 [("success", JS.Bool false); ("error", JS.Str "Unsupported Media Type");
                  ("message", JS.Str "Content-Type header must be application/json")])))
  ∧ (∀ a json b,
       JsonContentType.method req ∈ ["POST"; "PUT"; "PATCH"] →
       JS.toLowerCase json = "application/json" →
       JsonContentType.content_type req = Some (a ++ json ++ b) →
       outcome = ValidatePaths.CallsNext).
Proof.
  intros outcome.
  assert (Hm : existsb (String.eqb (JsonContentType.method req))
                 JsonContentType.METHODS_REQUIRING_JSON = true
               ↔ JsonContentType.method req ∈ ["POST"; "PUT"; "PATCH"]).
  { unfold JsonContentType.METHODS_REQUIRING_JSON. simpl.
    rewrite !elem_of_cons, elem_of_nil, !orb_true_iff, !String.eqb_eq.
    intuition discriminate. }
  assert (Hpass : JsonContentType.method req ∈ ["POST"; "PUT"; "PATCH"] →
            (outcome = ValidatePaths.CallsNext
             ↔ ∃ contentType a b,
                 JsonContentType.content_type req = Some contentType
                 ∧ JS.toLowerCase contentType = a ++ "application/json" ++ b)).
  { intros Hin. apply Hm in Hin.
    unfold outcome, JsonContentType.requireJsonContentType. rewrite Hin. simpl.
    destruct (JsonContentType.content_type req) as [ct|].
    - destruct (JSText.includes (JS.toLowerCase ct) "application/json") eqn:Hinc.
      + apply includes_spec in Hinc as (a & b & Hab).
        assert (ct ≠ "") as Hne.
        { intros ->. destruct a; discriminate. }
        apply String.eqb_neq in Hne. rewrite Hne. simpl.
        split; [intros _; now exists ct, a, b | reflexivity].
      + rewrite orb_true_r. split; [discriminate|].
        intros (ct' & a & b & [= <-] & Hab).
        assert (JSText.includes (JS.toLowerCase ct) "application/json" = true)
          by (apply includes_spec; now exists a, b).
        congruence.
    - split; [discriminate|]. intros (ct & a & b & Hct & _). discriminate. }
  split; [|split].
  - intros Hnot. unfold outcome, JsonContentType.requireJsonContentType.
    destruct (existsb _ _) eqn:E; [|reflexivity].
    destruct Hnot. now apply Hm.
  - intros Hin. split; [now apply Hpass|].
    intros Hne.
    assert (Hcases : outcome = ValidatePaths.CallsNext
                     ∨ outcome = ValidatePaths.Responds JsonContentType.unsupported).
    { unfold outcome, JsonContentType.requireJsonContentType.
      destruct (negb (existsb _ _)); [now left|].
      destruct (JsonContentType.content_type req) as [ct|]; [|now right].
      destruct (negb (JS.truthy (JS.Str ct))
                || negb (JSText.includes (JS.toLowerCase ct) "application/json"));
        [now right | now left]. }
    destruct Hcases as [Hc|Hc]; [contradiction | exact Hc].
  - intros a json b Hin Hjson Hct. apply (Hpass Hin).
    exists (a ++ json ++ b), (JS.toLowerCase a), (JS.toLowerCase b).
    split; [exact Hct|]. now rewrite !toLowerCase_append, Hjson.
Qed.

Lemma json_content_type_gate_witness :
  JsonContentType.requireJsonContentType
    (JsonContentType.mkHttpRequest "POST" (Some "Application/JSON; charset=utf-8"))
  = ValidatePaths.CallsNext.
Proof.
  destruct (json_content_type_gate
              (JsonContentType.mkHttpRequest "POST"
                 (Some "Application/JSON; charset=utf-8"))) as (_ & _ & H).
  apply (H "" "Application/JSON" "; charset=utf-8");
    [simpl; rewrite !elem_of_cons; now left | reflexivity | reflexivity].
Defined.


(** ** More on the path-parameter middleware *)

Lemma checked_param_actual (req : Request) (name : string) :
  ValidatePaths.checked_param req name
  = if JS.endsWith name "?" then
      ValidatePaths.checked_scalar (ValidatePaths.getParamValue req (actual_name name))
    else if JS.endsWith name "[]" then
      match ValidatePaths.getParamValue req (actual_name name) with
      | JS.Arr values => ValidatePaths.string_elements values
      | _ => []
      end
    else ValidatePaths.checked_scalar (ValidatePaths.getParamValue req (actual_name name)).
Proof.
  unfold ValidatePaths.checked_param, actual_name.
  destruct (JS.endsWith name "?"); [reflexivity|].
  destruct (JS.endsWith name "[]"); reflexivity.
Qed.

Lemma outcome_of_checked (validatePath : string → Result unit) (names : list string)
    (req : Request) :
  ValidatePaths.validatePathParams validatePath names req
  = match ValidatePaths.validate_strings validatePath
            (ValidatePaths.checked_values req names) with
    | Ok _ => ValidatePaths.CallsNext
    | Throw (PathNotAllowedError m) =>
        ValidatePaths.Responds
          (mkResponse 403 [("success", JS.Bool false); ("error", JS.Str m)])
    | Throw e => ValidatePaths.Rethrows e
    end.
Proof.
  unfold ValidatePaths.validatePathParams. now rewrite validate_all_checked.
Qed.

(** X2: when the body defines every parameter the middleware is asked to
    check (a [null] counts as defined), the query string is never read:
    the outcome is the same whatever the query holds.  A body value thus
    hides a query value of the same name from validation. *)
Theorem body_values_hide_query (validatePath : string → Result unit)
    (names : list string) (b : gmap string JS.Value)
    (q q' : option (gmap string JS.Value)) :
  (∀ name, name ∈ names → JS.get b (actual_name name) ≠ JS.Undefined) →
  ValidatePaths.validatePathParams validatePath names (mkRequest (Some b) q)
  = ValidatePaths.validatePathParams validatePath names (mkRequest (Some b) q').
Proof.
  intros Hdef. rewrite !outcome_of_checked.
  assert (E : ValidatePaths.checked_values (mkRequest (Some b) q) names
              = ValidatePaths.checked_values (mkRequest (Some b) q') names);
    [|now rewrite E].
  unfold ValidatePaths.checked_values.
  induction names as [|n names IH]; [reflexivity|]. simpl.
  rewrite IH by (intros m Hm; apply Hdef; now apply list_elem_of_further).
  f_equal. rewrite !checked_param_actual.
  assert (Hv : ∀ o, ValidatePaths.getParamValue (mkRequest (Some b) o) (actual_name n)
                    = JS.get b (actual_name n)).
  { intros o. unfold ValidatePaths.getParamValue. simpl.
    specialize (Hdef n (list_elem_of_here _ _)). revert Hdef.
    unfold JS.get, JS.member.
    destruct (b !! actual_name n) as [v|]; simpl; [|congruence].
    destruct v; try reflexivity. congruence. }
  now rewrite !Hv.
Qed.

Lemma body_values_hide_query_witness :
  ValidatePaths.validatePathParams refuse_all ["projectPath"]
    (mkRequest (Some (<["projectPath" := JS.Null]> ∅))
               (Some (<["projectPath" := JS.Str "/etc"]> ∅)))
  = ValidatePaths.validatePathParams refuse_all ["projectPath"]
      (mkRequest (Some (<["projectPath" := JS.Null]> ∅)) None).
Proof.
  apply body_values_hide_query.
  intros name Hname. apply list_elem_of_singleton in Hname as ->.
  vm_compute. discriminate.
Defined.

(** X3: the first checked value that [validatePath] refuses decides the
    outcome, and no later value matters: a [PathNotAllowedError] gives the
    403 answer carrying that error's message, any other error is thrown on
    to express. *)
Theorem first_refusal_decides (validatePath : string → Result unit)
    (names : list string) (req : Request) (before after : list string)
    (v : string) (e : Exn) :
  ValidatePaths.checked_values req names = (before ++ v :: after)%list →
  (∀ u, u ∈ before → validatePath u = Ok tt) →
  validatePath v = Throw e →
  ValidatePaths.validatePathParams validatePath names req
  = match e with
    | PathNotAllowedError m =>
        ValidatePaths.Responds
          (mkResponse 403 [("success", JS.Bool false); ("error", JS.Str m)])
    | _ => ValidatePaths.Rethrows e
    end.
Proof.
  intros Hchecked Hbefore Hv. rewrite outcome_of_checked, Hchecked.
  rewrite validate_strings_app.
  assert (ValidatePaths.validate_strings validatePath before = Ok tt) as ->
    by now apply validate_strings_ok.
  simpl. rewrite Hv. simpl. destruct e; reflexivity.
Qed.

Lemma first_refusal_decides_witness :
  ValidatePaths.validatePathParams sample_validatePath
    ["projectPath"; "imagePaths[]"]
    (mkRequest
       (Some (<["projectPath" := JS.Str "/work/app"]>
              (<["imagePaths" := JS.Arr [JS.Str "/tmp/a.png"; JS.Str "/etc/passwd"]]> ∅)))
       None)
  = ValidatePaths.Responds
      (mkResponse 403 [("success", JS.Bool false); ("error", JS.Str "/tmp/a.png")]).
Proof.
  apply (first_refusal_decides sample_validatePath _ _ ["/work/app"] ["/etc/passwd"]
           "/tmp/a.png" (PathNotAllowedError "/tmp/a.png")).
  - vm_compute. reflexivity.
  - intros u Hu. apply list_elem_of_singleton in Hu as ->. reflexivity.
  - reflexivity.
Defined.

Lemma validate_all_app (validatePath : string → Result unit) (req : Request)
    (a b : list string) :
  ValidatePaths.validate_all validatePath req (a ++ b)%list
  = (ValidatePaths.validate_all validatePath req a ;;;
     ValidatePaths.validate_all validatePath req b).
Proof.
  induction a as [|n a IH]; simpl; [reflexivity|].
  destruct (ValidatePaths.validate_param validatePath req n); simpl; [exact IH | reflexivity].
Qed.

(** X4: the [?] suffix changes nothing.  A plain parameter name is treated
    exactly like the same name marked optional, anywhere in the list: the
    middleware never refuses a request because a parameter is missing. *)
Theorem optional_mark_is_inert (validatePath : string → Result unit)
    (before after : list string) (name : string) (req : Request) :
  JS.endsWith name "?" = false → JS.endsWith name "[]" = false →
  ValidatePaths.validatePathParams validatePath (before ++ name :: after)%list req
  = ValidatePaths.validatePathParams validatePath (before ++ (name ++ "?")%string :: after)%list req.
Proof.
  intros H1 H2. unfold ValidatePaths.validatePathParams.
  rewrite !validate_all_app. simpl.
  assert (E : ValidatePaths.validate_param validatePath req (name ++ "?")
              = ValidatePaths.validate_param validatePath req name);
    [|now rewrite E].
  unfold ValidatePaths.validate_param. rewrite endsWith_append, H1, H2.
  change 1%nat with (String.length "?"). now rewrite slice_end_append.
Qed.

Lemma optional_mark_is_inert_witness :
  ValidatePaths.validatePathParams refuse_all ["projectPath"] (mkRequest None None)
  = ValidatePaths.validatePathParams refuse_all ["projectPath?"] (mkRequest None None).
Proof.
  apply (optional_mark_is_inert refuse_all [] [] "projectPath"); reflexivity.
Defined.


(** ** Project diffs and the worktree fallback *)

(** X5: the main-project diffs handler never reports a git failure.  With
    a body, the answer is 400 exactly when [projectPath] is missing or
    falsy, and otherwise 200 with [success: true]: the diffs git produced,
    or an empty diff with [hasChanges: false] when git threw. *)
Theorem project_diffs_swallow_git_errors (env : ProjectDiffs.Env) (req : Request)
    (b : gmap string JS.Value) :
  body req = Some b →
  let answer := ProjectDiffs.createDiffsHandler env req in
  let projectPath := JS.get b "projectPath" in
  (JS.truthy projectPath = false → answer = failure 400 "projectPath required")
  ∧ (JS.truthy projectPath = true →
       status answer = 200%Z
       ∧ (∀ d, ProjectDiffs.getGitRepositoryDiffs env projectPath = Ok d →
            payload answer = WorktreeDiffs.diff_payload d)
       ∧ (∀ e, ProjectDiffs.getGitRepositoryDiffs env projectPath = Throw e →
            payload answer
            = [("success", JS.Bool true); ("diff", JS.Str "");
               ("files", JS.Arr []); ("hasChanges", JS.Bool false)])).
Proof.
  intros Hb answer projectPath. unfold answer, ProjectDiffs.createDiffsHandler.
  rewrite Hb. fold projectPath. split.
  - intros ->. reflexivity.
  - intros ->. simpl.
    destruct (ProjectDiffs.getGitRepositoryDiffs env projectPath) as [d|e]; simpl;
      repeat split; intros; simplify_eq; reflexivity.
Qed.

Lemma project_diffs_swallow_git_errors_witness :
  ProjectDiffs.createDiffsHandler root_only_project
    (mkRequest (Some (<["projectPath" := JS.Str "/nowhere"]> ∅)) None)
  = json [("success", JS.Bool true); ("diff", JS.Str "");
          ("files", JS.Arr []); ("hasChanges", JS.Bool false)].
Proof.
  destruct (project_diffs_swallow_git_errors root_only_project
              (mkRequest (Some (<["projectPath" := JS.Str "/nowhere"]> ∅)) None)
              (<["projectPath" := JS.Str "/nowhere"]> ∅) eq_refl) as [_ H].
  destruct H as (Hstatus & _ & Hempty); [vm_compute; reflexivity|].
  specialize (Hempty (Error "fatal: not a git repository")).
  destruct (ProjectDiffs.createDiffsHandler root_only_project _) as [st pl].
  simpl in Hstatus, Hempty. rewrite Hstatus, Hempty; [reflexivity|].
  vm_compute. reflexivity.
Defined.

(** X6: when the feature's worktree cannot be used (it is inaccessible, or
    its diff throws), the worktree diffs handler answers exactly what the
    main-project diffs handler answers for the same [projectPath]. *)
Theorem worktree_fallback_is_project_diffs (wenv : WorktreeDiffs.Env)
    (penv : ProjectDiffs.Env) (req : Request) (b : gmap string JS.Value)
    (p f : string) (e : Exn) :
  body req = Some b →
  JS.get b "projectPath" = JS.Str p → JS.get b "featureId" = JS.Str f →
  p ≠ "" → f ≠ "" →
  (∀ path, ProjectDiffs.getGitRepositoryDiffs penv (JS.Str path)
           = WorktreeDiffs.getGitRepositoryDiffs wenv path) →
  (WorktreeDiffs.fs_access wenv (WorktreeDiffs.worktreePath wenv p f) ;;;
   WorktreeDiffs.getGitRepositoryDiffs wenv (WorktreeDiffs.worktreePath wenv p f))
  = Throw e →
  response (WorktreeDiffs.createDiffsHandler wenv req)
  = ProjectDiffs.createDiffsHandler penv req.
Proof.
  intros Hb Hp Hf Hpne Hfne Hsame Hfail.
  unfold WorktreeDiffs.createDiffsHandler, ProjectDiffs.createDiffsHandler.
  rewrite (handler_body_strings wenv req b p f Hb Hp Hf Hpne Hfne), Hb, Hp.
  apply String.eqb_neq in Hpne. simpl JS.truthy. rewrite Hpne. simpl negb.
  rewrite Hsame.
  unfold handle, attempt, ebind, call, WorktreeDiffs.diffs_of, ebind, call, ret,
    WorktreeDiffs.mainWorktreePath.
  destruct (WorktreeDiffs.fs_access wenv (WorktreeDiffs.worktreePath wenv p f))
    as [[]|e1]; simpl in *.
  - destruct (WorktreeDiffs.getGitRepositoryDiffs wenv (WorktreeDiffs.worktreePath wenv p f))
      as [d|e2]; [discriminate|]. simpl.
    destruct (WorktreeDiffs.getGitRepositoryDiffs wenv p); reflexivity.
  - destruct (WorktreeDiffs.getGitRepositoryDiffs wenv p); reflexivity.
Qed.

Lemma worktree_fallback_is_project_diffs_witness :
  response (WorktreeDiffs.createDiffsHandler root_only_git diffs_request)
  = ProjectDiffs.createDiffsHandler root_only_project diffs_request.
Proof.
  apply (worktree_fallback_is_project_diffs root_only_git root_only_project
           diffs_request
           (<["projectPath" := JS.Str "/work/app"]>
              (<["featureId" := JS.Str "feature-1"]> ∅))
           "/work/app" "feature-1" (Error "ENOENT: no such file or directory"));
    first [reflexivity | discriminate | (vm_compute; reflexivity) | (intros; reflexivity)].
Defined.


(** ** More on the one-shot handlers *)

Lemma blank_check (t : string) :
  negb (JS.truthy (JS.Str t)) || (String.length (JS.trim t) =? 0)%nat
  = String.eqb (JS.trim t) "".
Proof.
  destruct t as [|a t]; [reflexivity|].
  change (negb (JS.truthy (JS.Str (String a t)))) with false.
  apply length_eqb_zero.
Qed.

(** X7: the title handler reaches the provider at most once, and only for
    a [description] that is a string with something other than blanks in
    it; a request it answers with 400 has made no outside call. *)
Theorem title_validates_before_query (env : QueryEnv) (req : Request) :
  let handled := GenerateTitle.createGenerateTitleHandler env req in
  (status (response handled) = 400%Z → calls handled = [])
  ∧ (calls handled ≠ [] →
       ∃ b d, body req = Some b ∧ JS.get b "description" = JS.Str d
              ∧ JS.trim d ≠ ""
              ∧ calls handled = [SimpleQuery (GenerateTitle.query_options env (JS.trim d))]).
Proof.
  intros handled. unfold handled, GenerateTitle.createGenerateTitleHandler, handle,
    GenerateTitle.handler_body, destructure_body.
  destruct (body req) as [b|]; [|split; [discriminate | intros H; now destruct H]].
  unfold ebind, ret, call.
  destruct (JS.get b "description") as [| | | |d| |] eqn:Hd;
    try (split; [reflexivity | intros H; now destruct H]).
  destruct (negb (JS.truthy (JS.Str d))); [split; [reflexivity | intros H; now destruct H]|].
  rewrite length_eqb_zero.
  destruct (String.eqb_spec (JS.trim d) "") as [Ht|Ht];
    [split; [reflexivity | intros H; now destruct H]|].
  simpl.
  destruct (simpleQuery env _) as [r|e]; simpl.
  - match goal with
    | |- context [if ?c then _ else _] => destruct c
    end; simpl; (split; [discriminate|]); intros _; exists b, d; auto.
  - split; [discriminate|]. intros _. exists b, d. auto.
Qed.

(** X8: for a title request that passes validation the answer is decided
    by the provider alone: its text, trimmed, under [success: true] when
    that is not blank; 500 'Failed to generate title - empty response' when
    it is; and 500 with the error's message when the provider throws. *)
Theorem title_answer_from_provider (env : QueryEnv) (req : Request)
    (b : gmap string JS.Value) (d : string) :
  body req = Some b → JS.get b "description" = JS.Str d → JS.trim d ≠ "" →
  response (GenerateTitle.createGenerateTitleHandler env req)
  = match simpleQuery env (GenerateTitle.query_options env (JS.trim d)) with
    | Ok result =>
        if String.eqb (JS.trim (text result)) "" then
          failure 500 "Failed to generate title - empty response"
        else json [("success", JS.Bool true); ("title", JS.Str (JS.trim (text result)))]
    | Throw e => failure 500 (message_or "Unknown error occurred" e)
    end.
Proof.
  intros Hb Hd Ht.
  unfold GenerateTitle.createGenerateTitleHandler, handle,
    GenerateTitle.handler_body, destructure_body.
  rewrite Hb. unfold ebind, ret, call. rewrite Hd.
  pose proof (trim_nonempty d Ht) as Hne.
  apply String.eqb_neq in Hne, Ht.
  unfold JS.truthy at 1. rewrite Hne, length_eqb_zero, Ht. simpl.
  destruct (simpleQuery env _) as [r|e]; simpl; [|reflexivity].
  match goal with
  | |- context [if ?c then _ else _] =>
      replace c with (String.eqb (JS.trim (text r)) "")
        by (symmetry; apply blank_check)
  end.
  destruct (String.eqb (JS.trim (text r)) ""); reflexivity.
Qed.

Lemma title_answer_from_provider_witness :
  response (GenerateTitle.createGenerateTitleHandler echo_env title_request)
  = json [("success", JS.Bool true); ("title", JS.Str "Add dark mode toggle")].
Proof.
  rewrite (title_answer_from_provider echo_env title_request
             (<["description" := JS.Str "Let users switch to a dark theme"]> ∅)
             "Let users switch to a dark theme");
    [reflexivity | reflexivity | vm_compute; reflexivity | vm_compute; discriminate].
Defined.

Lemma validMode_lower (m : string) :
  Enhance.validMode (JS.toLowerCase m) = Enhance.validMode m.
Proof. unfold Enhance.validMode. now rewrite toLowerCase_idem. Qed.

Lemma enhance_body_mode (env : Enhance.Env) (b : gmap string JS.Value)
    (q : option (gmap string JS.Value)) (m : string) :
  Enhance.handler_body env (mkRequest (Some (<["enhancementMode" := JS.Str m]> b)) q)
  = match JS.get b "originalText" with
    | JS.Str t =>
        if negb (JS.truthy (JS.Str t)) then
          ret (failure 400 "originalText is required and must be a string")
        else if String.eqb m "" then
          ret (failure 400 "enhancementMode is required and must be a string")
        else if (String.length (JS.trim t) =? 0)%nat then
          ret (failure 400 "originalText cannot be empty")
        else
          Enhance.enhance_with env (Enhance.validMode m) (JS.trim t)
            (JS.get b "model") (JS.get b "thinkingLevel")
    | _ => ret (failure 400 "originalText is required and must be a string")
    end.
Proof.
  unfold Enhance.handler_body, destructure_body. simpl body.
  unfold ebind at 1, ret at 1. rewrite !get_insert. simpl.
  destruct (JS.get b "originalText") as [| | | |t| |]; try reflexivity.
  destruct (String.eqb t ""); [reflexivity|].
  destruct (String.eqb m ""); reflexivity.
Qed.

(** X9: the enhance handler reads the mode without regard to letter case:
    a request and the same request with its [enhancementMode] lower-cased
    get the same calls and the same answer. *)
Theorem enhance_mode_case_insensitive (env : Enhance.Env)
    (b : gmap string JS.Value) (q : option (gmap string JS.Value)) (m : string) :
  Enhance.createEnhanceHandler env
    (mkRequest (Some (<["enhancementMode" := JS.Str m]> b)) q)
  = Enhance.createEnhanceHandler env
      (mkRequest (Some (<["enhancementMode" := JS.Str (JS.toLowerCase m)]> b)) q).
Proof.
  unfold Enhance.createEnhanceHandler. rewrite !enhance_body_mode.
  destruct (JS.get b "originalText") as [| | | |t| |]; try reflexivity.
  destruct (negb (JS.truthy (JS.Str t))); [reflexivity|].
  destruct (String.eqb_spec m "") as [->|Hm]; [reflexivity|].
  assert (JS.toLowerCase m ≠ "") as Hl by (intros E; apply Hm, (proj1 (toLowerCase_empty m)), E).
  apply String.eqb_neq in Hl. rewrite Hl.
  now rewrite validMode_lower.
Qed.

(** The three ways through the enhance handler's body: the destructuring
    throws, a guard answers, or the request goes on to the prompts and the
    provider. *)
Lemma enhance_body_cases (env : Enhance.Env) (req : Request) :
  (∃ e, Enhance.handler_body env req = raise e)
  ∨ (∃ r, Enhance.handler_body env req = ret r)
  ∨ (∃ mode t model thinkingLevel,
       Enhance.handler_body env req
       = Enhance.enhance_with env mode t model thinkingLevel).
Proof.
  unfold Enhance.handler_body, destructure_body.
  destruct (body req) as [b|]; [|left; eexists; reflexivity].
  right.
  change (ebind (ret b) ?k) with (k b). cbv beta.
  destruct (JS.get b "originalText") as [| | | |t| |];
    try (left; eexists; reflexivity).
  destruct (negb (JS.truthy (JS.Str t))); [left; eexists; reflexivity|].
  destruct (JS.get b "enhancementMode") as [| | | |m| |];
    try (left; eexists; reflexivity).
  destruct (negb (JS.truthy (JS.Str m))); [left; eexists; reflexivity|].
  destruct (String.length (JS.trim t) =? 0)%nat; [left; eexists; reflexivity|].
  right. do 4 eexists. reflexivity.
Qed.

(** X10: the enhance handler validates first and loads the prompts before
    it asks the provider.  A request answered 400 has made no outside call;
    the calls are the prompt customization, then at most one provider
    query; and when the prompt customization throws, the provider is never
    queried and the answer is 500 with that error's message. *)
Theorem enhance_prompts_before_provider (env : Enhance.Env) (req : Request) :
  let handled := Enhance.createEnhanceHandler env req in
  (status (response handled) = 400%Z → calls handled = [])
  ∧ (calls handled = []
     ∨ calls handled = [GetPromptCustomization]
     ∨ ∃ o, calls handled = [GetPromptCustomization; SimpleQuery o])
  ∧ (∀ e, Enhance.getPromptCustomization env = Throw e →
       calls handled = []
       ∨ (calls handled = [GetPromptCustomization]
          ∧ response handled = failure 500 (message_or "Unknown error occurred" e))).
Proof.
  unfold Enhance.createEnhanceHandler.
  destruct (enhance_body_cases env req)
    as [[e ->] | [[r ->] | (mode & t & model & tl & ->)]].
  - simpl. split; [discriminate|]. split; [now left | intros; now left].
  - simpl. split; [reflexivity|]. split; [now left | intros; now left].
  - unfold handle, Enhance.enhance_with, ebind, call, ret.
    destruct (Enhance.getPromptCustomization env) as [prompts|e0]; simpl.
    + match goal with
      | |- context [simpleQuery ?b ?o] => destruct (simpleQuery b o) as [r|e1]
      end; simpl.
      * match goal with
        | |- context [if ?c then _ else _] => destruct c
        end; simpl; (split; [discriminate|]); (split; [right; right; eauto|]);
          intros e He; discriminate.
      * split; [discriminate|]. split; [right; right; eauto|].
        intros e He; discriminate.
    + split; [discriminate|]. split; [right; now left|].
      intros e [= <-]. right. now split.
Qed.

(** A description of white space only, in ASCII or not, is answered 400
    and no call is made. *)
Lemma title_rejects_blanks :
  GenerateTitle.createGenerateTitleHandler echo_env
    (mkRequest (Some (<["description" := JS.Str unicode_blanks]> ∅)) None)
  = mkHandled [] (failure 400 "description cannot be empty").
Proof. vm_compute. reflexivity. Qed.

Lemma title_validates_before_query_witness :
  ∃ b d, body title_request = Some b ∧ JS.get b "description" = JS.Str d
         ∧ JS.trim d ≠ ""
         ∧ calls (GenerateTitle.createGenerateTitleHandler echo_env title_request)
           = [SimpleQuery (GenerateTitle.query_options echo_env (JS.trim d))].
Proof.
  apply (proj2 (title_validates_before_query echo_env title_request)).
  vm_compute. discriminate.
Defined.

Lemma enhance_prompts_before_provider_witness :
  calls (Enhance.createEnhanceHandler no_prompts_env (enhance_request "" "improve")) = []
  ∧ response (Enhance.createEnhanceHandler no_prompts_env
                (enhance_request "tidy this up" "improve"))
    = failure 500 "settings unavailable".
Proof.
  split.
  - apply (proj1 (enhance_prompts_before_provider no_prompts_env
                    (enhance_request "" "improve"))).
    reflexivity.
  - destruct (proj2 (proj2 (enhance_prompts_before_provider no_prompts_env
                              (enhance_request "tidy this up" "improve")))
                (Error "settings unavailable") eq_refl) as [H | [_ H]].
    + vm_compute in H. discriminate H.
    + exact H.
Defined.


(** ** The GitHub remote check *)

Lemma all_chars_app (f : ascii → bool) (a b : string) :
  JSText.all_chars f (a ++ b) = JSText.all_chars f a && JSText.all_chars f b.
Proof.
  induction a as [|c a IH]; [reflexivity|].
  change (JSText.all_chars f (String c (a ++ b))
          = JSText.all_chars f (String c a) && JSText.all_chars f b).
  simpl. now rewrite IH, andb_assoc.
Qed.

Lemma span_split (f : ascii → bool) (s : string) :
  s = (GitHub.span f s).1 ++ (GitHub.span f s).2.
Proof.
  induction s as [|c s IH]; simpl; [reflexivity|].
  destruct (f c); [|reflexivity].
  destruct (GitHub.span f s) as [taken left]. simpl in *. now rewrite IH at 1.
Qed.

Lemma span_all (f : ascii → bool) (s : string) :
  JSText.all_chars f (GitHub.span f s).1 = true.
Proof.
  induction s as [|c s IH]; simpl; [reflexivity|].
  destruct (f c) eqn:Hc; [|reflexivity].
  destruct (GitHub.span f s) as [taken left]. simpl in *. now rewrite Hc.
Qed.

Lemma after_literal_split (p s rest : string) :
  GitHub.after_literal p s = Some rest → s = p ++ rest.
Proof.
  revert s. induction p as [|c p IH]; intros s H.
  - simpl in H. now injection H as ->.
  - destruct s as [|d s]; simpl in H; [discriminate|].
    destruct (Ascii.eqb_spec c d) as [->|]; [|discriminate].
    now rewrite (IH s H).
Qed.

(** What a successful attempt at the start of [s] has captured. *)
Lemma match_here_sound (literal s o r : string) :
  GitHub.match_here literal s = Some (o, r) →
  o ≠ "" ∧ r ≠ ""
  ∧ JSText.all_chars GitHub.not_slash o = true
  ∧ JSText.all_chars GitHub.not_slash_dot r = true
  ∧ ∃ after, s = literal ++ o ++ "/" ++ r ++ after.
Proof.
  unfold GitHub.match_here.
  destruct (GitHub.after_literal literal s) as [rest|] eqn:Hlit; [|discriminate].
  apply after_literal_split in Hlit as ->.
  pose proof (span_split GitHub.not_slash rest) as Hrest.
  pose proof (span_all GitHub.not_slash rest) as Ho.
  destruct (GitHub.span GitHub.not_slash rest) as [o' rest1]. simpl in Hrest, Ho.
  destruct (String.eqb_spec o' "") as [|Hne]; [discriminate|].
  destruct rest1 as [|c rest2]; [discriminate|].
  destruct (Ascii.eqb_spec c GitHub.slash) as [->|]; [|discriminate].
  pose proof (span_split GitHub.not_slash_dot rest2) as Hrest2.
  pose proof (span_all GitHub.not_slash_dot rest2) as Hr.
  destruct (GitHub.span GitHub.not_slash_dot rest2) as [r' after]. simpl in Hrest2, Hr.
  destruct (String.eqb_spec r' "") as [|Hne']; [discriminate|].
  intros [= <- <-]. repeat (split; [assumption|]).
  exists after. now rewrite Hrest, Hrest2.
Qed.

Lemma regex_match_sound (literal s o r : string) :
  GitHub.regex_match literal s = Some (o, r) →
  o ≠ "" ∧ r ≠ ""
  ∧ JSText.all_chars GitHub.not_slash o = true
  ∧ JSText.all_chars GitHub.not_slash_dot r = true
  ∧ ∃ before after, s = before ++ literal ++ o ++ "/" ++ r ++ after.
Proof.
  induction s as [|c s IH]; simpl;
    destruct (GitHub.match_here literal _) as [[o' r']|] eqn:Hhere.
  - intros [= -> ->]. apply match_here_sound in Hhere as (? & ? & ? & ? & after & E).
    repeat (split; [assumption|]). now exists "", after.
  - discriminate.
  - intros [= -> ->]. apply match_here_sound in Hhere as (? & ? & ? & ? & after & E).
    repeat (split; [assumption|]). now exists "", after.
  - intros H. destruct (IH H) as (? & ? & ? & ? & before & after & ->).
    repeat (split; [assumption|]). now exists (String c before), after.
Qed.

Lemma substring_split (n : nat) (s : string) :
  (n ≤ String.length s)%nat →
  s = substring 0 n s ++ substring n (String.length s - n) s.
Proof.
  revert s. induction n as [|n IH]; intros s Hn.
  - rewrite Nat.sub_0_r, substring_all. now destruct s.
  - destruct s as [|c s]; simpl in *; [lia|].
    change (String c s = String c (substring 0 n s ++ substring n (String.length s - n) s)).
    rewrite <- IH by lia. reflexivity.
Qed.

Lemma endsWith_split (s suffix : string) :
  JS.endsWith s suffix = true → ∃ a, s = a ++ suffix.
Proof.
  unfold JS.endsWith. intros H. apply andb_true_iff in H as [Hlen Heq].
  apply Nat.leb_le in Hlen. apply String.eqb_eq in Heq.
  exists (substring 0 (String.length s - String.length suffix) s).
  rewrite <- Heq at 2.
  rewrite (substring_split (String.length s - String.length suffix) s) at 1 by lia.
  do 2 f_equal. lia.
Qed.

(** A name without a dot does not end in [.git]. *)
Lemma strip_dot_git_noop (r : string) :
  JSText.all_chars GitHub.not_slash_dot r = true → GitHub.strip_dot_git r = r.
Proof.
  intros Hr. unfold GitHub.strip_dot_git.
  destruct (JS.endsWith r ".git") eqn:E; [|reflexivity].
  apply endsWith_split in E as [a ->].
  rewrite all_chars_app in Hr. apply andb_true_iff in Hr as [_ Hr]. discriminate.
Qed.

(** Where the owner and the repository of a status come from when [gh]
    did not name them. *)
Lemma remote_from_url (env : GitHub.Env) (p : JS.Value) :
  GitHub.resolveRepoFromGh env p = None →
  GitHub.hasGitHubRemote (GitHub.checkGitHubRemote env p) = true →
  ∃ url o r literal before after,
    GitHub.git_remote_get_url env p = Ok url
    ∧ GitHub.checkGitHubRemote env p
      = GitHub.mkGitHubRemoteStatus true (Some (JS.trim url)) (Some o) (Some r)
    ∧ o ≠ "" ∧ r ≠ ""
    ∧ JSText.all_chars GitHub.not_slash o = true
    ∧ JSText.all_chars GitHub.not_slash_dot r = true
    ∧ (literal = "https://github.com/" ∨ literal = "git@github.com:")
    ∧ JS.trim url = before ++ literal ++ o ++ "/" ++ r ++ after.
Proof.
  intros Hgh. unfold GitHub.checkGitHubRemote. rewrite Hgh.
  destruct (GitHub.git_remote_get_url env p) as [url|e]; [|discriminate].
  destruct (String.eqb_spec (JS.trim url) "") as [|Hurl]; [discriminate|].
  assert (GitHub.or_null (JS.trim url) = Some (JS.trim url)) as Hor.
  { unfold GitHub.or_null. apply String.eqb_neq in Hurl. now rewrite Hurl. }
  unfold GitHub.httpsMatch, GitHub.sshMatch.
  destruct (GitHub.regex_match "https://github.com/" (JS.trim url))
    as [[m1 m2]|] eqn:Hhttps.
  - intros _. apply regex_match_sound in Hhttps
      as (Ho & Hr & Hos & Hrs & before & after & E).
    exists url, m1, m2, "https://github.com/", before, after.
    rewrite Hor, (strip_dot_git_noop m2 Hrs). auto 10.
  - destruct (GitHub.regex_match "git@github.com:" (JS.trim url))
      as [[m1 m2]|] eqn:Hssh; [|discriminate].
    intros _. apply regex_match_sound in Hssh
      as (Ho & Hr & Hos & Hrs & before & after & E).
    exists url, m1, m2, "git@github.com:", before, after.
    rewrite Hor, (strip_dot_git_noop m2 Hrs). auto 10.
Qed.

Lemma remote_from_gh (env : GitHub.Env) (p : JS.Value) (o r : string) :
  GitHub.resolveRepoFromGh env p = Some (o, r) →
  o ≠ "" ∧ r ≠ ""
  ∧ ∃ u, u ≠ ""
      ∧ GitHub.checkGitHubRemote env p
        = GitHub.mkGitHubRemoteStatus true (Some u) (Some o) (Some r).
Proof.
  intros Hgh. unfold GitHub.checkGitHubRemote. rewrite Hgh.
  unfold GitHub.resolveRepoFromGh in Hgh.
  destruct (GitHub.gh_repo_view env p) as [d|]; [|discriminate].
  destruct (GitHub.string_or_null (GitHub.owner_login d)) as [o'|]; [|discriminate].
  destruct (GitHub.string_or_null (GitHub.name d)) as [r'|]; [|discriminate].
  destruct (String.eqb_spec o' "") as [|Ho]; [discriminate|].
  destruct (String.eqb_spec r' "") as [|Hr]; [discriminate|].
  injection Hgh as -> ->. do 2 (split; [assumption|]).
  unfold GitHub.or_null.
  destruct (String.eqb_spec
              match GitHub.git_remote_get_url env p with
              | Ok stdout => JS.trim stdout
              | Throw _ => ""
              end "") as [E|E].
  - eexists. split; [|reflexivity]. discriminate.
  - eexists. split; [|reflexivity]. exact E.
Qed.

Lemma remote_names_repository (env : GitHub.Env) (p : JS.Value) :
  GitHub.hasGitHubRemote (GitHub.checkGitHubRemote env p) = true →
  ∃ u o r,
    GitHub.checkGitHubRemote env p
    = GitHub.mkGitHubRemoteStatus true (Some u) (Some o) (Some r)
    ∧ u ≠ "" ∧ o ≠ "" ∧ r ≠ "".
Proof.
  intros Hhas.
  destruct (GitHub.resolveRepoFromGh env p) as [[o r]|] eqn:Hgh.
  - destruct (remote_from_gh env p o r Hgh) as (Ho & Hr & u & Hu & ->).
    now exists u, o, r.
  - destruct (remote_from_url env p Hgh Hhas)
      as (url & o & r & lit & before & after & Hurl & -> & Ho & Hr & _ & _ & Hlit & E).
    exists (JS.trim url), o, r. repeat split; try assumption.
    intros Hempty. rewrite Hempty in E.
    destruct before; [|discriminate]. destruct Hlit as [-> | ->]; discriminate.
Qed.

(** X11: a status of [checkGitHubRemote] names a repository in full or not
    at all.  Either [hasGitHubRemote] is true and [owner], [repo] and
    [remoteUrl] are strings, none of them empty; or it is false and
    [owner] and [repo] are both [null]. *)
Theorem github_remote_all_or_nothing (env : GitHub.Env) (p : JS.Value) :
  (∃ u o r,
     GitHub.checkGitHubRemote env p
     = GitHub.mkGitHubRemoteStatus true (Some u) (Some o) (Some r)
     ∧ u ≠ "" ∧ o ≠ "" ∧ r ≠ "")
  ∨ (GitHub.hasGitHubRemote (GitHub.checkGitHubRemote env p) = false
     ∧ GitHub.owner (GitHub.checkGitHubRemote env p) = None
     ∧ GitHub.repo (GitHub.checkGitHubRemote env p) = None).
Proof.
  destruct (GitHub.hasGitHubRemote (GitHub.checkGitHubRemote env p)) eqn:Hhas.
  - left. now apply remote_names_repository.
  - right. split; [reflexivity|]. revert Hhas. unfold GitHub.checkGitHubRemote.
    destruct (GitHub.resolveRepoFromGh env p) as [[o r]|]; [discriminate|].
    destruct (String.eqb _ ""); [now split|].
    destruct (match GitHub.httpsMatch _ with Some g => Some g | None => _ end)
      as [[m1 m2]|]; [discriminate | now split].
Qed.




(** ** Pull request listing and issue comments *)

Lemma append_nonempty_l (a b : string) : a ≠ "" → a ++ b ≠ "".
Proof. destruct a; [congruence | discriminate]. Qed.

(** X13: for a status that says [hasGitHubRemote], the command line of the
    pull request listing always names the repository with [-R owner/repo]:
    the branch that leaves the flag out is never taken. *)
Theorem pr_list_names_the_repository (env : GitHub.Env) (p : JS.Value)
    (state limit : string) :
  GitHub.hasGitHubRemote (GitHub.checkGitHubRemote env p) = true →
  ∃ o r,
    GitHub.owner (GitHub.checkGitHubRemote env p) = Some o
    ∧ GitHub.repo (GitHub.checkGitHubRemote env p) = Some r
    ∧ GitHub.pr_list_command (GitHub.checkGitHubRemote env p) state limit
      = "gh pr list -R " ++ o ++ "/" ++ r ++ " --state " ++ state
        ++ " --json " ++ GitHub.PR_LIST_FIELDS ++ " --limit " ++ limit.
Proof.
  intros Hhas.
  destruct (remote_names_repository env p Hhas)
    as (u & o & r & -> & Hu & Ho & Hr).
  exists o, r. do 2 (split; [reflexivity|]).
  unfold GitHub.pr_list_command. simpl GitHub.owner. simpl GitHub.repo.
  unfold GitHub.blank. apply String.eqb_neq in Ho as Ho', Hr as Hr'.
  rewrite Ho', Hr'. simpl negb. simpl andb. simpl default.
  assert (o ++ "/" ++ r ≠ "") as Hq by now apply append_nonempty_l.
  apply String.eqb_neq in Hq as Hq'. rewrite Hq'. simpl negb. cbv iota.
  rewrite !filter_cons.
  repeat match goal with
  | |- context [decide (?w ≠ "")] =>
      destruct (decide (w ≠ "")) as [_|Hw];
        [|exfalso; apply Hw; first [discriminate | now apply append_nonempty_l]]
  end.
  rewrite filter_nil. simpl GitHub.join_words.
  change ("gh pr list" ++ " " ++ ?x) with ("gh pr list " ++ x).
  change ("gh pr list -R " ++ ?x) with ("gh pr list " ++ ("-R " ++ x)).
  f_equal. rewrite !append_assoc. reflexivity.
Qed.

Lemma pr_list_names_the_repository_witness :
  GitHub.pr_list_command (GitHub.checkGitHubRemote acme_env (JS.Str "/work/acme"))
    "open" "100"
  = "gh pr list -R acme/web --state open --json " ++ GitHub.PR_LIST_FIELDS
    ++ " --limit 100".
Proof.
  destruct (pr_list_names_the_repository acme_env (JS.Str "/work/acme") "open" "100"
              eq_refl) as (o & r & Ho & Hr & ->).
  injection Ho as <-. injection Hr as <-. reflexivity.
Defined.

Lemma fetch_spawns (env : GitHub.Env) (p : JS.Value) (o r : string)
    (n cursor : JS.Value) :
  (GitHub.fetchIssueComments env p o r n cursor).1 = []
  ∨ ((GitHub.fetchIssueComments env p o r n cursor).1
     = [GitHub.GhApiGraphql p
          (GitHub.mkVariables o r n (if JS.truthy cursor then cursor else JS.Null)
             GitHub.COMMENTS_PAGE_SIZE)]
     ∧ (JS.truthy cursor = false
        ∨ GitHub.isValidCursor (GitHub.tested env cursor) = true)).
Proof.
  unfold GitHub.fetchIssueComments.
  destruct (JS.truthy cursor); simpl.
  - destruct (GitHub.isValidCursor (GitHub.tested env cursor)); simpl; auto.
  - auto.
Qed.

(** X14: what reaches [gh api graphql].  Whatever the request, every
    GraphQL call of the issue comments handler runs in the request's
    [projectPath] and carries a non-empty owner and repository, a number
    other than zero as the issue number, the page size 50, and as cursor
    either [null] or the request's cursor, whose text is then one or more
    characters of [A-Za-z0-9+/=]. *)
Theorem comments_query_is_validated (env : GitHub.Env) (req : Request)
    (cwd : JS.Value) (v : GitHub.Variables) :
  GitHub.GhApiGraphql cwd v ∈ GitHub.ran (GitHub.createListCommentsHandler env req) →
  ∃ b n,
    body req = Some b
    ∧ cwd = JS.get b "projectPath" ∧ JS.truthy cwd = true
    ∧ GitHub.var_issueNumber v = JS.Num n ∧ JS.get b "issueNumber" = JS.Num n ∧ n ≠ 0%Z
    ∧ GitHub.var_owner v ≠ "" ∧ GitHub.var_repo v ≠ ""
    ∧ GitHub.var_pageSize v = 50%Z
    ∧ (GitHub.var_cursor v = JS.Null
       ∨ (GitHub.var_cursor v = JS.get b "cursor"
          ∧ GitHub.tested env (GitHub.var_cursor v) ≠ ""
          ∧ JSText.all_chars GitHub.cursor_char
              (GitHub.tested env (GitHub.var_cursor v)) = true)).
Proof.
  unfold GitHub.createListCommentsHandler.
  destruct (body req) as [b|]; [|simpl; intros H; now apply elem_of_nil in H].
  cbv zeta.
  destruct (JS.truthy (JS.get b "projectPath")) eqn:Hp;
    [|simpl; intros H; now apply elem_of_nil in H].
  simpl negb at 1. cbv iota.
  destruct (JS.get b "issueNumber") as [| | |n| | |] eqn:Hn;
    try (simpl GitHub.is_number; simpl (negb false); rewrite orb_true_r;
         simpl; intros H; now apply elem_of_nil in H).
  destruct (JS.truthy (JS.Num n)) eqn:Hnz;
    [|simpl; intros H; now apply elem_of_nil in H].
  simpl GitHub.is_number. simpl negb at 1 2. simpl orb at 1. cbv iota.
  destruct (GitHub.hasGitHubRemote (GitHub.checkGitHubRemote env (JS.get b "projectPath")))
    eqn:Hhas.
  2:{ simpl. unfold GitHub.checkGitHubRemote_calls. intros H.
      apply elem_of_cons in H as [H|H]; [discriminate|].
      apply elem_of_cons in H as [H|H]; [discriminate|]. now apply elem_of_nil in H. }
  destruct (remote_names_repository env _ Hhas)
    as (u & o & r & E & Hu & Ho & Hr).
  rewrite E. simpl GitHub.owner. simpl GitHub.repo. unfold GitHub.blank.
  apply String.eqb_neq in Ho as Ho', Hr as Hr'. rewrite Ho', Hr'.
  simpl negb. simpl orb. cbv iota. simpl default.
  pose proof (fetch_spawns env (JS.get b "projectPath") o r (JS.Num n)
                (JS.get b "cursor")) as Hspawn.
  destruct (GitHub.fetchIssueComments env (JS.get b "projectPath") o r (JS.Num n)
              (JS.get b "cursor")) as [spawned result].
  simpl in Hspawn. simpl GitHub.ran. unfold GitHub.checkGitHubRemote_calls. intros H.
  apply elem_of_cons in H as [H|H]; [discriminate|].
  apply elem_of_cons in H as [H|H]; [discriminate|].
  destruct Hspawn as [-> | [-> Hcursor]]; [now apply elem_of_nil in H|].
  apply list_elem_of_singleton in H. injection H as -> ->.
  exists b, n. simpl.
  split; [reflexivity|]. split; [reflexivity|]. split; [assumption|].
  split; [reflexivity|]. split; [exact Hn|].
  split; [intros ->; discriminate|].
  do 3 (split; [first [assumption | reflexivity]|]).
  destruct (JS.truthy (JS.get b "cursor")) eqn:Hc; [|now left].
  right. destruct Hcursor as [|Hvalid]; [discriminate|].
  unfold GitHub.isValidCursor in Hvalid. apply andb_true_iff in Hvalid as [Hne Hall].
  split; [reflexivity|]. split; [|assumption].
  intros Hempty. rewrite Hempty in Hne. discriminate.
Qed.

Lemma comments_query_is_validated_witness :
  ∃ b n,
    body (comments_request (JS.Str "Y3Vyc29yOjUw")) = Some b
    ∧ JS.Str "/work/acme" = JS.get b "projectPath"
    ∧ JS.truthy (JS.Str "/work/acme") = true
    ∧ JS.Num 7 = JS.Num n ∧ JS.get b "issueNumber" = JS.Num n ∧ n ≠ 0%Z
    ∧ "acme" ≠ "" ∧ "web" ≠ ""
    ∧ 50%Z = 50%Z
    ∧ (JS.Str "Y3Vyc29yOjUw" = JS.Null
       ∨ (JS.Str "Y3Vyc29yOjUw" = JS.get b "cursor"
          ∧ GitHub.tested acme_env (JS.Str "Y3Vyc29yOjUw") ≠ ""
          ∧ JSText.all_chars GitHub.cursor_char
              (GitHub.tested acme_env (JS.Str "Y3Vyc29yOjUw")) = true)).
Proof.
  apply (comments_query_is_validated acme_env (comments_request (JS.Str "Y3Vyc29yOjUw"))
           (JS.Str "/work/acme")
           (GitHub.mkVariables "acme" "web" (JS.Num 7) (JS.Str "Y3Vyc29yOjUw") 50)).
  vm_compute. apply list_elem_of_further, list_elem_of_further, list_elem_of_here.
Defined.

(** X15: the issue comments handler runs its commands in one order: the
    two of the remote check, then at most one GraphQL call.  A request it
    answers with 400 made no GraphQL call, and a cursor with a character
    outside [A-Za-z0-9+/=] is answered 500 'Invalid cursor format' before
    any GraphQL call too. *)
Theorem comments_commands_in_order (env : GitHub.Env) (req : Request) :
  let served := GitHub.createListCommentsHandler env req in
  (GitHub.ran served = []
   ∨ ∃ b, body req = Some b
      ∧ (GitHub.ran served = GitHub.checkGitHubRemote_calls (JS.get b "projectPath")
         ∨ ∃ v, GitHub.ran served
                = (GitHub.checkGitHubRemote_calls (JS.get b "projectPath")
                   ++ [GitHub.GhApiGraphql (JS.get b "projectPath") v])%list))
  ∧ (∀ r, GitHub.answer served = GitHub.Refused r → status r = 400%Z →
       ∀ cwd v, GitHub.GhApiGraphql cwd v ∉ GitHub.ran served)
  ∧ (∀ b, body req = Some b → JS.truthy (JS.get b "cursor") = true →
       JSText.all_chars GitHub.cursor_char (GitHub.tested env (JS.get b "cursor")) = false →
       (∀ cwd v, GitHub.GhApiGraphql cwd v ∉ GitHub.ran served)
       ∧ ∃ r, GitHub.answer served = GitHub.Refused r
              ∧ (status r = 400%Z ∨ r = failure 500 "Invalid cursor format")).
Proof.
  intros served.
  assert (Hcheck : ∀ p cwd v,
            GitHub.GhApiGraphql cwd v ∉ GitHub.checkGitHubRemote_calls p).
  { intros p cwd v H. unfold GitHub.checkGitHubRemote_calls in H.
    apply elem_of_cons in H as [H|H]; [discriminate|].
    apply elem_of_cons in H as [H|H]; [discriminate|]. now apply elem_of_nil in H. }
  assert (Hnil : ∀ cwd v, GitHub.GhApiGraphql cwd v ∉ ([] : list GitHub.GhCall)).
  { intros cwd v H. now apply elem_of_nil in H. }
  unfold served, GitHub.createListCommentsHandler.
  destruct (body req) as [b|] eqn:Hb.
  2:{ simpl. split; [now left|]. split; [intros; apply Hnil|]. intros b' [=]. }
  cbv zeta.
  destruct (negb (JS.truthy (JS.get b "projectPath"))).
  { simpl. split; [now left|]. split; [intros; apply Hnil|].
    intros b' [= <-] _ _. split; [apply Hnil|]. eexists. split; [reflexivity|now left]. }
  destruct (negb (JS.truthy (JS.get b "issueNumber"))
            || negb (GitHub.is_number (JS.get b "issueNumber"))).
  { simpl. split; [now left|]. split; [intros; apply Hnil|].
    intros b' [= <-] _ _. split; [apply Hnil|]. eexists. split; [reflexivity|now left]. }
  destruct (negb (GitHub.hasGitHubRemote _) || _ || _).
  { simpl. split; [right; exists b; split; [reflexivity | now left]|].
    split; [intros; apply Hcheck|].
    intros b' [= <-] _ _. split; [apply Hcheck|]. eexists. split; [reflexivity|now left]. }
  unfold GitHub.fetchIssueComments.
  destruct (JS.truthy (JS.get b "cursor")) eqn:Hc.
  - unfold GitHub.isValidCursor.
    destruct (JSText.all_chars GitHub.cursor_char (GitHub.tested env (JS.get b "cursor")))
      eqn:Hall.
    + destruct (String.eqb (GitHub.tested env (JS.get b "cursor")) ""); simpl.
      * split; [right; exists b; split; [reflexivity | now left]|].
        split; [intros; apply Hcheck|]. intros b' [= <-] _ Hbad; congruence.
      * split; [right; exists b; split; [reflexivity | right; eauto]|].
        split; [|intros b' [= <-] _ Hbad; congruence].
        intros r Hr Hs. exfalso.
        destruct (GitHub.gh_api_graphql env _ _) as [resp|e]; [|injection Hr as <-; discriminate].
        destruct (GitHub.errors resp) as [[|first rest]|];
          try (injection Hr as <-; discriminate);
          destruct (GitHub.data resp) as [[[conn|]|]|];
          first [discriminate Hr | injection Hr as <-; discriminate].
    + rewrite andb_false_r. simpl.
      split; [right; exists b; split; [reflexivity | now left]|].
      split; [intros; apply Hcheck|].
      intros b' [= <-] _ _. split; [apply Hcheck|].
      eexists. split; [reflexivity|now right].
  - simpl. split; [right; exists b; split; [reflexivity | right; eauto]|].
    split; [|intros b' [= <-] Hbad; congruence].
    intros r Hr Hs. exfalso.
    destruct (GitHub.gh_api_graphql env _ _) as [resp|e]; [|injection Hr as <-; discriminate].
    destruct (GitHub.errors resp) as [[|first rest]|];
      try (injection Hr as <-; discriminate);
      destruct (GitHub.data resp) as [[[conn|]|]|];
      first [discriminate Hr | injection Hr as <-; discriminate].
Qed.

Lemma comments_commands_in_order_witness :
  (∀ cwd v, GitHub.GhApiGraphql cwd v
            ∉ GitHub.ran (GitHub.createListCommentsHandler acme_env
                            (comments_request (JS.Str "abc; rm -rf"))))
  ∧ ∃ r, GitHub.answer (GitHub.createListCommentsHandler acme_env
                          (comments_request (JS.Str "abc; rm -rf")))
         = GitHub.Refused r
         ∧ (status r = 400%Z ∨ r = failure 500 "Invalid cursor format").
Proof.
  apply (proj2 (proj2 (comments_commands_in_order acme_env
                         (comments_request (JS.Str "abc; rm -rf"))))
           (<["projectPath" := JS.Str "/work/acme"]>
              (<["issueNumber" := JS.Num 7]>
                 (<["cursor" := JS.Str "abc; rm -rf"]> ∅))));
    reflexivity.
Defined.

(** X16: [fetchIssueComments] returns a page only when the command
    succeeded and its answer carries no error and has the comments
    connection; the page then has one comment per node, in the nodes'
    order and with their ids, no author login is empty (a missing or empty
    one reads [ghost]), and [endCursor] is never the empty string. *)
Theorem fetched_page_shape (env : GitHub.Env) (p : JS.Value) (o r : string)
    (n cursor : JS.Value) (page : GitHub.IssueCommentsResult) :
  (GitHub.fetchIssueComments env p o r n cursor).2 = Ok page →
  ∃ v response conn,
    (GitHub.fetchIssueComments env p o r n cursor).1 = [GitHub.GhApiGraphql p v]
    ∧ GitHub.gh_api_graphql env p v = Ok response
    ∧ (GitHub.errors response = None ∨ GitHub.errors response = Some [])
    ∧ GitHub.data response = Some (Some (Some conn))
    ∧ map GitHub.id (GitHub.comments page) = map GitHub.node_id (GitHub.nodes conn)
    ∧ Forall (λ c, GitHub.login (GitHub.author c) ≠ "") (GitHub.comments page)
    ∧ GitHub.totalCount page = GitHub.conn_totalCount conn
    ∧ GitHub.endCursor page ≠ Some "".
Proof.
  unfold GitHub.fetchIssueComments.
  destruct (JS.truthy cursor && negb (GitHub.isValidCursor (GitHub.tested env cursor)));
    [discriminate|].
  simpl.
  destruct (GitHub.gh_api_graphql env p _) as [response|e] eqn:Hgh; [|discriminate].
  assert (Hshape : ∀ conn,
    map GitHub.id (map GitHub.comment_of (GitHub.nodes conn))
    = map GitHub.node_id (GitHub.nodes conn)
    ∧ Forall (λ c, GitHub.login (GitHub.author c) ≠ "")
        (map GitHub.comment_of (GitHub.nodes conn))
    ∧ match GitHub.conn_endCursor conn with
      | Some c => GitHub.or_null c
      | None => None
      end ≠ Some "").
  { intros conn. split; [|split].
    - rewrite map_map. reflexivity.
    - apply Forall_map, Forall_forall. intros node _. simpl.
      unfold GitHub.login_or_ghost.
      destruct (GitHub.node_author node) as [a|]; [|discriminate].
      destruct (String.eqb_spec (GitHub.login a) ""); [discriminate | assumption].
    - destruct (GitHub.conn_endCursor conn) as [c|]; [|discriminate].
      unfold GitHub.or_null. destruct (String.eqb_spec c ""); [discriminate|].
      congruence. }
  destruct (GitHub.errors response) as [[|first rest]|] eqn:Herr; [| discriminate |];
    (destruct (GitHub.data response) as [[[conn|]|]|] eqn:Hdata; try discriminate);
    intros [= <-]; eexists _, response, conn;
    destruct (Hshape conn) as (? & ? & ?);
    (split; [reflexivity|]); (split; [exact Hgh|]); simpl; auto 10.
Qed.

Lemma fetched_page_shape_witness :
  ∃ v response conn,
    (GitHub.fetchIssueComments acme_env (JS.Str "/work/acme") "acme" "web" (JS.Num 7)
       JS.Undefined).1 = [GitHub.GhApiGraphql (JS.Str "/work/acme") v]
    ∧ GitHub.gh_api_graphql acme_env (JS.Str "/work/acme") v = Ok response
    ∧ (GitHub.errors response = None ∨ GitHub.errors response = Some [])
    ∧ GitHub.data response = Some (Some (Some conn))
    ∧ map GitHub.id [GitHub.mkGitHubComment "IC_1" (GitHub.mkAuthor "ghost" None)
                       "Fixed in main" "2025-01-01" "2025-01-02"]
      = map GitHub.node_id (GitHub.nodes conn)
    ∧ Forall (λ c, GitHub.login (GitHub.author c) ≠ "")
        [GitHub.mkGitHubComment "IC_1" (GitHub.mkAuthor "ghost" None)
           "Fixed in main" "2025-01-01" "2025-01-02"]
    ∧ 1%Z = GitHub.conn_totalCount conn
    ∧ (None : option string) ≠ Some "".
Proof.
  apply (fetched_page_shape acme_env (JS.Str "/work/acme") "acme" "web" (JS.Num 7)
           JS.Undefined
           (GitHub.mkIssueCommentsResult
              [GitHub.mkGitHubComment "IC_1" (GitHub.mkAuthor "ghost" None)
                 "Fixed in main" "2025-01-01" "2025-01-02"] 1 false None)).
  reflexivity.
Defined.


(** ** Linked pull requests *)

Section LinkedPRsProperties.

Local Open Scope list_scope.
Local Open Scope nat_scope.

Lemma collect_good (seen : gset Z) (nodes : list LinkedPRs.TimelineNode) :
  NoDup (map LinkedPRs.number (LinkedPRs.collect seen nodes))
  ∧ Forall (λ pr, (LinkedPRs.number pr ∉ seen)
                  ∧ LinkedPRs.number pr ≠ 0%Z
                  ∧ JS.toLowerCase (LinkedPRs.state pr) = LinkedPRs.state pr)
      (LinkedPRs.collect seen nodes).
Proof.
  revert seen. induction nodes as [|node rest IH]; intros seen; simpl.
  - split; constructor.
  - destruct (match LinkedPRs.source node with
              | Some s => Some s
              | None => LinkedPRs.subject node
              end) as [pr|]; [|apply IH].
    destruct (LinkedPRs.pr_number pr) as [n|]; [|apply IH].
    destruct (Z.eqb_spec n 0) as [|Hn]; simpl; [apply IH|].
    destruct (bool_decide_reflect (n ∈ seen)) as [|Hseen]; simpl; [apply IH|].
    destruct (IH ({[n]} ∪ seen)) as [Hnodup Hall]. split.
    + constructor; [|exact Hnodup].
      intros Hin. apply list_elem_of_fmap in Hin as (pr' & Heq & Hin).
      rewrite Forall_forall in Hall. destruct (Hall pr' Hin) as [Hnot _].
      apply Hnot. rewrite <- Heq. apply elem_of_union. left. now apply elem_of_singleton.
    + constructor.
      * simpl. split; [exact Hseen|]. split; [exact Hn | apply toLowerCase_idem].
      * eapply Forall_impl; [exact Hall|]. simpl. intros pr' (Hnot & Hnz & Hlow).
        split; [|split; [exact Hnz | exact Hlow]].
        intros Hin. apply Hnot, elem_of_union. now right.
Qed.

Lemma visit_lookup (data : LinkedPRs.RepoData) (idx : nat) (n k : Z)
    (m : gmap Z (list LinkedPRs.LinkedPullRequest)) :
  LinkedPRs.visit data idx n m !! k = m !! k
  ∨ (k = n ∧ ∃ nodes, LinkedPRs.timeline_nodes data idx = Some nodes
                      ∧ LinkedPRs.collect ∅ nodes ≠ []
                      ∧ LinkedPRs.visit data idx n m !! k
                        = Some (LinkedPRs.collect ∅ nodes)).
Proof.
  unfold LinkedPRs.visit.
  destruct (LinkedPRs.timeline_nodes data idx) as [nodes|]; [|now left].
  destruct (LinkedPRs.collect ∅ nodes) as [|pr prs] eqn:E; [now left|].
  change (0 <? length (pr :: prs)) with true. cbv iota.
  destruct (decide (n = k)) as [->|Hne].
  - right. split; [reflexivity|]. exists nodes. rewrite E, lookup_insert_eq.
    split; [reflexivity|]. split; [discriminate | reflexivity].
  - left. now rewrite lookup_insert_ne.
Qed.

Lemma forEach_other (data : LinkedPRs.RepoData) (batch : list Z) (idx : nat)
    (m : gmap Z (list LinkedPRs.LinkedPullRequest)) (k : Z) :
  k ∉ batch → LinkedPRs.forEach data idx batch m !! k = m !! k.
Proof.
  revert idx m. induction batch as [|n rest IH]; intros idx m Hk; [reflexivity|].
  simpl. rewrite IH by set_solver.
  destruct (visit_lookup data idx n k m) as [E | [-> _]]; [exact E|].
  exfalso. apply Hk. left.
Qed.

Lemma forEach_keeps (issueNumbers : list Z) (data : LinkedPRs.RepoData)
    (batch : list Z) (idx : nat) (m : gmap Z (list LinkedPRs.LinkedPullRequest)) :
  batch ⊆ issueNumbers → well_linked issueNumbers m →
  well_linked issueNumbers (LinkedPRs.forEach data idx batch m).
Proof.
  revert idx m. induction batch as [|n rest IH]; intros idx m Hsub Hm; [exact Hm|].
  simpl. apply IH; [set_solver|].
  intros k prs Hk.
  destruct (visit_lookup data idx n k m) as [E | (-> & nodes & _ & Hne & E)].
  - apply Hm. now rewrite <- E.
  - rewrite E in Hk. injection Hk as <-.
    split; [apply Hsub; left|]. split; [exact Hne|].
    destruct (collect_good ∅ nodes) as [Hnodup Hall]. split; [exact Hnodup|].
    eapply Forall_impl; [exact Hall|]. simpl. tauto.
Qed.

Lemma forEach_hit (data : LinkedPRs.RepoData) (batch : list Z) (base idx : nat)
    (m : gmap Z (list LinkedPRs.LinkedPullRequest)) (k : Z) (nodes : list LinkedPRs.TimelineNode) :
  NoDup batch → batch !! idx = Some k →
  LinkedPRs.timeline_nodes data (base + idx) = Some nodes →
  LinkedPRs.collect ∅ nodes ≠ [] →
  LinkedPRs.forEach data base batch m !! k = Some (LinkedPRs.collect ∅ nodes).
Proof.
  revert base idx m. induction batch as [|n rest IH]; intros base idx m Hnd Hk Hdata Hne;
    [discriminate|].
  apply NoDup_cons in Hnd as [Hn Hnd]. simpl.
  destruct idx as [|idx]; simpl in Hk.
  - injection Hk as ->. rewrite forEach_other by exact Hn.
    rewrite Nat.add_0_r in Hdata. unfold LinkedPRs.visit. rewrite Hdata.
    destruct (LinkedPRs.collect ∅ nodes) as [|pr prs]; [congruence|].
    simpl. apply lookup_insert_eq.
  - apply (IH (S base) idx); try assumption.
    now replace (S base + idx) with (base + S idx) by lia.
Qed.

Section Loop.

Variable gh : LinkedPRs.Gh.
Variables (projectPath : JS.Value) (owner repo : string) (issueNumbers : list Z).






Lemma fetch_batch_keeps (batch : list Z) (p : LinkedPRs.Progress) :
  batch ⊆ issueNumbers → well_linked issueNumbers (LinkedPRs.linkedPRsMap p) →
  well_linked issueNumbers
    (LinkedPRs.linkedPRsMap (LinkedPRs.fetch_batch gh projectPath owner repo batch p)).
Proof.
  intros Hsub Hp. unfold LinkedPRs.fetch_batch.
  destruct (gh _) as [[data|]|e|]; simpl; try exact Hp. now apply forEach_keeps.
Qed.

Lemma slice_subseteq (i : nat) :
  take LinkedPRs.LINKED_PRS_BATCH_SIZE (drop i issueNumbers) ⊆ issueNumbers.
Proof.
  intros k Hk. apply list_elem_of_lookup in Hk as [j Hj].
  apply lookup_take_Some in Hj as [Hj _]. rewrite lookup_drop in Hj.
  eapply list_elem_of_lookup_2, Hj.
Qed.

Lemma loop_keeps (fuel i : nat) (p : LinkedPRs.Progress) :
  well_linked issueNumbers (LinkedPRs.linkedPRsMap p) →
  well_linked issueNumbers
    (LinkedPRs.linkedPRsMap (LinkedPRs.loop gh projectPath owner repo issueNumbers fuel i p)).
Proof.
  revert i p. induction fuel as [|fuel IH]; intros i p Hp; simpl; [exact Hp|].
  destruct (i <? length issueNumbers); [|exact Hp].
  pose proof (fetch_batch_keeps _ p (slice_subseteq i) Hp) as Hp'.
  destruct (LinkedPRs.stuck _); [exact Hp' | now apply IH].
Qed.

Lemma fetch_batch_other (batch : list Z) (p : LinkedPRs.Progress) (k : Z) :
  k ∉ batch →
  LinkedPRs.linkedPRsMap (LinkedPRs.fetch_batch gh projectPath owner repo batch p) !! k
  = LinkedPRs.linkedPRsMap p !! k.
Proof.
  intros Hk. unfold LinkedPRs.fetch_batch.
  destruct (gh _) as [[data|]|e|]; simpl; try reflexivity. now apply forEach_other.
Qed.

Lemma loop_other (fuel i : nat) (p : LinkedPRs.Progress) (k : Z) :
  k ∉ drop i issueNumbers →
  LinkedPRs.linkedPRsMap (LinkedPRs.loop gh projectPath owner repo issueNumbers fuel i p) !! k
  = LinkedPRs.linkedPRsMap p !! k.
Proof.
  revert i p. induction fuel as [|fuel IH]; intros i p Hk; simpl; [reflexivity|].
  destruct (i <? length issueNumbers); [|reflexivity].
  assert (Hbatch : LinkedPRs.linkedPRsMap
                     (LinkedPRs.fetch_batch gh projectPath owner repo
                        (take LinkedPRs.LINKED_PRS_BATCH_SIZE (drop i issueNumbers)) p) !! k
                   = LinkedPRs.linkedPRsMap p !! k).
  { apply fetch_batch_other. intros Hin. apply Hk.
    apply list_elem_of_lookup in Hin as [j Hj].
    apply lookup_take_Some in Hj as [Hj _]. eapply list_elem_of_lookup_2, Hj. }
  destruct (LinkedPRs.stuck _); [exact Hbatch|].
  rewrite IH; [exact Hbatch|].
  intros Hin. apply Hk. rewrite <- drop_drop in Hin.
  apply list_elem_of_lookup in Hin as [j Hj]. rewrite lookup_drop in Hj.
  eapply list_elem_of_lookup_2, Hj.
Qed.

Lemma loop_hit (d : nat) :
  ∀ (fuel i idx : nat) (p : LinkedPRs.Progress) (k : Z) (data : LinkedPRs.RepoData)
    (nodes : list LinkedPRs.TimelineNode),
  d < fuel → NoDup issueNumbers →
  LinkedPRs.stuck (LinkedPRs.loop gh projectPath owner repo issueNumbers fuel i p) = false →
  issueNumbers !! (i + d * 20 + idx) = Some k → idx < 20 →
  gh (LinkedPRs.mkQuery projectPath owner repo
        (take 20 (drop (i + d * 20) issueNumbers))) = LinkedPRs.Resolves (Some data) →
  LinkedPRs.timeline_nodes data idx = Some nodes →
  LinkedPRs.collect ∅ nodes ≠ [] →
  LinkedPRs.linkedPRsMap (LinkedPRs.loop gh projectPath owner repo issueNumbers fuel i p) !! k
  = Some (LinkedPRs.collect ∅ nodes).
Proof.
  induction d as [|d IH];
    intros fuel i idx p k data nodes Hfuel Hnd Hret Hk Hidx Hgh Hdata Hne;
    (destruct fuel as [|fuel]; [lia|]); simpl in *;
    pose proof (lookup_lt_Some _ _ _ Hk) as Hlen;
    (destruct (Nat.ltb_spec i (length issueNumbers)) as [Hlt|Hge]; [|lia]);
    (destruct (LinkedPRs.stuck
                 (LinkedPRs.fetch_batch gh projectPath owner repo
                    (take LinkedPRs.LINKED_PRS_BATCH_SIZE (drop i issueNumbers)) p))
       eqn:Hstuck; [congruence|]).
  - rewrite Nat.add_0_r in Hk, Hgh. rewrite loop_other.
    + unfold LinkedPRs.fetch_batch.
      change LinkedPRs.LINKED_PRS_BATCH_SIZE with 20. rewrite Hgh. simpl.
      apply (forEach_hit data _ 0 idx); try assumption.
      * apply (sublist_NoDup _ issueNumbers);
          first [exact Hnd
                | transitivity (drop i issueNumbers);
                  [apply sublist_take | apply sublist_drop]].
      * rewrite lookup_take_lt by exact Hidx. now rewrite lookup_drop.
    + intros Hin. apply list_elem_of_lookup in Hin as [j Hj].
      rewrite lookup_drop in Hj.
      pose proof (NoDup_lookup _ _ _ _ Hnd Hk Hj) as Heq.
      unfold LinkedPRs.LINKED_PRS_BATCH_SIZE in Heq. lia.
  - apply (IH fuel (i + LinkedPRs.LINKED_PRS_BATCH_SIZE) idx _ k data nodes);
      try assumption; unfold LinkedPRs.LINKED_PRS_BATCH_SIZE.
    + lia.
    + now replace (i + 20 + d * 20) with (i + S d * 20) by lia.
    + now replace (i + 20 + d * 20) with (i + S d * 20) by lia.
Qed.

End Loop.



(** X18: every entry of the map [fetchLinkedPRs] returns sits under one of
    the asked issue numbers and holds a list that is not empty, whose pull
    requests have distinct numbers, none of them zero, and a lower-case
    state. *)
Theorem linked_prs_map_well_formed (gh : LinkedPRs.Gh) (projectPath : JS.Value)
    (owner repo : string) (issueNumbers : list Z) (k : Z)
    (prs : list LinkedPRs.LinkedPullRequest) :
  LinkedPRs.linkedPRsMap
    (LinkedPRs.fetchLinkedPRs gh projectPath owner repo issueNumbers) !! k = Some prs →
  k ∈ issueNumbers ∧ prs ≠ []
  ∧ NoDup (map LinkedPRs.number prs)
  ∧ Forall (λ pr, LinkedPRs.number pr ≠ 0%Z
                  ∧ JS.toLowerCase (LinkedPRs.state pr) = LinkedPRs.state pr) prs.
Proof.
  assert (Hempty : well_linked issueNumbers (∅ : gmap Z (list LinkedPRs.LinkedPullRequest))).
  { intros k' prs' H. now rewrite lookup_empty in H. }
  revert k prs. change (well_linked issueNumbers
    (LinkedPRs.linkedPRsMap
       (LinkedPRs.fetchLinkedPRs gh projectPath owner repo issueNumbers))).
  unfold LinkedPRs.fetchLinkedPRs.
  destruct (length issueNumbers =? 0); [exact Hempty|].
  now apply loop_keeps.
Qed.

(** X19: rejections stay in their batch.  When the call returns, for issue
    numbers without repetition, an issue whose batch was answered, with
    timeline nodes that link a pull request, has its list in the map,
    whether the queries of the other batches were answered or rejected. *)
Theorem linked_prs_survive_other_failures (gh : LinkedPRs.Gh) (projectPath : JS.Value)
    (owner repo : string) (issueNumbers : list Z) (j idx : nat) (k : Z)
    (data : LinkedPRs.RepoData) (nodes : list LinkedPRs.TimelineNode) :
  LinkedPRs.stuck (LinkedPRs.fetchLinkedPRs gh projectPath owner repo issueNumbers)
  = false →
  NoDup issueNumbers →
  issueNumbers !! (j * 20 + idx) = Some k → idx < 20 →
  gh (LinkedPRs.mkQuery projectPath owner repo (take 20 (drop (j * 20) issueNumbers)))
  = LinkedPRs.Resolves (Some data) →
  LinkedPRs.timeline_nodes data idx = Some nodes →
  LinkedPRs.collect ∅ nodes ≠ [] →
  LinkedPRs.linkedPRsMap
    (LinkedPRs.fetchLinkedPRs gh projectPath owner repo issueNumbers) !! k
  = Some (LinkedPRs.collect ∅ nodes).
Proof.
  intros Hret Hnd Hk Hidx Hgh Hdata Hne.
  pose proof (lookup_lt_Some _ _ _ Hk) as Hlen.
  unfold LinkedPRs.fetchLinkedPRs in *.
  destruct (Nat.eqb_spec (length issueNumbers) 0) as [Hz|Hnz]; [lia|].
  apply (loop_hit gh projectPath owner repo issueNumbers j
           (length issueNumbers) 0 idx _ k data nodes); try assumption.
  lia.
Qed.

Lemma linked_prs_map_well_formed_witness :
  (21%Z ∈ numbered_issues)
  ∧ [merged_42] ≠ []
  ∧ NoDup (map LinkedPRs.number [merged_42])
  ∧ Forall (λ pr, LinkedPRs.number pr ≠ 0%Z
                  ∧ JS.toLowerCase (LinkedPRs.state pr) = LinkedPRs.state pr)
      [merged_42].
Proof.
  apply (linked_prs_map_well_formed
           (only_batch (drop 20 numbered_issues) twice_linked)
           (JS.Str "/work/acme") "acme" "web" numbered_issues 21 [merged_42]).
  vm_compute. reflexivity.
Defined.

Lemma linked_prs_survive_other_failures_witness :
  LinkedPRs.linkedPRsMap
    (LinkedPRs.fetchLinkedPRs (only_batch (drop 20 numbered_issues) twice_linked)
       (JS.Str "/work/acme") "acme" "web" numbered_issues) !! 21%Z
  = Some [merged_42].
Proof.
  apply (linked_prs_survive_other_failures
           (only_batch (drop 20 numbered_issues) twice_linked)
           (JS.Str "/work/acme") "acme" "web" numbered_issues 1 0 21 twice_linked
           [LinkedPRs.mkTimelineNode (Some pr_42) None;
            LinkedPRs.mkTimelineNode None (Some pr_42)]).
  - vm_compute. reflexivity.
  - apply (bool_decide_unpack _). vm_compute. exact I.
  - reflexivity.
  - lia.
  - vm_compute. reflexivity.
  - reflexivity.
  - vm_compute. discriminate.
Defined.

End LinkedPRsProperties.


(** ** Default workspace directory *)

Lemma startsWith_cons (c d : ascii) (s p : string) :
  JSText.startsWith (String d s) (String c p) = Ascii.eqb c d && JSText.startsWith s p.
Proof. reflexivity. Qed.

Lemma includes_cons (c : ascii) (s sub : string) :
  JSText.includes (String c s) sub
  = JSText.startsWith (String c s) sub || JSText.includes s sub.
Proof. reflexivity. Qed.

Lemma squeeze_cons (b : bool) (c : ascii) (s : string) :
  Workspace.squeeze b (String c s)
  = if Ascii.eqb c GitHub.slash then
      if b then Workspace.squeeze true s else String c (Workspace.squeeze true s)
    else String c (Workspace.squeeze false s).
Proof. reflexivity. Qed.

Lemma squeeze_head (s : string) :
  JSText.startsWith (Workspace.squeeze true s) "/" = false.
Proof.
  induction s as [|c s IH]; [reflexivity|]. rewrite squeeze_cons.
  destruct (Ascii.eqb c GitHub.slash) eqn:Hc; [exact IH|].
  rewrite startsWith_cons, Ascii.eqb_sym. fold GitHub.slash. now rewrite Hc.
Qed.

Lemma squeeze_single (b : bool) (s : string) :
  JSText.includes (Workspace.squeeze b s) "//" = false.
Proof.
  revert b. induction s as [|c s IH]; intros b; [reflexivity|]. rewrite squeeze_cons.
  destruct (Ascii.eqb c GitHub.slash) eqn:Hc.
  - destruct b; [apply IH|].
    rewrite includes_cons, IH, orb_false_r, startsWith_cons, squeeze_head.
    apply andb_false_r.
  - rewrite includes_cons, IH, orb_false_r, startsWith_cons, Ascii.eqb_sym.
    fold GitHub.slash. now rewrite Hc.
Qed.

Lemma all_chars_squeeze (f : ascii → bool) (b : bool) (s : string) :
  JSText.all_chars f s = true → JSText.all_chars f (Workspace.squeeze b s) = true.
Proof.
  revert b. induction s as [|c s IH]; intros b H; [reflexivity|]. rewrite squeeze_cons.
  simpl in H. apply andb_true_iff in H as [Hc Hs].
  destruct (Ascii.eqb c GitHub.slash); [destruct b|];
    [now apply IH | |];
    (change (JSText.all_chars f (String c ?r)) with (f c && JSText.all_chars f r);
     rewrite Hc; now apply IH).
Qed.

Lemma to_slashes_clean (p : string) :
  JSText.all_chars no_backslash (Workspace.to_slashes p) = true.
Proof.
  induction p as [|c p IH]; [reflexivity|]. simpl. rewrite IH, andb_true_r.
  unfold no_backslash. destruct (Ascii.eqb_spec c Workspace.backslash) as [|Hc].
  - reflexivity.
  - apply Ascii.eqb_neq in Hc. now rewrite Hc.
Qed.

Lemma join_slash_clean (parts : list string) :
  Forall (λ p, JSText.all_chars no_backslash p = true) parts →
  JSText.all_chars no_backslash (Workspace.join_slash parts) = true.
Proof.
  induction 1 as [|p rest Hp Hrest IH]; [reflexivity|].
  destruct rest as [|q rest]; [exact Hp|].
  change (Workspace.join_slash (p :: q :: rest))
    with (p ++ "/" ++ Workspace.join_slash (q :: rest)).
  rewrite !all_chars_app, Hp, IH. reflexivity.
Qed.

Lemma squeeze_keeps_head (c : ascii) (s : string) :
  ∃ rest, Workspace.squeeze false (String c s) = String c rest.
Proof.
  rewrite squeeze_cons. destruct (Ascii.eqb c GitHub.slash); eauto.
Qed.

Lemma join_slash_head (c : ascii) (q : string) (rest : list string) :
  ∃ more, Workspace.join_slash (String c q :: rest) = String c more.
Proof. destruct rest; eexists; reflexivity. Qed.

Lemma joinPath_normalized (parts : list string) :
  Workspace.joinPath parts = Workspace.normalized parts.
Proof.
  unfold Workspace.joinPath. destruct parts as [|first rest]; [reflexivity|].
  destruct (JSText.startsWith first "/") eqn:Hfirst; [|reflexivity].
  apply startsWith_split in Hfirst as [tail ->].
  unfold Workspace.normalized. rewrite filter_cons.
  destruct (decide ("/" ++ tail ≠ "")) as [_|Hne]; [|exfalso; apply Hne; discriminate].
  change (map Workspace.to_slashes (("/" ++ tail) :: ?l))
    with (String "/" (Workspace.to_slashes tail) :: map Workspace.to_slashes l).
  destruct (join_slash_head "/" (Workspace.to_slashes tail)
              (map Workspace.to_slashes (filter (λ p, p ≠ "") rest))) as [more ->].
  destruct (squeeze_keeps_head "/" more) as [rest' ->]. reflexivity.
Qed.

(** X20: [joinPath] returns its [normalized] string: the step that is to
    preserve a leading slash never changes it.  The result has no
    backslash and no two slashes in a row, whatever the parts are. *)
Theorem join_path_is_normalized (parts : list string) :
  Workspace.joinPath parts = Workspace.normalized parts
  ∧ JSText.all_chars (λ c, negb (Ascii.eqb c Workspace.backslash))
      (Workspace.joinPath parts) = true
  ∧ JSText.includes (Workspace.joinPath parts) "//" = false.
Proof.
  rewrite joinPath_normalized. unfold Workspace.normalized.
  split; [reflexivity|]. split.
  - apply (all_chars_squeeze no_backslash), join_slash_clean, Forall_forall.
    intros p Hp. apply list_elem_of_fmap in Hp as (q & -> & _). apply to_slashes_clean.
  - apply squeeze_single.
Qed.

Lemma join_path_nonempty (parts : list string) (p : string) :
  p ∈ parts → p ≠ "" → Workspace.joinPath parts ≠ "".
Proof.
  intros Hin Hp. rewrite joinPath_normalized.
  unfold Workspace.normalized.
  assert (Hq : ∃ c q rest, map Workspace.to_slashes (filter (λ p, p ≠ "") parts)
                           = String c q :: rest).
  { assert (Hf : p ∈ filter (λ p, p ≠ "") parts) by (apply list_elem_of_filter; auto).
    assert (Hall : Forall (λ p, p ≠ "") (filter (λ p, p ≠ "") parts)).
    { apply Forall_forall. intros q Hq. now apply list_elem_of_filter in Hq as [? _]. }
    destruct (filter (λ p, p ≠ "") parts) as [|[|c q] rest].
    - now apply elem_of_nil in Hf.
    - apply Forall_cons in Hall as [Hbad _]. now destruct Hbad.
    - simpl. eauto. }
  destruct Hq as (c & q & rest & ->).
  destruct (join_slash_head c q rest) as [more ->].
  destruct (squeeze_keeps_head c more) as [rest' ->]. discriminate.
Qed.

Lemma first_present_spec (l : list (option string)) (r : string) :
  Workspace.first_present l = Some r → r ≠ "".
Proof.
  induction l as [|o rest IH]; [discriminate|]. simpl.
  destruct o as [s|]; simpl; [|exact IH].
  destruct (String.eqb_spec s "") as [|Hs]; simpl; [exact IH|].
  now intros [= <-].
Qed.

(** X21: [getDefaultWorkspaceDirectory] follows its documented priority
    order: the configured root when the server reports one, then the last
    used directory, then Documents/Automaker, then the server's data
    directory, each only if it is present; the configured root and the
    data directory count only when the configuration call succeeded.  The
    answer is never the empty string. *)
Theorem workspace_directory_priority (env : Workspace.Env) :
  Workspace.getDefaultWorkspaceDirectory env
  = Workspace.first_present (Workspace.candidates env)
  ∧ Workspace.getDefaultWorkspaceDirectory env ≠ Some "".
Proof.
  assert (Hdocs : Workspace.present (Workspace.getDefaultDocumentsPath env) = false →
                  Workspace.getDefaultDocumentsPath env = None).
  { unfold Workspace.getDefaultDocumentsPath.
    destruct (Workspace.getPath_documents env) as [d|]; [|reflexivity].
    simpl. intros H. apply negb_false_iff, String.eqb_eq in H.
    exfalso. revert H. apply (join_path_nonempty _ "Automaker"); [|discriminate].
    apply list_elem_of_further, list_elem_of_here. }
  assert (Heq : Workspace.getDefaultWorkspaceDirectory env
                = Workspace.first_present (Workspace.candidates env)).
  { unfold Workspace.getDefaultWorkspaceDirectory, Workspace.candidates,
      Workspace.without_config.
    destruct (Workspace.getConfig env) as [result|e]; simpl.
    - destruct (Workspace.success result); simpl.
      + destruct (Workspace.configured result); simpl.
        * destruct (Workspace.present (Workspace.workspaceDir result)); [reflexivity|].
          destruct (Workspace.present (Workspace.lastProjectDir env)); [reflexivity|].
          destruct (Workspace.present (Workspace.getDefaultDocumentsPath env)) eqn:Hd;
            [reflexivity|].
          destruct (Workspace.present (Workspace.defaultDir result)); [reflexivity|].
          now apply Hdocs.
        * destruct (Workspace.present (Workspace.lastProjectDir env)); [reflexivity|].
          destruct (Workspace.present (Workspace.getDefaultDocumentsPath env)) eqn:Hd;
            [reflexivity|].
          destruct (Workspace.present (Workspace.defaultDir result)); [reflexivity|].
          now apply Hdocs.
      + destruct (Workspace.present (Workspace.lastProjectDir env)); [reflexivity|].
        destruct (Workspace.present (Workspace.getDefaultDocumentsPath env)) eqn:Hd;
          [reflexivity|]. now apply Hdocs.
    - destruct (Workspace.present (Workspace.lastProjectDir env)); [reflexivity|].
      destruct (Workspace.present (Workspace.getDefaultDocumentsPath env)) eqn:Hd;
        [reflexivity|]. now apply Hdocs. }
  split; [exact Heq|]. rewrite Heq. intros H.
  now apply first_present_spec in H.
Qed.


(** ** Settings migration *)

Section SettingsProperties.

Local Open Scope list_scope.

Lemma prefer_items {A} (server local : option (list A)) :
  Settings.has_items (Settings.prefer server local)
  = Settings.has_items server || Settings.has_items local.
Proof.
  unfold Settings.prefer.
  destruct (Settings.has_items server) eqn:Hs; simpl; [exact Hs|].
  destruct (Settings.has_items local) eqn:Hl; simpl; assumption.
Qed.

Lemma prefer_server {A} (server local : option (list A)) :
  Settings.has_items server = true → Settings.prefer server local = server.
Proof. unfold Settings.prefer. now intros ->. Qed.

Lemma prefer_idem {A} (server local : option (list A)) :
  Settings.prefer (Settings.prefer server local) local = Settings.prefer server local.
Proof.
  unfold Settings.prefer.
  destruct (Settings.has_items server) eqn:Hs; simpl; [now rewrite Hs|].
  destruct (Settings.has_items local) eqn:Hl; simpl; [now rewrite Hl|].
  now rewrite Hs.
Qed.

Lemma prefer_kept_or_filled {A} (server localValue : option (list A)) :
  kept_or_filled server localValue (Settings.prefer server localValue).
Proof.
  split; [apply prefer_items|]. split; [apply prefer_server|].
  unfold Settings.prefer. now intros -> ->.
Qed.

Ltac split_ifs :=
  repeat match goal with
         | |- context [if ?c then _ else _] => destruct c eqn:?
         end.

(** X22: what [mergeSettings] takes from where.  Each of the lists of
    projects, AI profiles, trashed projects, MCP servers, recent folders
    and project history has items after the merge exactly when the server
    or the local storage had; it is the server's list when that had items
    and the local one when only that had.  The project history index comes
    with the history: the local one, or -1 without one, when the local
    history is taken, and the server's otherwise.  The last selected
    sessions are the local ones when the server has none and the local
    storage has some, and [lastProjectDir] and [currentProjectId] are the
    local ones when the server's is missing or empty and the local one is
    not; otherwise they are the server's.  Every other field is the
    server's, and merging the same local settings once more changes
    nothing. *)
Theorem merge_keeps_server_lists (server localSettings : Settings.GlobalSettings) :
  let merged := Settings.mergeSettings server (Some localSettings) in
  let local_only (server_has local_has : bool) := negb server_has && local_has in
  kept_or_filled (Settings.projects server) (Settings.projects localSettings)
    (Settings.projects merged)
  ∧ kept_or_filled (Settings.aiProfiles server) (Settings.aiProfiles localSettings)
      (Settings.aiProfiles merged)
  ∧ kept_or_filled (Settings.trashedProjects server)
      (Settings.trashedProjects localSettings) (Settings.trashedProjects merged)
  ∧ kept_or_filled (Settings.mcpServers server) (Settings.mcpServers localSettings)
      (Settings.mcpServers merged)
  ∧ kept_or_filled (Settings.recentFolders server) (Settings.recentFolders localSettings)
      (Settings.recentFolders merged)
  ∧ kept_or_filled (Settings.projectHistory server)
      (Settings.projectHistory localSettings) (Settings.projectHistory merged)
  ∧ Settings.projectHistoryIndex merged
    = (if local_only (Settings.has_items (Settings.projectHistory server))
                     (Settings.has_items (Settings.projectHistory localSettings))
       then Some (default (-1)%Z (Settings.projectHistoryIndex localSettings))
       else Settings.projectHistoryIndex server)
  ∧ Settings.lastSelectedSessionByProject merged
    = (if local_only (Settings.has_keys (Settings.lastSelectedSessionByProject server))
                     (Settings.has_keys (Settings.lastSelectedSessionByProject localSettings))
       then Settings.lastSelectedSessionByProject localSettings
       else Settings.lastSelectedSessionByProject server)
  ∧ Settings.lastProjectDir merged
    = (if local_only (Workspace.present (Settings.lastProjectDir server))
                     (Workspace.present (Settings.lastProjectDir localSettings))
       then Settings.lastProjectDir localSettings
       else Settings.lastProjectDir server)
  ∧ Settings.currentProjectId merged
    = (if local_only (Workspace.present (Settings.currentProjectId server))
                     (Workspace.present (Settings.currentProjectId localSettings))
       then Settings.currentProjectId localSettings
       else Settings.currentProjectId server)
  ∧ Settings.others merged = Settings.others server
  ∧ Settings.mergeSettings merged (Some localSettings) = merged.
Proof.
  intros merged local_only.
  do 6 (split; [apply prefer_kept_or_filled|]).
  do 5 (split; [reflexivity|]).
  unfold merged, Settings.mergeSettings. simpl. rewrite !prefer_idem.
  f_equal; split_ifs; simpl in *; congruence.
Qed.

(** The merge takes the last used directory and the current project from
    the browser when the server has neither. *)
Lemma merge_takes_local_values :
  Settings.lastProjectDir (Settings.mergeSettings fresh_server (Some old_browser))
  = Some "/work"%string
  ∧ Settings.currentProjectId (Settings.mergeSettings fresh_server (Some old_browser))
    = Some "p0"%string
  ∧ Settings.others (Settings.mergeSettings fresh_server (Some old_browser))
    = Settings.others fresh_server.
Proof. repeat split. Qed.

Lemma count_positive {A} (x : option (list A)) :
  (0 <? Settings.count x)%nat = Settings.has_items x.
Proof. destruct x as [[|a l]|]; reflexivity. Qed.

Lemma count_zero {A} (x : option (list A)) :
  (Settings.count x =? 0)%nat = negb (Settings.has_items x).
Proof. destruct x as [[|a l]|]; reflexivity. Qed.

Lemma has_more_data (l server : Settings.GlobalSettings) :
  Settings.localStorageHasMoreData (Some l) (Some server)
  = (Settings.has_items (Settings.projects l)
     && negb (Settings.has_items (Settings.projects server)))
    || (Settings.has_items (Settings.aiProfiles l)
        && negb (Settings.has_items (Settings.aiProfiles server))).
Proof.
  unfold Settings.localStorageHasMoreData. rewrite !count_positive, !count_zero.
  destruct (_ && _); [reflexivity|]. destruct (_ && _); reflexivity.
Qed.

Lemma merge_fills {A} (field : Settings.GlobalSettings → option (list A))
    (server l : Settings.GlobalSettings) :
  field (Settings.mergeSettings server (Some l))
  = Settings.prefer (field server) (field l) →
  Settings.has_items (field l) = true → Settings.has_items (field server) = false →
  field (Settings.mergeSettings server (Some l)) = field l
  ∧ Settings.mergeSettings server (Some l) ≠ server.
Proof.
  intros Hfield Hl Hs.
  assert (E : field (Settings.mergeSettings server (Some l)) = field l).
  { rewrite Hfield. unfold Settings.prefer. now rewrite Hl, Hs. }
  split; [exact E|]. intros Hsame. rewrite Hsame in E. congruence.
Qed.

(** X23: with settings on the server, the migration sends something back
    only when the merge changed them: then the projects or the AI profiles
    of the result are those of the local storage, which has some while the
    server has none.  Otherwise the store is hydrated from the server's
    settings as they are. *)
Theorem sync_means_local_data (localSettings : option Settings.GlobalSettings)
    (server final : Settings.GlobalSettings) (sync : bool) :
  Settings.choose localSettings (Some server) = Some (final, sync) →
  if sync then
    ∃ l, localSettings = Some l
         ∧ final = Settings.mergeSettings server (Some l)
         ∧ final ≠ server
         ∧ ((Settings.projects final = Settings.projects l
             ∧ Settings.has_items (Settings.projects l) = true
             ∧ Settings.has_items (Settings.projects server) = false)
            ∨ (Settings.aiProfiles final = Settings.aiProfiles l
               ∧ Settings.has_items (Settings.aiProfiles l) = true
               ∧ Settings.has_items (Settings.aiProfiles server) = false))
  else final = server.
Proof.
  unfold Settings.choose.
  destruct localSettings as [l|]; [|now intros [= <- <-]].
  rewrite has_more_data.
  destruct (_ || _) eqn:Hmore; intros [= <- <-]; [|reflexivity].
  exists l. do 2 (split; [reflexivity|]).
  apply orb_true_iff in Hmore as [H|H]; apply andb_true_iff in H as [Hl Hs];
    apply negb_true_iff in Hs.
  - destruct (merge_fills Settings.projects server l eq_refl Hl Hs) as [E Hne].
    split; [exact Hne|]. left. auto.
  - destruct (merge_fills Settings.aiProfiles server l eq_refl Hl Hs) as [E Hne].
    split; [exact Hne|]. right. auto.
Qed.

Lemma sync_means_local_data_witness :
  ∃ l, Some old_browser = Some l
       ∧ Settings.mergeSettings fresh_server (Some old_browser)
         = Settings.mergeSettings fresh_server (Some l)
       ∧ Settings.mergeSettings fresh_server (Some old_browser) ≠ fresh_server
       ∧ ((Settings.projects (Settings.mergeSettings fresh_server (Some old_browser))
           = Settings.projects l
           ∧ Settings.has_items (Settings.projects l) = true
           ∧ Settings.has_items (Settings.projects fresh_server) = false)
          ∨ (Settings.aiProfiles (Settings.mergeSettings fresh_server (Some old_browser))
             = Settings.aiProfiles l
             ∧ Settings.has_items (Settings.aiProfiles l) = true
             ∧ Settings.has_items (Settings.aiProfiles fresh_server) = false)).
Proof.
  apply (sync_means_local_data (Some old_browser) fresh_server
           (Settings.mergeSettings fresh_server (Some old_browser)) true).
  reflexivity.
Defined.

Lemma find_project_spec (wanted : string) (projects : list Settings.Project) :
  match Settings.find_project wanted projects with
  | Some p => p ∈ projects ∧ Settings.id p = wanted
  | None => wanted ∉ map Settings.id projects
  end.
Proof.
  induction projects as [|p rest IH]; simpl; [apply not_elem_of_nil|].
  destruct (String.eqb_spec (Settings.id p) wanted) as [E|Hne].
  - split; [left | exact E].
  - destruct (Settings.find_project wanted rest) as [q|].
    + destruct IH as [Hin Hid]. split; [now right | exact Hid].
    + intros Hin. apply elem_of_cons in Hin as [Hin|Hin]; [congruence | now apply IH].
Qed.

(** X24: what goes back to the server after hydration.  The update built
    from a store hydrated from [settings] lists the projects of the
    settings, in their order and without features, and its
    [currentProjectId] is either the id of the settings, when that is not
    empty and names one of these projects, or [null]: an id that names no
    listed project is never sent back. *)
Theorem synced_current_project_is_listed (settings : Settings.GlobalSettings) :
  let update :=
    Settings.buildSettingsUpdateFromStore (Settings.hydrateStoreFromSettings settings) in
  map Settings.id (Settings.up_projects update)
  = map Settings.ref_id (default [] (Settings.projects settings))
  ∧ Forall (λ p, Settings.features p = []) (Settings.up_projects update)
  ∧ match Settings.up_currentProjectId update with
    | Some i =>
        Settings.currentProjectId settings = Some i ∧ i ≠ ""%string
        ∧ i ∈ map Settings.id (Settings.up_projects update)
    | None =>
        ∀ i, Settings.currentProjectId settings = Some i → i ≠ ""%string →
             i ∉ map Settings.ref_id (default [] (Settings.projects settings))
    end.
Proof.
  intros update.
  assert (Hids : map Settings.id (Settings.up_projects update)
                 = map Settings.ref_id (default [] (Settings.projects settings))).
  { unfold update. simpl. rewrite map_map. reflexivity. }
  split; [exact Hids|]. split.
  { unfold update. simpl. apply Forall_map, Forall_forall. reflexivity. }
  rewrite <- Hids. unfold update. simpl.
  destruct (Settings.currentProjectId settings) as [i|]; simpl; [|intros i [=]].
  destruct (String.eqb_spec i "") as [->|Hi]; simpl; [intros i [= <-]; congruence|].
  pose proof (find_project_spec i
                (map Settings.project_of (default [] (Settings.projects settings))))
    as Hfind.
  destruct (Settings.find_project i _) as [p|].
  - destruct Hfind as [Hin Hid]. rewrite Hid. split; [reflexivity|]. split; [exact Hi|].
    rewrite <- Hid. apply list_elem_of_fmap. now exists p.
  - intros i' [= <-] _. exact Hfind.
Qed.

Lemma synced_current_project_is_listed_witness :
  "p0"%string ∉ map Settings.ref_id (default [] (Settings.projects old_browser)).
Proof.
  apply (proj2 (proj2 (synced_current_project_is_listed old_browser)) "p0"%string).
  - reflexivity.
  - discriminate.
Defined.

End SettingsProperties.
